(** * agent.py: the evolution pipeline of the self-modifying agent

    A shallow embedding of [agent.py] and the properties of its start-up
    environment, version registry, script builder, validator, retry
    controller and task loop.

    Python [str] values are Rocq [string]s (one [ascii] per code point, so
    the model covers code points below 256); Python's unbounded [int] is
    [N] where the code only handles naturals.  Every function that talks
    to the outside (the model service, child processes, git, the issue
    tracker) takes its answer from an explicit environment and records the
    call in a trace.  Exceptions are instances of Python's [Exception];
    an operator interrupt is not an outcome of any call and is left out. *)

From Stdlib Require Import NArith Ascii DecimalString DecimalN DecimalPos DecimalFacts.
From stdpp Require Import base strings gmap list.

Arguments String.append !s1 s2 : simpl nomatch.
Arguments Ascii.eqb : simpl never.

(** ** Python string primitives *)

Module PyStr.

(** [s.startswith(p)] *)
Fixpoint startswith (s p : string) : bool :=
  match p with
  | "" => true
  | String a p' =>
      match s with
      | "" => false
      | String b s' => if Ascii.eqb a b then startswith s' p' else false
      end
  end.

Fixpoint drop (n : nat) (s : string) : string :=
  match n with
  | O => s
  | S k => match s with "" => "" | String _ s' => drop k s' end
  end.

(** [s.endswith(p)] *)
Definition endswith (s p : string) : bool :=
  (String.length p <=? String.length s)%nat
  && String.eqb (drop (String.length s - String.length p) s) p.

(** [p in s] *)
Fixpoint contains (s p : string) : bool :=
  startswith s p
  || match s with "" => false | String _ s' => contains s' p end.

(** [s.replace(old, new)] for a non-empty [old]: a left-to-right scan that
    rewrites every occurrence it meets and resumes after it.  [skip] counts
    the characters of a matched occurrence that are still to be passed. *)
Fixpoint replace_go (old new : string) (skip : nat) (s : string) : string :=
  match s with
  | "" => ""
  | String c s' =>
      match skip with
      | S k => replace_go old new k s'
      | O =>
          if startswith s old
          then new +:+ replace_go old new (String.length old - 1) s'
          else String c (replace_go old new 0 s')
      end
  end.

Definition replace (s old new : string) : string := replace_go old new 0 s.

(** [s.split(sep)] for a non-empty [sep]; the result is never empty. *)
Fixpoint split_go (sep : string) (skip : nat) (s : string) : list string :=
  match s with
  | "" => [""]
  | String c s' =>
      match skip with
      | S k => split_go sep k s'
      | O =>
          if startswith s sep
          then "" :: split_go sep (String.length sep - 1) s'
          else match split_go sep 0 s' with
               | p :: ps => String c p :: ps
               | [] => [String c ""]
               end
      end
  end.

Definition split (s sep : string) : list string := split_go sep 0 s.

(** [c.isspace()] on code points below 256: TAB..CR, FS..US, space, NEL
    and the no-break space. *)
Definition isspace (c : ascii) : bool :=
  let n := Ascii.N_of_ascii c in
  ((9 <=? n) && (n <=? 13) || (28 <=? n) && (n <=? 32)
   || (n =? 133) || (n =? 160))%N.

Fixpoint lstrip (s : string) : string :=
  match s with
  | "" => ""
  | String c s' => if isspace c then lstrip s' else s
  end.

Fixpoint rstrip (s : string) : string :=
  match s with
  | "" => ""
  | String c s' =>
      match rstrip s' with
      | "" => if isspace c then "" else String c ""
      | r => String c r
      end
  end.

(** [s.strip()] *)
Definition strip (s : string) : string := rstrip (lstrip s).

(** [str(n)] for a natural number *)
Definition str (n : N) : string := NilEmpty.string_of_uint (N.to_uint n).

(** [int(s)]: [None] stands for [ValueError].  Python rejects the empty
    string. *)
Definition int (s : string) : option N :=
  match s with
  | "" => None
  | _ => N.of_uint <$> NilEmpty.uint_of_string s
  end.

Definition isdigit (c : ascii) : bool :=
  let n := Ascii.N_of_ascii c in ((48 <=? n) && (n <=? 57))%N.

(** Every character of [s] satisfies [f]. *)
Fixpoint string_forall (f : ascii → bool) (s : string) : bool :=
  match s with
  | "" => true
  | String c s' => f c && string_forall f s'
  end.

(** [c in s] for a single character [c]. *)
Definition string_mem (c : ascii) (s : string) : bool :=
  negb (string_forall (fun d => negb (Ascii.eqb d c)) s).

(** A match of [old] that starts in [x] ends in [x], whatever [y]
    follows. *)
Definition no_straddle (old x y : string) : Prop :=
  ∀ p q, x = p +:+ q → q ≠ "" → startswith (q +:+ y) old = true →
         startswith q old = true.

(** No match of [sep] starts in [pre] when [y] follows. *)
Definition no_start (sep pre y : string) : Prop :=
  ∀ p q, pre = p +:+ q → q ≠ "" → startswith (q +:+ y) sep = false.

End PyStr.


(** ** Exceptions, results and child processes *)

(** The classes of [Exception] the program can meet; [exn_msg] is
    [str(error)]. *)
Inductive exn_class :=
| TimeoutExpired | CalledProcessError | RequestException | OSError
| ValueError | TypeError | IndexError | PlainException.

Record exn := mkExn { exn_cls : exn_class; exn_msg : string }.

Inductive result (A : Type) :=
| Ok (a : A)
| Raise (e : exn).
Arguments Ok {A} a.
Arguments Raise {A} e.

(** What [subprocess.run] can do: the child ends with a return code (and
    its captured standard error), or the call raises ([TimeoutExpired]
    on the deadline, [OSError] when the child cannot be started). *)
Inductive proc_result :=
| Completed (returncode : Z) (stderr : string)
| RunRaised (e : exn).

(** ** Version registry: [get_next_version] *)

Module Registry.
Import PyStr.

(** The longest prefix of decimal digits, and what follows it. *)
Fixpoint span_digits (s : string) : string * string :=
  match s with
  | "" => ("", "")
  | String c s' =>
      if isdigit c
      then let '(d, r) := span_digits s' in (String c d, r)
      else ("", s)
  end.

(** The pattern [agent_v(\d+)\.py] tried at the start of [s]; the result
    is group 1.  The digit run is greedy, and giving digits back cannot
    help: what follows a shorter run is a digit, never the dot. *)
Definition match_here (s : string) : option string :=
  if startswith s "agent_v" then
    let '(d, r) := span_digits (drop 7 s) in
    match d with
    | "" => None
    | _ => if startswith r ".py" then Some d else None
    end
  else None.

(** [re.search(r'agent_v(\d+)\.py', filename)]: the leftmost match. *)
Fixpoint re_search (s : string) : option string :=
  match match_here s with
  | Some g => Some g
  | None => match s with "" => None | String _ s' => re_search s' end
  end.

(** The comprehension of line 71. *)
Definition existing_of (listing : list string) : list string :=
  List.filter (fun f => startswith f "agent_v" && endswith f ".py") listing.

(** The loop of lines 75-79, [versions] being the list built so far. *)
Fixpoint collect (existing : list string) (versions : list N)
  : result (list N) :=
  match existing with
  | [] => Ok versions
  | filename :: rest =>
      match re_search filename with
      | Some g =>
          match int g with
          | Some n => collect rest (versions ++ [n])
          | None => Raise (mkExn ValueError "invalid literal for int()")
          end
      | None => collect rest versions
      end
  end.

(** [max(versions)] of a list whose first element is [v]. *)
Definition py_max (v : N) (vs : list N) : N := foldl N.max v vs.

(** [get_next_version], as a function of what [os.listdir('.')] returns. *)
Definition get_next_version (listing : list string) : result N :=
  match existing_of listing with
  | [] => Ok 1%N
  | existing =>
      match collect existing [] with
      | Raise e => Raise e
      | Ok [] => Ok 1%N
      | Ok (v :: vs) => Ok (py_max v vs + 1)%N
      end
  end.

(** The version a file name contributes: the name passes the filter of
    line 71 and the pattern is found in it. *)
Definition embedded_version (f : string) : option N :=
  if startswith f "agent_v" && endswith f ".py"
  then g ← re_search f; int g
  else None.

(** The name the builder gives the artifact of version [n]. *)
Definition artifact_name (n : N) : string := "agent_v" +:+ str n +:+ ".py".

End Registry.

(** ** Script extraction of [generate_evolution_script] (lines 180-188) *)

Module Extract.
Import PyStr.

Definition fence_bash : string := "```bash".
Definition fence : string := "```".

(** [l[i]]: [IndexError] when out of range. *)
Definition index (l : list string) (i : nat) : result string :=
  match l !! i with
  | Some x => Ok x
  | None => Raise (mkExn IndexError "list index out of range")
  end.

Definition between (script open : string) : result string :=
  match index (split script open) 1 with
  | Raise e => Raise e
  | Ok after =>
      match index (split after fence) 0 with
      | Raise e => Raise e
      | Ok inner => Ok (strip inner)
      end
  end.

Definition extract_script (script : string) : result string :=
  if contains script fence_bash then between script fence_bash
  else if contains script fence then between script fence
  else Ok script.

(** The text before the first occurrence of [sep] (all of [s] when there
    is none), and the text after it. *)
Fixpoint before (s sep : string) : string :=
  match s with
  | "" => ""
  | String c s' => if startswith s sep then "" else String c (before s' sep)
  end.

Fixpoint after (s sep : string) : option string :=
  if startswith s sep then Some (drop (String.length sep) s)
  else match s with "" => None | String _ s' => after s' sep end.

End Extract.

(** ** Placeholder substitution of [create_new_version] (lines 207-213) *)

Module Builder.
Import PyStr.

Definition script_filename (version : N) : string :=
  "evolve_v" +:+ str version +:+ ".sh".

Definition substitute (evolution_script : string) (version : N)
    (current_filename : string) : string :=
  let script_with_version :=
    replace evolution_script "agent_vN.py" ("agent_v" +:+ str version +:+ ".py") in
  let script_with_version :=
    replace script_with_version "vN" ("v" +:+ str version) in
  replace script_with_version "CURRENT_AGENT" current_filename.

(** What lines 216-219 write into the script file. *)
Definition script_file_text (evolution_script : string) (version : N)
    (current_filename : string) : string :=
  "#!/bin/bash" +:+ String "010" "" +:+
  "set -e  # Exit on any error" +:+ String "010" (String "010" "") +:+
  substitute evolution_script version current_filename.

(** [f"v{version}"] *)
Definition next_v (version : N) : string := "v" +:+ str version.

(** The placeholder tokens. *)
Definition tokens : list string := ["agent_vN.py"; "vN"; "CURRENT_AGENT"].

Definition has_token (s : string) : bool :=
  existsb (contains s) tokens.

(** The ways to cut [s] into two parts, neither empty. *)
Fixpoint splits (s : string) : list (string * string) :=
  match s with
  | "" => []
  | String c s' =>
      match s' with
      | "" => []
      | _ => (String c "", s')
             :: List.map (λ '(p, u), (String c p, u)) (splits s')
      end
  end.

(** Splicing [new] into a text can put [old] together: [new] holds
    [old], or ends with a beginning of [old], or begins with an end of
    [old], or is itself the beginning of an end of [old] (the empty
    string is). *)
Definition rebuilds (old new : string) : bool :=
  contains new old
  || existsb (λ '(p, u), endswith new p || startswith new u
                         || startswith u new)
       (splits old).

(** File names that put no token together when they take the place of
    [CURRENT_AGENT]. *)
Definition clean_filename (f : string) : bool :=
  negb (rebuilds "CURRENT_AGENT" f) && negb (rebuilds "vN" f).

(** The two parts of a cut token hold no token, and the second part has
    neither [v] nor [C]. *)
Definition plain_parts (tok : string) : bool :=
  forallb (λ '(p, u), negb (has_token p) && negb (string_mem "v" u)
                      && negb (string_mem "C" u))
    (splits tok).

(** A test by characters that clean names pass when they are not empty,
    have no [C] and no [vN], do not begin with a character of
    [URRENT_AGENT] and do not end with [v]. *)
Definition safe_filename (f : string) : bool :=
  match f with
  | "" => false
  | String c _ => negb (string_mem c "URRENT_AGENT")
  end
  && negb (string_mem "C" f)
  && negb (contains f "vN")
  && negb (endswith f "v").

End Builder.

(** ** The outside world *)

(** Requests of [github_api]; each constructor is one method and path. *)
Inductive gh_request :=
| ListOpenTasks                               (* GET /issues?labels=agent-task&state=open *)
| DeleteLabel (issue : N) (label : string)    (* DELETE /issues/{n}/labels/{label} *)
| PostComment (issue : N) (body : string)     (* POST /issues/{n}/comments *)
| AddLabels (issue : N) (labels : list string) (* POST /issues/{n}/labels *)
| CloseIssue (issue : N)                      (* PATCH /issues/{n}, state closed *)
| CreatePull (title body head base : string). (* POST /pulls *)

(** The [previous_attempt] dictionary. *)
Record previous_attempt := mkPrev { pa_script : string; pa_error : string }.

(** Calls that leave the process, in the order they are made. *)
Inductive event :=
| CallModel (task : string) (prev : option previous_attempt)
| WriteFile (name text : string)
| Chmod (name : string)
| RunBash (name : string)
| RunTest (path : string)
| Git (args : list string)
| Api (req : gh_request)
| Execv (path : string)
| Sleep (secs : nat).

(** An issue as the tracker holds it. *)
Record issue_state := mkIssueState {
  st_labels : gset string;
  st_open : bool;
  st_comments : list string
}.

(** An issue as the listing returns it: [issue["number"]],
    [issue["title"]] and the names of [issue.get("labels", [])]. *)
Record issue := mkIssue {
  number : N;
  title : string;
  labels : list string
}.

(** The tracker applies a request that returns; it leaves unknown issues
    alone. *)
Definition apply_request (req : gh_request) (t : gmap N issue_state)
  : gmap N issue_state :=
  match req with
  | ListOpenTasks => t
  | DeleteLabel n l =>
      alter (fun i => mkIssueState (st_labels i ∖ {[l]}) (st_open i) (st_comments i)) n t
  | PostComment n body =>
      alter (fun i => mkIssueState (st_labels i) (st_open i) (st_comments i ++ [body])) n t
  | AddLabels n ls =>
      alter (fun i => mkIssueState (st_labels i ∪ list_to_set ls) (st_open i) (st_comments i)) n t
  | CloseIssue n =>
      alter (fun i => mkIssueState (st_labels i) false (st_comments i)) n t
  | CreatePull _ _ _ _ => t
  end.

Record world := mkWorld {
  files : gmap string string;          (* the working directory *)
  tracker : gmap N issue_state;        (* the remote issue tracker *)
  trace : list event;                  (* calls made so far, oldest first *)
  evolution_script : option string     (* main's local; None while unbound *)
}.

(** The places of one attempt where [github_api] is called. *)
Inductive api_site :=
| SitePull | SiteSuccessComment | SiteClose
| SiteGiveUpComment | SiteGiveUpLabel
| SiteHandlerComment | SiteHandlerLabel.

(** What the outside answers during one attempt. *)
Record attempt_env := mkAttemptEnv {
  llm : result string;                  (* the model's reply, or the call raises *)
  bash : proc_result;                   (* the run of the evolution script *)
  bash_effect : gmap string string → gmap string string;
  test : proc_result;                   (* the run of the artifact with --test *)
  git_fails : nat → option exn;         (* the k-th git command raises *)
  api_fails : api_site → option exn;
  execv_fails : option exn
}.

Record issue_env := mkIssueEnv {
  delete_failed_fails : option exn;
  delete_retry_fails : option exn;
  attempts : nat → attempt_env          (* indexed by the attempt number *)
}.

Record scan_env := mkScanEnv {
  issues_response : result (list issue);
  issue_envs : nat → issue_env          (* indexed by the position in the listing *)
}.

(** ** A state and exception monad for [main] *)

(** A computation returns, raises an [Exception], or replaces the process
    image ([os.execv]): then nothing of the program runs any more. *)
Inductive outcome (A : Type) :=
| Ret (a : A)
| Exc (e : exn)
| Replaced (path : string).
Arguments Ret {A} a.
Arguments Exc {A} e.
Arguments Replaced {A} path.

Definition M (A : Type) : Type := world → outcome A * world.

Definition ret {A} (a : A) : M A := fun w => (Ret a, w).

Definition bind {A B} (m : M A) (k : A → M B) : M B :=
  fun w =>
    match m w with
    | (Ret a, w') => k a w'
    | (Exc e, w') => (Exc e, w')
    | (Replaced p, w') => (Replaced p, w')
    end.

Definition raise {A} (e : exn) : M A := fun w => (Exc e, w).

(** [try: m  except Exception as error: h error] *)
Definition try_except {A} (m : M A) (h : exn → M A) : M A :=
  fun w =>
    match m w with
    | (Exc e, w') => h e w'
    | r => r
    end.

Declare Scope py_scope.
Delimit Scope py_scope with py.
Notation "x <- m ;; k" := (bind m (fun x => k))
  (at level 100, m at next level, right associativity) : py_scope.
Notation "m ;; k" := (bind m (fun _ => k))
  (at level 100, right associativity) : py_scope.
Open Scope py_scope.

Definition add_events (evs : list event) (w : world) : world :=
  mkWorld (files w) (tracker w) (trace w ++ evs) (evolution_script w).

Definition emit (e : event) : M unit :=
  fun w => (Ret tt, add_events [e] w).

(** The world once the tracker has applied [req]. *)
Definition applied (req : gh_request) (w : world) : world :=
  mkWorld (files w) (apply_request req (tracker w)) (trace w)
    (evolution_script w).

Definition lift {A} (r : result A) : M A :=
  match r with Ok a => ret a | Raise e => raise e end.

Definition fails_with (f : option exn) : M unit :=
  match f with Some e => raise e | None => ret tt end.

(** ** The program *)

Definition nl : string := String "010" "".

Definition max_retries : nat := 3.

(** [str(attempt)] and [str(max_retries)] *)
Definition str_nat (n : nat) : string := PyStr.str (N.of_nat n).

(** The error summary of a clean validation failure (line 418). *)
Definition test_failed_error : string :=
  "New version failed --test flag (exit code non-zero)".

Definition success_comment (version : N) (attempt : nat) : string :=
  let retry_msg :=
    if (1 <? attempt)%nat
    then " (succeeded on attempt " +:+ str_nat attempt +:+ ")" else "" in
  "✓ Successfully created PR for v" +:+ PyStr.str version +:+ retry_msg.

Definition human_options : string :=
  "**Leaving issue open for human review.**" +:+ nl +:+ nl +:+
  "You can:" +:+ nl +:+
  "- Add the `agent-retry` label to try again" +:+ nl +:+
  "- Close the issue if task is no longer needed" +:+ nl +:+
  "- Manually implement and close the issue".

(** The comment of lines 423-431. *)
Definition giveup_comment : string :=
  "✗ Failed after " +:+ str_nat max_retries +:+ " attempts." +:+ nl +:+ nl +:+
  "All generated versions failed testing. " +:+ human_options.

(** The comment of lines 451-459. *)
Definition handler_comment (error : exn) : string :=
  "✗ Failed after " +:+ str_nat max_retries +:+ " attempts." +:+ nl +:+ nl +:+
  "Last error: " +:+ exn_msg error +:+ nl +:+ nl +:+ human_options.

Definition pr_title (version : N) (task : string) : string :=
  "Agent Evolution v" +:+ PyStr.str version +:+ ": " +:+ task.

Definition pr_body (version : N) (task : string) : string :=
  "**Automated evolution from agent**" +:+ nl +:+ nl +:+
  "Task: " +:+ task +:+ nl +:+ nl +:+
  "This PR was automatically created by the self-modifying agent. " +:+
  "Review the changes and merge to deploy the new version." +:+ nl +:+ nl +:+
  "**Review checklist:**" +:+ nl +:+
  "- [ ] Evolution script looks safe (`evolve_v" +:+ PyStr.str version +:+ ".sh`)" +:+ nl +:+
  "- [ ] New agent code is reasonable (`agent_v" +:+ PyStr.str version +:+ ".py`)" +:+ nl +:+
  "- [ ] No secrets or credentials exposed" +:+ nl +:+
  "- [ ] Tests pass (agent ran `--test` successfully)" +:+ nl.

Inductive ctl := Break | Continue.

Section Agent.

(** [os.path.basename(__file__)] of the running program. *)
Context (current_filename : string).

(** [os.listdir('.')] *)
Definition listdir (w : world) : list string := elements (dom (files w)).

(** [get_next_version()]: reads the directory and changes nothing. *)
Definition get_next_version : M N :=
  fun w => lift (Registry.get_next_version (listdir w)) w.

(** [github_api(method, path, json_data)]: the request reaches the tracker
    unless the call raises. *)
Definition github_api (fails : option exn) (req : gh_request) : M unit :=
  emit (Api req) ;;
  fails_with fails ;;
  fun w => (Ret tt, applied req w).

(** [generate_evolution_script(task, previous_attempt)]: the model is
    called with the task and the previous failure; its reply goes through
    the extraction of lines 183-186. *)
Definition generate_evolution_script (a : attempt_env) (task : string)
    (previous : option previous_attempt) : M string :=
  emit (CallModel task previous) ;;
  script <- lift (llm a) ;;
  lift (Extract.extract_script script).

Definition write_file (name text : string) : M unit :=
  emit (WriteFile name text) ;;
  fun w => (Ret tt, mkWorld (<[name := text]> (files w)) (tracker w)
                            (trace w) (evolution_script w)).

Definition run_bash (a : attempt_env) (name : string) : M proc_result :=
  emit (RunBash name) ;;
  fun w => (Ret (bash a), mkWorld (bash_effect a (files w)) (tracker w)
                                  (trace w) (evolution_script w)).

(** [create_new_version(evolution_script, version)] *)
Definition create_new_version (a : attempt_env) (evolution_script : string)
    (version : N) : M string :=
  let script_filename := Builder.script_filename version in
  write_file script_filename
    (Builder.script_file_text evolution_script version current_filename) ;;
  emit (Chmod script_filename) ;;
  result <- run_bash a script_filename ;;
  match result with
  | RunRaised e => raise e
  | Completed returncode stderr =>
      if (returncode =? 0)%Z
      then ret (Registry.artifact_name version)
      else raise (mkExn PlainException ("Evolution script failed: " +:+ stderr))
  end.

(** [test_new_version(agent_path)] *)
Definition test_new_version (a : attempt_env) (agent_path : string) : M bool :=
  try_except
    (emit (RunTest agent_path) ;;
     match test a with
     | RunRaised e => raise e
     | Completed returncode _ => ret (returncode =? 0)%Z
     end)
    (fun _ => ret false).

(** [subprocess.run(["git", ...], check=True)], the [k]-th of the call *)
Definition git (a : attempt_env) (k : nat) (args : list string) : M unit :=
  emit (Git args) ;; fails_with (git_fails a k).

(** [create_pull_request(version, task, branch_name)] *)
Definition create_pull_request (a : attempt_env) (version : N)
    (task branch_name : string) : M unit :=
  git a 0 ["checkout"; "main"] ;;
  git a 1 ["pull"] ;;
  git a 2 ["checkout"; "-b"; branch_name] ;;
  git a 3 ["add"; "."] ;;
  git a 4 ["commit"; "-m"; "v" +:+ PyStr.str version +:+ ": " +:+ task] ;;
  git a 5 ["push"; "origin"; branch_name] ;;
  github_api (api_fails a SitePull)
    (CreatePull (pr_title version task) (pr_body version task) branch_name "main") ;;
  git a 6 ["checkout"; "main"].

(** [os.execv(sys.executable, [sys.executable, path])]: it does not
    return. *)
Definition os_execv {A} (a : attempt_env) (path : string) : M A :=
  emit (Execv path) ;;
  match execv_fails a with
  | Some e => raise e
  | None => fun w => (Replaced path, w)
  end.

Definition set_evolution_script (script : string) : M unit :=
  fun w => (Ret tt, mkWorld (files w) (tracker w) (trace w) (Some script)).

(** [evolution_script if 'evolution_script' in locals() else "N/A"] *)
Definition script_or_na : M string :=
  fun w => (Ret (default "N/A" (evolution_script w)), w).

(** The [try] block of one attempt (lines 374-438).  The result tells the
    loop whether to [break] and what [previous_attempt] is afterwards. *)
Definition attempt_try (a : attempt_env) (version issue_number : N)
    (task : string) (attempt : nat) (previous : option previous_attempt)
  : M (ctl * option previous_attempt) :=
  evolution_script <- generate_evolution_script a task previous ;;
  set_evolution_script evolution_script ;;
  new_agent_path <- create_new_version a evolution_script version ;;
  passed <- test_new_version a new_agent_path ;;
  if passed : bool then
    create_pull_request a version task ("evolution-v" +:+ PyStr.str version) ;;
    github_api (api_fails a SiteSuccessComment)
      (PostComment issue_number (success_comment version attempt)) ;;
    github_api (api_fails a SiteClose) (CloseIssue issue_number) ;;
    os_execv a new_agent_path
  else
    let previous' := Some (mkPrev evolution_script test_failed_error) in
    if (attempt =? max_retries)%nat then
      github_api (api_fails a SiteGiveUpComment)
        (PostComment issue_number giveup_comment) ;;
      github_api (api_fails a SiteGiveUpLabel)
        (AddLabels issue_number ["agent-failed"]) ;;
      ret (Break, previous')
    else ret (Continue, previous').

(** The [except Exception as error] block of one attempt (lines 440-466). *)
Definition attempt_except (a : attempt_env) (issue_number : N)
    (attempt : nat) (error : exn) : M (ctl * option previous_attempt) :=
  script <- script_or_na ;;
  let previous' := Some (mkPrev script (exn_msg error)) in
  if (attempt =? max_retries)%nat then
    github_api (api_fails a SiteHandlerComment)
      (PostComment issue_number (handler_comment error)) ;;
    github_api (api_fails a SiteHandlerLabel)
      (AddLabels issue_number ["agent-failed"]) ;;
    ret (Break, previous')
  else ret (Continue, previous').

(** [for attempt in range(1, max_retries + 1)], [todo] being the attempt
    numbers still to run. *)
Fixpoint attempt_loop (ie : issue_env) (version issue_number : N)
    (task : string) (todo : list nat) (previous : option previous_attempt)
  : M unit :=
  match todo with
  | [] => ret tt
  | attempt :: rest =>
      r <- try_except
             (attempt_try (attempts ie attempt) version issue_number task
                attempt previous)
             (attempt_except (attempts ie attempt) issue_number attempt) ;;
      match r with
      | (Break, _) => ret tt
      | (Continue, previous') =>
          attempt_loop ie version issue_number task rest previous'
      end
  end.

(** The body of [for issue in issues] (lines 353-466). *)
Definition process_issue (ie : issue_env) (version : N) (i : issue) : M unit :=
  let issue_number := number i in
  let task := title i in
  let labels := labels i in
  if bool_decide ("agent-failed" ∈ labels)
     && negb (bool_decide ("agent-retry" ∈ labels))
  then ret tt
  else
    (if bool_decide ("agent-retry" ∈ labels) then
       github_api (delete_failed_fails ie) (DeleteLabel issue_number "agent-failed") ;;
       github_api (delete_retry_fails ie) (DeleteLabel issue_number "agent-retry")
     else ret tt) ;;
    attempt_loop ie version issue_number task (seq 1 max_retries) None.

Fixpoint for_issues (se : scan_env) (version : N) (idx : nat)
    (issues : list issue) : M unit :=
  match issues with
  | [] => ret tt
  | i :: rest =>
      process_issue (issue_envs se idx) version i ;;
      for_issues se version (S idx) rest
  end.

(** One iteration of [while True] (lines 344-476). *)
Definition scan (se : scan_env) : M unit :=
  try_except
    (version <- get_next_version ;;
     emit (Api ListOpenTasks) ;;
     issues <- lift (issues_response se) ;;
     for_issues se version 0 issues ;;
     emit (Sleep 30))
    (fun _ => emit (Sleep 60)).

(** The first iterations of [while True], one environment each. *)
Fixpoint main_loop (ses : list scan_env) : M unit :=
  match ses with
  | [] => ret tt
  | se :: rest => scan se ;; main_loop rest
  end.

End Agent.

(** ** Start of [main] (lines 325-341) *)

Record config := mkConfig {
  API_KEY : option string;
  GITHUB_TOKEN : option string;
  REPO : option string
}.

(** Truth value of [os.environ.get(...)]: [None] and the empty string are
    false. *)
Definition truthy (v : option string) : bool :=
  match v with
  | Some (String _ _) => true
  | _ => false
  end.

(** [main] before the loop: what it prints, and whether it exits. *)
Inductive startup :=
| Exits (code : Z) (printed : list string)
| Monitors (printed : list string).

Definition missing_env_hint : list string :=
  [ "Error: Missing required environment variables";
    "Required: OPENAI_API_KEY, GITHUB_TOKEN, REPO";
    nl +:+ "Create .env file with:";
    "  OPENAI_API_KEY=sk-...";
    "  GITHUB_TOKEN=ghp_...";
    "  REPO=username/repo-name" ].

Definition main_startup (argv : list string) (c : config) : startup :=
  if bool_decide ("--test" ∈ argv) then Exits 0 ["OK"]
  else if negb (forallb truthy [API_KEY c; GITHUB_TOKEN c; REPO c])
  then Exits 1 missing_env_hint
  else Monitors
         [ "🤖 Agent monitoring " +:+ default "" (REPO c)
             +:+ " for 'agent-task' issues...";
           "Press Ctrl+C to stop" +:+ nl ].

(** ** Loading [.env] and the module constants (lines 37-58) *)

Module Env.
Import PyStr.

(** [s.split(sep, maxsplit)] for a non-empty [sep]: at most [maxsplit]
    cuts, made from the left; what is left after the last cut is one
    piece. *)
Fixpoint split_max_go (sep : string) (maxsplit skip : nat) (s : string)
  : list string :=
  match s with
  | "" => [""]
  | String c s' =>
      match skip with
      | S k => split_max_go sep maxsplit k s'
      | O =>
          match maxsplit with
          | O => [s]
          | S m =>
              if startswith s sep
              then "" :: split_max_go sep m (String.length sep - 1) s'
              else match split_max_go sep maxsplit 0 s' with
                   | p :: ps => String c p :: ps
                   | [] => [String c ""]
                   end
          end
      end
  end.

Definition split_max (s sep : string) (maxsplit : nat) : list string :=
  split_max_go sep maxsplit 0 s.

Definition NUL : ascii := "000"%char.

(** [os.environ[key] = value] (CPython on POSIX): a NUL in the name or in
    the value is a [ValueError], so is [=] in the name, and the system
    refuses the empty name with [OSError]; otherwise the variable is set,
    whether or not it was set before. *)
Definition environ_set (key value : string) (environ : gmap string string)
  : result (gmap string string) :=
  if string_mem NUL key || string_mem NUL value
  then Raise (mkExn ValueError "embedded null byte")
  else if string_mem "=" key
  then Raise (mkExn ValueError "illegal environment variable name")
  else if String.eqb key ""
  then Raise (mkExn OSError "[Errno 22] Invalid argument")
  else Ok (<[key := value]> environ).

(** The body of [for line in env_file] (lines 46-49). *)
Definition load_line (line : string) (environ : gmap string string)
  : result (gmap string string) :=
  let line := strip line in
  if negb (String.eqb line "") && negb (startswith line "#")
     && contains line "="
  then
    match split_max line "=" 1 with
    | [key; value] => environ_set key value environ
    | _ :: _ :: _ :: _ =>
        Raise (mkExn ValueError "too many values to unpack (expected 2)")
    | _ =>
        Raise (mkExn ValueError
                 "not enough values to unpack (expected 2, got 1)")
    end
  else Ok environ.

Fixpoint load_lines (lines : list string) (environ : gmap string string)
  : result (gmap string string) :=
  match lines with
  | [] => Ok environ
  | line :: rest =>
      match load_line line environ with
      | Ok environ' => load_lines rest environ'
      | Raise e => Raise e
      end
  end.

(** [load_environment()].  [dotenv] is what iterating over the file
    [.env] yields, one string per line, and [None] when the file does not
    exist; [environ] is [os.environ] before the call.  An exception leaves
    the function at the line that raises it. *)
Definition load_environment (dotenv : option (list string))
    (environ : gmap string string) : result (gmap string string) :=
  match dotenv with
  | Some lines => load_lines lines environ
  | None => Ok environ
  end.

(** The module constants of lines 56-58. *)
Definition module_config (environ : gmap string string) : config :=
  mkConfig (environ !! "OPENAI_API_KEY") (environ !! "GITHUB_TOKEN")
    (environ !! "REPO").

(** Running the file as a script: the module level (lines 53-58), then
    [main()] up to its loop.  An exception at the module level ends the
    program with a traceback, before [main] is entered. *)
Inductive run :=
| Traceback (e : exn)
| Started (s : startup).

Definition run_script (argv : list string) (dotenv : option (list string))
    (environ : gmap string string) : run :=
  match load_environment dotenv environ with
  | Raise e => Traceback e
  | Ok environ' => Started (main_startup argv (module_config environ'))
  end.

(** What lines 43-45 meet when they read [.env]: the file does not
    exist; or [open] raises; or the iteration yields [lines] and then
    ends, or raises [failure] after them (a read error, bytes that are
    not UTF-8). *)
Inductive dotenv_file :=
| Missing
| OpenRaises (e : exn)
| Yields (lines : list string) (failure : option exn).

(** [load_environment()] with the ways the reading itself can fail. *)
Definition load_environment_from (file : dotenv_file)
    (environ : gmap string string) : result (gmap string string) :=
  match file with
  | Missing => Ok environ
  | OpenRaises e => Raise e
  | Yields lines failure =>
      match load_lines lines environ with
      | Ok environ' =>
          match failure with
          | Some e => Raise e
          | None => Ok environ'
          end
      | Raise e => Raise e
      end
  end.

(** The file as [load_environment] sees it when the reading succeeds. *)
Definition read_ok (dotenv : option (list string)) : dotenv_file :=
  match dotenv with
  | Some lines => Yields lines None
  | None => Missing
  end.

Definition run_script_from (argv : list string) (file : dotenv_file)
    (environ : gmap string string) : run :=
  match load_environment_from file environ with
  | Raise e => Traceback e
  | Ok environ' => Started (main_startup argv (module_config environ'))
  end.

(** The assignment a line of [.env] asks for: the stripped line is not
    empty and no comment, and is cut at its first [=]. *)
Definition assignment (line : string) : option (string * string) :=
  let s := strip line in
  if negb (String.eqb s "") && negb (startswith s "#")
  then value ← Extract.after s "="; Some (Extract.before s "=", value)
  else None.

(** The value the last assignment to [key] gives it. *)
Definition last_assigned (lines : list string) (key : string)
  : option string :=
  snd <$> last (List.filter (λ kv, String.eqb kv.1 key)
                  (omap assignment lines)).

(** An assignment that [os.environ] refuses. *)
Definition refused (kv : string * string) : bool :=
  string_mem NUL kv.1 || string_mem NUL kv.2 || String.eqb kv.1 "".

End Env.

(** ** Vocabulary of the properties *)

Section Vocabulary.

Context (current_filename : string).

(** The script an attempt obtains from the generator. *)
Definition generated (a : attempt_env) : result string :=
  match llm a with
  | Ok reply => Extract.extract_script reply
  | Raise e => Raise e
  end.

(** The child process ended with return code 0. *)
Definition exited_zero (r : proc_result) : bool :=
  match r with
  | Completed returncode _ => (returncode =? 0)%Z
  | RunRaised _ => false
  end.

(** The generate/build/validate sequence of an attempt succeeds. *)
Definition cycle_passes (a : attempt_env) : bool :=
  match generated a with
  | Ok _ => exited_zero (bash a) && exited_zero (test a)
  | Raise _ => false
  end.

(** The validator returns false without any exception in the attempt. *)
Definition fails_cleanly (a : attempt_env) : bool :=
  match generated a with
  | Ok _ => exited_zero (bash a) && negb (exited_zero (test a))
  | Raise _ => false
  end.

(** The first publish step that raises, in the order of execution: the
    six git commands, the pull request, the return to main, the success
    comment and the closing of the issue. *)
Definition publish_failure (a : attempt_env) : option exn :=
  foldr (λ f rest, match f with Some e => Some e | None => rest end) None
    [ git_fails a 0; git_fails a 1; git_fails a 2; git_fails a 3;
      git_fails a 4; git_fails a 5; api_fails a SitePull; git_fails a 6;
      api_fails a SiteSuccessComment; api_fails a SiteClose ].

(** No step after the validation raises. *)
Definition publishes (a : attempt_env) : bool :=
  match publish_failure a, execv_fails a with
  | None, None => true
  | _, _ => false
  end.

(** The calls of one generate/build/validate cycle.  A cycle that raises
    stops where it raises. *)
Definition cycle_events (a : attempt_env) (version : N) (task : string)
    (previous : option previous_attempt) : list event :=
  CallModel task previous ::
  match generated a with
  | Raise _ => []
  | Ok script =>
      [ WriteFile (Builder.script_filename version)
          (Builder.script_file_text script version current_filename);
        Chmod (Builder.script_filename version);
        RunBash (Builder.script_filename version) ]
      ++ if exited_zero (bash a)
         then [RunTest (Registry.artifact_name version)] else []
  end.

(** The world once the builder has written and run the script. *)
Definition built (a : attempt_env) (script : string) (version : N)
    (w : world) : world :=
  mkWorld
    (bash_effect a
       (<[Builder.script_filename version :=
            Builder.script_file_text script version current_filename]>
          (files w)))
    (tracker w)
    (trace w ++
       [ WriteFile (Builder.script_filename version)
           (Builder.script_file_text script version current_filename);
         Chmod (Builder.script_filename version);
         RunBash (Builder.script_filename version) ])
    (Some script).

(** What the [try] block does once the validator has answered. *)
Definition after_validation (a : attempt_env) (version issue_number : N)
    (task script : string) (attempt : nat) (passed : bool)
  : M (ctl * option previous_attempt) :=
  if passed then
    create_pull_request a version task ("evolution-v" +:+ PyStr.str version) ;;
    github_api (api_fails a SiteSuccessComment)
      (PostComment issue_number (success_comment version attempt)) ;;
    github_api (api_fails a SiteClose) (CloseIssue issue_number) ;;
    os_execv a (Registry.artifact_name version)
  else
    if (attempt =? max_retries)%nat then
      github_api (api_fails a SiteGiveUpComment)
        (PostComment issue_number giveup_comment) ;;
      github_api (api_fails a SiteGiveUpLabel)
        (AddLabels issue_number ["agent-failed"]) ;;
      ret (Break, Some (mkPrev script test_failed_error))
    else ret (Continue, Some (mkPrev script test_failed_error)).

(** The calls of a successful publication at attempt [attempt]. *)
Definition publish_events (version issue_number : N) (task : string)
    (attempt : nat) : list event :=
  let branch_name := "evolution-v" +:+ PyStr.str version in
  [ Git ["checkout"; "main"]; Git ["pull"];
    Git ["checkout"; "-b"; branch_name]; Git ["add"; "."];
    Git ["commit"; "-m"; "v" +:+ PyStr.str version +:+ ": " +:+ task];
    Git ["push"; "origin"; branch_name];
    Api (CreatePull (pr_title version task) (pr_body version task)
           branch_name "main");
    Git ["checkout"; "main"];
    Api (PostComment issue_number (success_comment version attempt));
    Api (CloseIssue issue_number);
    Execv (Registry.artifact_name version) ].

(** A trace segment is one cycle: a model call followed by nothing, by
    the build, or by the build and the validation. *)
Definition is_cycle (evs : list event) : bool :=
  match evs with
  | [CallModel _ _] => true
  | [CallModel _ _; WriteFile _ _; Chmod _; RunBash _] => true
  | [CallModel _ _; WriteFile _ _; Chmod _; RunBash _; RunTest _] => true
  | _ => false
  end.

Definition is_call_model (e : event) : bool :=
  match e with CallModel _ _ => true | _ => false end.

(** How many attempts a trace begins. *)
Definition attempts_begun (evs : list event) : nat :=
  length (List.filter is_call_model evs).

(** The two comments of the give-up path. *)
Definition is_giveup_comment (c : string) : Prop :=
  c = giveup_comment ∨ ∃ e, c = handler_comment e.

(** The names an event of version [version] must use. *)
Definition uses_version (version : N) (e : event) : Prop :=
  match e with
  | WriteFile name _ | Chmod name | RunBash name =>
      name = Builder.script_filename version
  | RunTest path | Execv path => path = Registry.artifact_name version
  | _ => True
  end.

(** The labels of issue [n], when the tracker knows it. *)
Definition labels_of (n : N) (w : world) : option (gset string) :=
  st_labels <$> tracker w !! n.

Definition is_open (n : N) (w : world) : option bool :=
  st_open <$> tracker w !! n.

(** From [w] to [w'] only calls were added to the trace, and the labels
    of issue [n] changed at most by a recorded addition of
    ["agent-failed"]. *)
Definition labels_step (n : N) (w w' : world) : Prop :=
  ∃ evs, trace w' = trace w ++ evs
    ∧ ∀ ls', labels_of n w' = Some ls' →
        ∃ ls, labels_of n w = Some ls
          ∧ ls' ⊆ ls ∪ {["agent-failed"]}
          ∧ ("agent-failed" ∈ ls' →
             "agent-failed" ∈ ls
             ∨ Api (AddLabels n ["agent-failed"]) ∈ evs).

(** From [w] to [w'] only calls that use [version] were added. *)
Definition version_step (version : N) (w w' : world) : Prop :=
  ∃ evs, trace w' = trace w ++ evs ∧ Forall (uses_version version) evs.

(** From [w] to [w'] exactly the calls [evs] were made and the tracker
    was not changed. *)
Definition extends_by (evs : list event) (w w' : world) : Prop :=
  trace w' = trace w ++ evs ∧ tracker w' = tracker w.

(** The requests the attempts of issue [n] send. *)
Definition loop_request (n : N) (req : gh_request) : Prop :=
  match req with
  | CreatePull _ _ _ _ => True
  | PostComment m _ | CloseIssue m => m = n
  | AddLabels m ls => m = n ∧ ls = ["agent-failed"]
  | _ => False
  end.

(** Whatever the start, [m] moves the world along [R]. *)
Definition preserves {A} (R : world → world → Prop) (m : M A) : Prop :=
  ∀ w, R w (m w).2.

End Vocabulary.

(** ** Vocabulary of the properties of the scan *)

Definition is_sleep (e : event) : bool :=
  match e with Sleep _ => true | _ => false end.

(** How many events of a trace satisfy [f]. *)
Definition count (f : event → bool) (evs : list event) : nat :=
  length (List.filter f evs).

(** Whatever the start, [m] only adds calls to the trace, at most [k] of
    them of the kind [f]. *)
Definition count_le {A} (f : event → bool) (k : nat) (m : M A) : Prop :=
  ∀ w, ∃ evs, trace (m w).2 = trace w ++ evs ∧ count f evs ≤ k.

(** The issue a request addresses. *)
Definition request_issue (req : gh_request) : option N :=
  match req with
  | DeleteLabel n _ | PostComment n _ | AddLabels n _ | CloseIssue n => Some n
  | ListOpenTasks | CreatePull _ _ _ _ => None
  end.

(** The requests the loop sends for the task of issue [n]: it deletes
    the labels [agent-failed] and [agent-retry], posts comments, adds the
    label [agent-failed], closes the issue and opens a pull request. *)
Definition task_request (n : N) (req : gh_request) : bool :=
  match req with
  | ListOpenTasks => false
  | DeleteLabel m l =>
      (m =? n)%N && (String.eqb l "agent-failed" || String.eqb l "agent-retry")
  | PostComment m _ | CloseIssue m => (m =? n)%N
  | AddLabels m ls => (m =? n)%N && bool_decide (ls = ["agent-failed"])
  | CreatePull _ _ _ _ => true
  end.

(** A request that is neither the listing, nor a pull request, nor a
    request of the task of one of [issues]. *)
Definition strays (issues : list issue) (e : event) : bool :=
  match e with
  | Api ListOpenTasks | Api (CreatePull _ _ _ _) => false
  | Api req => negb (existsb (λ i, task_request (number i) req) issues)
  | _ => false
  end.

(** [f] counts no request of the task of issue [n]. *)
Definition quiet (f : event → bool) (n : N) : Prop :=
  ∀ req, task_request n req = true → f (Api req) = false.

(** The calls of [create_pull_request] when every step returns. *)
Definition pull_request_events (version : N) (task branch_name : string)
  : list event :=
  [ Git ["checkout"; "main"]; Git ["pull"];
    Git ["checkout"; "-b"; branch_name]; Git ["add"; "."];
    Git ["commit"; "-m"; "v" +:+ PyStr.str version +:+ ": " +:+ task];
    Git ["push"; "origin"; branch_name];
    Api (CreatePull (pr_title version task) (pr_body version task)
           branch_name "main");
    Git ["checkout"; "main"] ].


(** The calls of the builder for [script]: the script file is written,
    made executable and run. *)
Definition build_events (current_filename script : string) (version : N)
  : list event :=
  [ WriteFile (Builder.script_filename version)
      (Builder.script_file_text script version current_filename);
    Chmod (Builder.script_filename version);
    RunBash (Builder.script_filename version) ].

(** What makes [v] the next version of a listing: it is above every
    version a name of the listing carries, it is 1 when no name carries
    one, and it is one more than a version that a name carries
    otherwise. *)
Definition is_next_version (listing : list string) (v : N) : Prop :=
  (∀ f n, f ∈ listing → Registry.embedded_version f = Some n → (n < v)%N)
  ∧ ((∀ f, f ∈ listing → Registry.embedded_version f = None) → v = 1%N)
  ∧ ((∃ f, f ∈ listing ∧ is_Some (Registry.embedded_version f)) →
     ∃ f, f ∈ listing ∧ Registry.embedded_version f = Some (v - 1)%N
          ∧ (0 < v)%N).

(** ** Sample environments *)

Module Sample.

Definition reply : string :=
  "Here is the script:" +:+ nl +:+ "```bash" +:+ nl +:+
  "cp CURRENT_AGENT agent_vN.py" +:+ nl +:+ "```" +:+ nl.

(** An attempt in which every step succeeds. *)
Definition attempt_ok : attempt_env :=
  mkAttemptEnv (Ok reply) (Completed 0 "")
    (λ f, <["agent_v1.py" := "code"]> f) (Completed 0 "")
    (λ _, None) (λ _, None) None.

(** The artifact is built but exits with code 1 under [--test]. *)
Definition attempt_test_fails : attempt_env :=
  mkAttemptEnv (Ok reply) (Completed 0 "")
    (λ f, <["agent_v1.py" := "code"]> f) (Completed 1 "")
    (λ _, None) (λ _, None) None.

(** Everything passes, then [git push] raises. *)
Definition attempt_push_fails : attempt_env :=
  mkAttemptEnv (Ok reply) (Completed 0 "")
    (λ f, <["agent_v1.py" := "code"]> f) (Completed 0 "")
    (λ k, if (k =? 5)%nat
          then Some (mkExn CalledProcessError "git push failed") else None)
    (λ _, None) None.

Definition second_passes : issue_env :=
  mkIssueEnv None None
    (λ attempt, if (attempt =? 1)%nat then attempt_test_fails else attempt_ok).

Definition push_always_fails : issue_env :=
  mkIssueEnv None None (λ _, attempt_push_fails).

Definition test_always_fails : issue_env :=
  mkIssueEnv None None (λ _, attempt_test_fails).

Definition start : world :=
  mkWorld {["agent.py" := "source"]}
    {[42%N := mkIssueState {["agent-task"]} true []]} [] None.

Definition task42 : issue := mkIssue 42 "Add logging" ["agent-task"].

Definition scan_push_fails : scan_env :=
  mkScanEnv (Ok [task42]) (λ _, push_always_fails).

Definition scan_test_fails : scan_env :=
  mkScanEnv (Ok [task42]) (λ _, test_always_fails).

(** The evolution script exits with code 2. *)
Definition attempt_build_fails : attempt_env :=
  mkAttemptEnv (Ok reply) (Completed 2 "cp: cannot stat")
    (λ f, f) (Completed 0 "") (λ _, None) (λ _, None) None.

(** The call of the model raises. *)
Definition attempt_generation_fails : attempt_env :=
  mkAttemptEnv (Raise (mkExn PlainException "rate limit reached"))
    (Completed 0 "") (λ f, f) (Completed 0 "") (λ _, None) (λ _, None) None.

Definition build_always_fails : issue_env :=
  mkIssueEnv None None (λ _, attempt_build_fails).

Definition generation_always_fails : issue_env :=
  mkIssueEnv None None (λ _, attempt_generation_fails).

(** The first artifact fails its test, then the model cannot be reached. *)
Definition second_generation_fails : issue_env :=
  mkIssueEnv None None
    (λ attempt, if (attempt =? 1)%nat then attempt_test_fails
                else attempt_generation_fails).

Definition scan_ok : scan_env :=
  mkScanEnv (Ok [task42]) (λ _, mkIssueEnv None None (λ _, attempt_ok)).

(** The test fails, and the request that adds the failure label
    raises. *)
Definition attempt_label_fails : attempt_env :=
  mkAttemptEnv (Ok reply) (Completed 0 "")
    (λ f, <["agent_v1.py" := "code"]> f) (Completed 1 "")
    (λ _, None)
    (λ site, match site with
             | SiteGiveUpLabel =>
                 Some (mkExn RequestException "connection reset")
             | _ => None
             end)
    None.

Definition label_always_fails : issue_env :=
  mkIssueEnv None None (λ _, attempt_label_fails).

(** Everything succeeds, then [os.execv] raises. *)
Definition attempt_execv_fails : attempt_env :=
  mkAttemptEnv (Ok reply) (Completed 0 "")
    (λ f, <["agent_v1.py" := "code"]> f) (Completed 0 "")
    (λ _, None) (λ _, None)
    (Some (mkExn OSError "[Errno 2] No such file or directory")).

Definition execv_always_fails : issue_env :=
  mkIssueEnv None None (λ _, attempt_execv_fails).

End Sample.

(** * Sanity checks of the model *)

Example startswith_ex : PyStr.startswith "agent_v12.py" "agent_v" = true.
Proof. reflexivity. Qed.

Example endswith_ex : PyStr.endswith "agent_v12.py" ".py" = true.
Proof. reflexivity. Qed.

Example replace_ex :
  PyStr.replace "cp vN vvN xvNvN" "vN" "v3" = "cp v3 vv3 xv3v3".
Proof. reflexivity. Qed.

Example split_ex : PyStr.split "a--b----c-" "--" = ["a"; "b"; ""; "c-"].
Proof. reflexivity. Qed.

Example strip_ex : PyStr.strip (String "010" " a b  ") = "a b".
Proof. reflexivity. Qed.

Example str_ex : PyStr.str 1203 = "1203".
Proof. reflexivity. Qed.

Example int_ex : PyStr.int "007" = Some 7%N.
Proof. reflexivity. Qed.

Example get_next_version_ex :
  Registry.get_next_version
    ["agent.py"; "agent_v1.py"; "agent_v12.py"; "agent_v3.py"; "agent_vx.py";
     "evolve_v40.sh"] = Ok 13%N.
Proof. reflexivity. Qed.

Example get_next_version_none_ex :
  Registry.get_next_version ["agent.py"; "agent_vx.py"] = Ok 1%N.
Proof. reflexivity. Qed.

Example extract_ex :
  Extract.extract_script Sample.reply = Ok "cp CURRENT_AGENT agent_vN.py".
Proof. reflexivity. Qed.

Example substitute_ex :
  Builder.substitute "cp CURRENT_AGENT agent_vN.py; echo vN > evolve_vN.txt"
    12 "agent.py"
  = "cp agent.py agent_v12.py; echo v12 > evolve_v12.txt".
Proof. reflexivity. Qed.

(** The end-to-end scenario: task 42, no artifact yet, everything
    succeeds at once. *)
Example scan_success_ex :
  (scan "agent.py" (mkScanEnv (Ok [Sample.task42])
                      (λ _, mkIssueEnv None None (λ _, Sample.attempt_ok)))
     Sample.start).1
  = Replaced "agent_v1.py".
Proof. reflexivity. Qed.

(** The end-to-end failure scenario: three model calls, three builds,
    three validations, one give-up comment, one label, the 30-second
    sleep. *)
Example scan_failure_ex :
  let tr := trace (scan "agent.py" Sample.scan_test_fails Sample.start).2 in
  attempts_begun tr = 3
  ∧ length (List.filter (λ e, match e with RunBash _ => true | _ => false end)
              tr) = 3
  ∧ length (List.filter (λ e, match e with RunTest _ => true | _ => false end)
              tr) = 3
  ∧ length (List.filter (λ e, match e with Git _ => true | _ => false end)
              tr) = 0
  ∧ last tr = Some (Sleep 30).
Proof. by vm_compute. Qed.


(** * Facts about the string primitives *)

Section StringFacts.
Import PyStr.

Lemma append_nil_r (s : string) : s +:+ "" = s.
Proof. induction s; simpl; congruence. Qed.

Lemma append_assoc (a b c : string) : (a +:+ b) +:+ c = a +:+ (b +:+ c).
Proof. induction a; simpl; congruence. Qed.

Lemma length_append (a b : string) :
  String.length (a +:+ b) = String.length a + String.length b.
Proof. induction a; simpl; congruence. Qed.

Lemma startswith_nil (s : string) : startswith s "" = true.
Proof. by destruct s. Qed.

Lemma startswith_cons (c d : ascii) (s p : string) :
  startswith (String c s) (String d p) = Ascii.eqb d c && startswith s p.
Proof. simpl. by destruct (Ascii.eqb d c). Qed.

Lemma startswith_spec (s p : string) :
  startswith s p = true ↔ ∃ r, s = p +:+ r.
Proof.
  revert s; induction p as [|d p IH]; intros s.
  - rewrite startswith_nil. split; [eauto | done].
  - destruct s as [|c s].
    + simpl. split; [done | intros [r Hr]; discriminate].
    + rewrite startswith_cons, andb_true_iff, Ascii.eqb_eq, IH.
      split.
      * intros [-> [r ->]]. by exists r.
      * intros [r Hr]. simpl in Hr. injection Hr as -> ->. eauto.
Qed.

Lemma startswith_app (p r : string) : startswith (p +:+ r) p = true.
Proof. apply startswith_spec. eauto. Qed.

Lemma startswith_app_l (s p r : string) :
  startswith s p = true → startswith (s +:+ r) p = true.
Proof.
  rewrite !startswith_spec. intros [x ->]. exists (x +:+ r).
  by rewrite append_assoc.
Qed.

Lemma drop_app (p r : string) : drop (String.length p) (p +:+ r) = r.
Proof. induction p; simpl; congruence. Qed.

(** Every string splits at every position. *)
Lemma drop_split (s : string) (n : nat) :
  n ≤ String.length s →
  ∃ p, s = p +:+ drop n s ∧ String.length p = n.
Proof.
  revert s; induction n as [|n IH]; intros s Hn.
  - by exists "".
  - destruct s as [|c s]; simpl in *; [lia|].
    destruct (IH s) as (p & Hp & Hl); [lia|].
    exists (String c p). simpl. split; congruence.
Qed.

Lemma endswith_spec (s p : string) :
  endswith s p = true ↔ ∃ r, s = r +:+ p.
Proof.
  unfold endswith. rewrite andb_true_iff, Nat.leb_le, String.eqb_eq. split.
  - intros [Hl Hd].
    destruct (drop_split s (String.length s - String.length p)) as (r & Hr & _);
      [lia|].
    exists r. congruence.
  - intros [r ->]. rewrite length_append. split; [lia|].
    replace (String.length r + String.length p - String.length p)
      with (String.length r) by lia.
    apply drop_app.
Qed.

Lemma contains_spec (s p : string) :
  contains s p = true ↔ ∃ a b, s = a +:+ p +:+ b.
Proof.
  induction s as [|c s IH].
  - cbn [contains]. rewrite orb_false_r, startswith_spec. split.
    + intros [r Hr]. by exists "", r.
    + intros (a & b & H). destruct a; [by exists b|discriminate].
  - cbn [contains]. rewrite orb_true_iff, IH, startswith_spec. split.
    + intros [[r Hr] | (a & b & ->)].
      * by exists "", r.
      * by exists (String c a), b.
    + intros (a & b & H). destruct a as [|d a].
      * left. by exists b.
      * right. simpl in H. injection H as -> ->. eauto.
Qed.

Lemma contains_cons_false (c : ascii) (s p : string) :
  contains (String c s) p = false → contains s p = false.
Proof. cbn [contains]. by intros [_ ?]%orb_false_iff. Qed.

Lemma contains_app_false_r (a b p : string) :
  contains (a +:+ b) p = false → contains b p = false.
Proof.
  induction a as [|c a IH]; [done|]. simpl String.append.
  intros H%contains_cons_false. auto.
Qed.

Lemma contains_app_false_l (a b p : string) :
  contains (a +:+ b) p = false → contains a p = false.
Proof.
  intros H. destruct (contains a p) eqn:E; [|done].
  apply contains_spec in E as (x & y & ->).
  assert (contains ((x +:+ p +:+ y) +:+ b) p = true) as E'; [|congruence].
  apply contains_spec. exists x, (y +:+ b). by rewrite !append_assoc.
Qed.

(** *** [replace] *)

Lemma replace_go_skip (old new x r : string) :
  replace_go old new (String.length x) (x +:+ r) = replace_go old new 0 r.
Proof. induction x; simpl; auto. Qed.

Lemma replace_nil (old new : string) : replace "" old new = "".
Proof. done. Qed.

Lemma replace_match (old new r : string) :
  old ≠ "" → replace (old +:+ r) old new = new +:+ replace r old new.
Proof.
  intros Hne. unfold replace. destruct old as [|c old]; [done|].
  change (String c old +:+ r) with (String c (old +:+ r)).
  cbn [replace_go]. 
  change (String c (old +:+ r)) with (String c old +:+ r).
  rewrite startswith_app. f_equal.
  replace (String.length (String c old) - 1) with (String.length old)
    by (simpl; lia).
  apply replace_go_skip.
Qed.

Lemma replace_pass (old new : string) (c : ascii) (r : string) :
  startswith (String c r) old = false →
  replace (String c r) old new = String c (replace r old new).
Proof. intros H. unfold replace. cbn [replace_go]. by rewrite H. Qed.

(** Induction along the scan of [replace]. *)
Lemma replace_ind (old : string) (P : string → Prop) :
  old ≠ "" →
  P "" →
  (∀ r, P r → P (old +:+ r)) →
  (∀ c r, startswith (String c r) old = false → P r → P (String c r)) →
  ∀ s, P s.
Proof.
  intros Hne H0 Hm Hp s.
  remember (String.length s) as n eqn:Hn.
  revert s Hn. induction (lt_wf n) as [n _ IH]. intros s ->.
  destruct s as [|c r]; [done|].
  destruct (startswith (String c r) old) eqn:E.
  - apply startswith_spec in E as [r' E]. rewrite E. apply Hm.
    eapply IH; [|done]. rewrite E, length_append.
    destruct old; [done|simpl; lia].
  - apply Hp; [done|]. eapply IH; [|done]. simpl; lia.
Qed.

Lemma replace_absent (s old new : string) :
  old ≠ "" → contains s old = false → replace s old new = s.
Proof.
  intros Hne. induction s as [|c s IH]; [done|].
  cbn [contains]. intros [H1 H2]%orb_false_iff.
  rewrite replace_pass by done. by rewrite IH.
Qed.

End StringFacts.


Section ReplaceFacts.
Import PyStr.

Lemma app_eq_app (a b c d : string) :
  a +:+ b = c +:+ d →
  (∃ t, a = c +:+ t ∧ d = t +:+ b) ∨ (∃ t, c = a +:+ t ∧ b = t +:+ d).
Proof.
  revert c; induction a as [|x a IH]; intros c H.
  - right. exists c. by simpl in *.
  - destruct c as [|y c].
    + left. exists (String x a). by simpl in *.
    + simpl in H. injection H as -> H.
      destruct (IH _ H) as [(t & -> & ->) | (t & -> & ->)]; [left | right];
        by exists t.
Qed.

Lemma string_mem_app (c : ascii) (a b : string) :
  string_mem c (a +:+ String c b) = true.
Proof.
  unfold string_mem. apply negb_true_iff.
  induction a as [|d a IH]; simpl.
  - by rewrite Ascii.eqb_refl.
  - by rewrite IH, andb_false_r.
Qed.

Lemma string_mem_head_false (c d : ascii) (s : string) :
  string_mem c (String d s) = false → d ≠ c ∧ string_mem c s = false.
Proof.
  unfold string_mem. rewrite !negb_false_iff. simpl.
  intros [H1 H2]%andb_true_iff. split; [|done].
  apply negb_true_iff in H1. by apply Ascii.eqb_neq.
Qed.


Lemma no_straddle_head (old x : string) (c : ascii) (y : string) :
  string_mem c (drop 1 old) = false → no_straddle old x (String c y).
Proof.
  intros Hc p q _ Hq [r Hr]%startswith_spec. apply startswith_spec.
  apply app_eq_app in Hr as [(t & -> & _) | (t & -> & Ht)]; [eauto|].
  destruct t as [|d t]; [exists ""; by rewrite !append_nil_r|].
  simpl in Ht. injection Ht as <- _.
  destruct q as [|e q]; [done|].
  simpl in Hc. by rewrite string_mem_app in Hc.
Qed.

Lemma no_straddle_tail (old : string) (c : ascii) (x y : string) :
  no_straddle old (String c x) y → no_straddle old x y.
Proof. intros H p q -> ?. by apply (H (String c p) q). Qed.

Lemma no_straddle_drop (old a x y : string) :
  no_straddle old (a +:+ x) y → no_straddle old x y.
Proof. induction a; simpl; eauto using no_straddle_tail. Qed.

Lemma replace_app (old new x y : string) :
  old ≠ "" → no_straddle old x y →
  replace (x +:+ y) old new = replace x old new +:+ replace y old new.
Proof.
  intros Hne. revert x.
  refine (replace_ind old (fun x => no_straddle old x y → _) Hne _ _ _).
  - intros _. by rewrite replace_nil.
  - intros r IH H. rewrite append_assoc, !replace_match, append_assoc by done.
    f_equal. apply IH. by eapply no_straddle_drop.
  - intros c r Hc IH H.
    assert (startswith (String c r +:+ y) old = false) as Hc'.
    { destruct (startswith (String c r +:+ y) old) eqn:E; [|done].
      rewrite (H "" (String c r)) in Hc; done. }
    simpl String.append in *. rewrite !replace_pass by done.
    simpl. f_equal. apply IH. by eapply no_straddle_tail.
Qed.

(** Characters that cannot start a match are copied. *)
Lemma replace_copy (h : ascii) (old' new x y : string) :
  string_mem h x = false →
  replace (x +:+ y) (String h old') new = x +:+ replace y (String h old') new.
Proof.
  induction x as [|c x IH]; [done|].
  intros [Hc Hx]%string_mem_head_false. simpl String.append.
  rewrite replace_pass.
  - by rewrite IH.
  - rewrite <- Ascii.eqb_neq in Hc. cbn [startswith].
    by rewrite Ascii.eqb_sym, Hc.
Qed.

(** What [replace] leaves behind.  [Ha]: no match starts inside a copy of
    [new]; [Hb]: a proper suffix of [old] never starts a copy of [new]. *)
Lemma replace_removes_aux (old new : string) :
  old ≠ "" →
  (∀ p q y, new = p +:+ q → q ≠ "" → startswith (q +:+ y) old = false) →
  (∀ p u y, old = p +:+ u → p ≠ "" → u ≠ "" →
            startswith (new +:+ y) u = false) →
  ∀ s, contains (replace s old new) old = false
       ∧ ∀ p u, old = p +:+ u → p ≠ "" → u ≠ "" →
                startswith (replace s old new) u = true →
                startswith s u = true.
Proof.
  intros Hne Ha Hb. apply (replace_ind old); [done|..].
  - split.
    + rewrite replace_nil. destruct old; done.
    + intros p u _ _ Hu. rewrite replace_nil. by destruct u.
  - intros r [IH1 IH2]. rewrite replace_match by done. split.
    + assert (∀ p q, new = p +:+ q →
                contains (q +:+ replace r old new) old = false) as Hq.
      { intros p q. revert p. induction q as [|c q IHq]; intros p Hpq.
        - done.
        - simpl String.append. cbn [contains].
          change (String c (q +:+ replace r old new))
            with (String c q +:+ replace r old new).
          rewrite (Ha p (String c q)) by done. simpl.
          apply (IHq (p +:+ String c "")). rewrite append_assoc. by simpl. }
      by apply (Hq "").
    + intros p u Hpu Hp Hu. by rewrite (Hb p u).
  - intros c r Hc [IH1 IH2]. rewrite replace_pass by done. split.
    + cbn [contains]. rewrite IH1, orb_false_r.
      destruct old as [|h old']; [done|].
      destruct (startswith (String c (replace r (String h old') new))
                  (String h old')) eqn:E; [|done].
      rewrite startswith_cons in E. apply andb_true_iff in E as [E1 E2].
      rewrite startswith_cons, E1 in Hc. simpl in Hc.
      destruct old' as [|h' old''].
      * by rewrite startswith_nil in Hc.
      * rewrite (IH2 (String h "") (String h' old'')) in Hc; done.
    + intros p u Hpu Hp Hu. destruct u as [|d u]; [done|].
      rewrite !startswith_cons.
      intros [->%Ascii.eqb_eq E2]%andb_true_iff.
      rewrite Ascii.eqb_refl. simpl.
      destruct u as [|d' u]; [apply startswith_nil|].
      apply (IH2 (p +:+ String c "") (String d' u)); try done.
      * rewrite Hpu, append_assoc. by simpl.
      * by destruct p.
Qed.

End ReplaceFacts.


Section SubstituteFacts.
Import PyStr Builder.

Lemma string_forall_app (f : ascii → bool) (a b : string) :
  string_forall f (a +:+ b) = string_forall f a && string_forall f b.
Proof. induction a; simpl; [done|]. by rewrite IHa, andb_assoc. Qed.

Lemma string_mem_app_false (c : ascii) (a b : string) :
  string_mem c (a +:+ b) = false ↔
  string_mem c a = false ∧ string_mem c b = false.
Proof.
  unfold string_mem. rewrite !negb_false_iff, string_forall_app.
  apply andb_true_iff.
Qed.

Lemma string_of_uint_digits (d : Decimal.uint) :
  string_forall isdigit (NilEmpty.string_of_uint d) = true.
Proof. induction d; simpl; auto. Qed.

(** [str(n)] is a non-empty string of digits. *)
Lemma str_shape (n : N) :
  ∃ d ds, str n = String d ds ∧ string_forall isdigit (String d ds) = true.
Proof.
  unfold str. pose proof (string_of_uint_digits (N.to_uint n)) as H.
  destruct (NilEmpty.string_of_uint (N.to_uint n)) as [|d ds] eqn:E; [|eauto].
  exfalso. destruct n as [|p]; [discriminate|].
  simpl in E. destruct (Pos.to_uint p) eqn:Ep; try discriminate.
  by apply Unsigned.to_uint_nonnil in Ep.
Qed.

Lemma digits_not_mem (c : ascii) (s : string) :
  isdigit c = false → string_forall isdigit s = true → string_mem c s = false.
Proof.
  intros Hc. unfold string_mem. rewrite negb_false_iff.
  induction s as [|d s IH]; [done|]. simpl.
  intros [Hd Hs]%andb_true_iff. rewrite IH by done.
  rewrite andb_true_r. apply negb_true_iff, Ascii.eqb_neq. congruence.
Qed.

Lemma startswith_head_ne (c h : ascii) (s old' : string) :
  c ≠ h → startswith (String c s) (String h old') = false.
Proof.
  intros H. rewrite startswith_cons.
  apply Ascii.eqb_neq in H. by rewrite Ascii.eqb_sym, H.
Qed.

(** A proper suffix of [old] does not begin with a character that is
    missing from [old]'s tail. *)
Lemma no_suffix_start (old : string) (h : ascii) (new' : string) :
  string_mem h (drop 1 old) = false →
  ∀ p u y, old = p +:+ u → p ≠ "" → u ≠ "" →
           startswith (String h new' +:+ y) u = false.
Proof.
  intros Hm p u y -> Hp Hu.
  destruct p as [|e p]; [done|]. destruct u as [|d u]; [done|].
  simpl in Hm. apply string_mem_app_false in Hm as [_ Hm].
  apply string_mem_head_false in Hm as [Hd _].
  cbn [String.append]. by apply startswith_head_ne.
Qed.


Lemma next_v_no_start (n : N) (p q y : string) :
  next_v n = p +:+ q → q ≠ "" → startswith (q +:+ y) "vN" = false.
Proof.
  unfold next_v. destruct (str_shape n) as (d & ds & -> & Hd).
  intros H Hq. destruct p as [|e p].
  - simpl in H. subst q. simpl in Hd. apply andb_true_iff in Hd as [Hd _].
    change (String "v" (String d ds) +:+ y)
      with (String "v" (String d (ds +:+ y))).
    rewrite startswith_cons, startswith_head_ne, andb_false_r; [done|].
    intros ->. done.
  - simpl in H. injection H as <- H. rewrite H in Hd.
    rewrite string_forall_app in Hd. apply andb_true_iff in Hd as [_ Hq'].
    destruct q as [|c q]; [done|]. simpl in Hq'.
    apply andb_true_iff in Hq' as [Hc _].
    cbn [String.append]. apply startswith_head_ne. intros ->. done.
Qed.

(** After the second replacement no [vN] is left, whatever the script. *)
Lemma replace_vN_removes (s : string) (n : N) :
  contains (replace s "vN" (next_v n)) "vN" = false.
Proof.
  apply replace_removes_aux; [done|..].
  - intros p q y. apply next_v_no_start.
  - apply (no_suffix_start "vN" "v" (str n)). done.
Qed.

Lemma contains_app_cases (a b p : string) :
  contains (a +:+ b) p = true →
  contains b p = true ∨
  ∃ x q, a = x +:+ q ∧ q ≠ "" ∧ startswith (q +:+ b) p = true.
Proof.
  induction a as [|c a IH]; [by left|].
  simpl String.append. cbn [contains]. intros [H|H]%orb_true_iff.
  - right. by exists "", (String c a).
  - destruct (IH H) as [?|(x & q & -> & ? & ?)]; [by left|].
    right. by exists (String c x), q.
Qed.

Lemma contains_artifact_vN (s : string) :
  contains s "agent_vN.py" = true → contains s "vN" = true.
Proof.
  rewrite !contains_spec. intros (a & b & ->).
  exists (a +:+ "agent_"), (".py" +:+ b). by rewrite !append_assoc.
Qed.

End SubstituteFacts.


Section SubstituteInPlace.
Import PyStr Builder.

Lemma artifact_name_eq (n : N) :
  Registry.artifact_name n = "agent_" +:+ next_v n +:+ ".py".
Proof. done. Qed.

Lemma not_in_str (c : ascii) (n : N) :
  isdigit c = false → string_mem c (str n) = false.
Proof.
  intros Hc. destruct (str_shape n) as (d & ds & -> & Hd).
  by apply digits_not_mem.
Qed.

Lemma not_in_artifact_name (c : ascii) (n : N) :
  isdigit c = false → string_mem c "agent_v.py" = false →
  string_mem c (Registry.artifact_name n) = false.
Proof.
  intros Hc Hm. unfold Registry.artifact_name.
  apply string_mem_app_false. split.
  - apply (string_mem_app_false c "agent_v" ".py") in Hm. tauto.
  - apply string_mem_app_false. split; [by apply not_in_str|].
    apply (string_mem_app_false c "agent_v" ".py") in Hm. tauto.
Qed.

Lemma drop_add_append (a b : string) (k : nat) :
  drop (String.length a + k) (a +:+ b) = drop k b.
Proof. induction a; simpl; congruence. Qed.

(** [endswith] looks at the last part only. *)
Lemma endswith_append (a b p : string) :
  String.length p ≤ String.length b →
  endswith (a +:+ b) p = endswith b p.
Proof.
  intros Hl. unfold endswith. rewrite length_append.
  replace (String.length a + String.length b - String.length p)
    with (String.length a + (String.length b - String.length p)) by lia.
  rewrite drop_add_append.
  f_equal. rewrite !(proj2 (Nat.leb_le _ _)); [done|lia|lia].
Qed.

Lemma contains_mem (c : ascii) (s a b : string) :
  string_mem c s = false → contains s (a +:+ String c b) = false.
Proof.
  intros Hs. apply not_true_is_false. intros (x & y & ->)%contains_spec.
  rewrite <- append_assoc in Hs.
  apply string_mem_app_false in Hs as [Hs _].
  apply string_mem_app_false in Hs as [_ Hs].
  by rewrite string_mem_app in Hs.
Qed.

(** The names the program gives its artifacts pass the test by
    characters. *)
Lemma artifact_name_safe (n : N) :
  safe_filename (Registry.artifact_name n) = true.
Proof.
  unfold safe_filename.
  rewrite (not_in_artifact_name "C" n) by done.
  rewrite (contains_mem "N" _ "v" "") by (by apply not_in_artifact_name).
  unfold Registry.artifact_name at 2.
  rewrite <- append_assoc, endswith_append by (simpl; lia).
  by unfold Registry.artifact_name.
Qed.

(** The second replacement copies a finished artifact name. *)
Lemma replace_vN_copies_artifact (n : N) (y : string) :
  replace (Registry.artifact_name n +:+ y) "vN" (next_v n)
  = Registry.artifact_name n +:+ replace y "vN" (next_v n).
Proof.
  rewrite artifact_name_eq, !append_assoc.
  rewrite (replace_copy "v" "N" _ "agent_") by done. f_equal.
  unfold next_v at 1 3. destruct (str_shape n) as (d & ds & E & Hd).
  rewrite E, !append_assoc. cbn [String.append].
  rewrite replace_pass.
  - f_equal.
    change (ds +:+ String "." (String "p" (String "y" y)))
      with (ds +:+ ".py" +:+ y).
    rewrite <- append_assoc.
    change (String d ((ds +:+ ".py") +:+ y))
      with (String d (ds +:+ ".py") +:+ y).
    rewrite (replace_copy "v" "N" _ (String d (ds +:+ ".py"))).
    + cbn [String.append]. by rewrite append_assoc.
    + apply (string_mem_app_false "v" (String d ds) ".py"). split; [|done].
      by apply digits_not_mem.
  - rewrite startswith_cons, startswith_head_ne, andb_false_r; [done|].
    intros ->. simpl in Hd. done.
Qed.

Lemma replace_artifact_head (s : string) (n : N) (c : ascii) :
  startswith (replace s "agent_vN.py" (Registry.artifact_name n)) (String c "")
  = startswith s (String c "").
Proof.
  destruct s as [|e s]; [done|].
  destruct (startswith (String e s) "agent_vN.py") eqn:E.
  - apply startswith_spec in E as [r ->]. rewrite replace_match by done.
    unfold Registry.artifact_name. cbn [String.append].
    by rewrite !startswith_cons, !startswith_nil.
  - rewrite replace_pass by done.
    by rewrite !startswith_cons, !startswith_nil.
Qed.

(** The first replacement is absorbed by the second. *)
Lemma replace_artifact_absorbed (s : string) (n : N) :
  replace (replace s "agent_vN.py" (Registry.artifact_name n)) "vN" (next_v n)
  = replace s "vN" (next_v n).
Proof.
  revert s. apply (replace_ind "agent_vN.py"); [done|done|..].
  - intros r IH. rewrite replace_match by done.
    rewrite replace_vN_copies_artifact, IH.
    change ("agent_vN.py" +:+ r) with ("agent_" +:+ "vN" +:+ ".py" +:+ r).
    rewrite (replace_copy "v" "N" _ "agent_") by done.
    rewrite replace_match by done.
    rewrite (replace_copy "v" "N" _ ".py") by done.
    by rewrite artifact_name_eq, !append_assoc.
  - intros c r Hc IH. rewrite replace_pass by done.
    destruct (startswith (String c r) "vN") eqn:E.
    + apply startswith_spec in E as [r' E]. simpl in E.
      injection E as -> ->.
      rewrite (replace_pass "agent_vN.py") in * by done.
      rewrite (replace_pass "vN" _ "N") in IH by done.
      rewrite (replace_pass "vN" _ "N") in IH by done.
      injection IH as IH.
      change (String "v" (String "N" r')) with ("vN" +:+ r').
      change (String "v" (String "N" ?x)) with ("vN" +:+ x) at 1.
      rewrite !replace_match by done. by rewrite IH.
    + rewrite (replace_pass "vN" _ c r) by done.
      rewrite replace_pass; [by rewrite IH|].
      rewrite startswith_cons in *.
      by rewrite (replace_artifact_head r n "N").
Qed.

Lemma substitute_alt (s : string) (n : N) (f : string) :
  substitute s n f = replace (replace s "vN" (next_v n)) "CURRENT_AGENT" f.
Proof. unfold substitute. by rewrite <- (replace_artifact_absorbed s n). Qed.

(** An occurrence of the artifact token becomes the artifact name. *)
Lemma substitute_artifact (a b : string) (n : N) (f : string) :
  substitute (a +:+ "agent_vN.py" +:+ b) n f
  = substitute a n f +:+ Registry.artifact_name n +:+ substitute b n f.
Proof.
  unfold substitute. fold (Registry.artifact_name n). fold (next_v n).
  rewrite (replace_app "agent_vN.py") by
    (done || by apply (no_straddle_head "agent_vN.py")).
  rewrite replace_match by done.
  rewrite (replace_app "vN") by
    (done || (rewrite artifact_name_eq; by apply (no_straddle_head "vN"))).
  rewrite replace_vN_copies_artifact.
  rewrite (replace_app "CURRENT_AGENT") by
    (done ||
     (rewrite artifact_name_eq; by apply (no_straddle_head "CURRENT_AGENT"))).
  f_equal. apply (replace_copy "C" "URRENT_AGENT").
  by apply not_in_artifact_name.
Qed.

(** An occurrence of the version token becomes the version. *)
Lemma substitute_version (a b : string) (n : N) (f : string) :
  substitute (a +:+ "vN" +:+ b) n f
  = substitute a n f +:+ next_v n +:+ substitute b n f.
Proof.
  rewrite !substitute_alt.
  rewrite (replace_app "vN") by
    (done || by apply (no_straddle_head "vN")).
  rewrite replace_match by done.
  rewrite (replace_app "CURRENT_AGENT") by
    (done || by apply (no_straddle_head "CURRENT_AGENT")).
  f_equal. apply (replace_copy "C" "URRENT_AGENT").
  unfold next_v. apply (string_mem_app_false "C" "v"). split; [done|].
  by apply not_in_str.
Qed.

(** An occurrence of the agent token becomes the file name. *)
Lemma substitute_agent (a b : string) (n : N) (f : string) :
  substitute (a +:+ "CURRENT_AGENT" +:+ b) n f
  = substitute a n f +:+ f +:+ substitute b n f.
Proof.
  unfold substitute. fold (Registry.artifact_name n). fold (next_v n).
  rewrite (replace_app "agent_vN.py") by
    (done || by apply (no_straddle_head "agent_vN.py")).
  rewrite (replace_copy "a" "gent_vN.py" _ "CURRENT_AGENT") by done.
  rewrite (replace_app "vN") by
    (done || by apply (no_straddle_head "vN")).
  rewrite (replace_copy "v" "N" _ "CURRENT_AGENT") by done.
  rewrite (replace_app "CURRENT_AGENT") by
    (done || by apply (no_straddle_head "CURRENT_AGENT")).
  by rewrite replace_match.
Qed.

(** A script without tokens is left as it is. *)
Lemma substitute_plain (s : string) (n : N) (f : string) :
  has_token s = false → substitute s n f = s.
Proof.
  unfold has_token, tokens. cbn [existsb].
  intros [H1 [H2 [H3 _]%orb_false_iff]%orb_false_iff]%orb_false_iff.
  unfold substitute.
  rewrite (replace_absent s "agent_vN.py") by done.
  rewrite (replace_absent s "vN") by done.
  by apply replace_absent.
Qed.

End SubstituteInPlace.

(** * File names that rebuild a token *)

Section RebuildFacts.
Import PyStr Builder.

Lemma splits_spec (s p u : string) :
  (p, u) ∈ splits s ↔ s = p +:+ u ∧ p ≠ "" ∧ u ≠ "".
Proof.
  revert p u. induction s as [|c s IH]; intros p u.
  - cbn [splits]. split; [by intros ?%elem_of_nil|].
    intros (H & Hp & _). by destruct p.
  - cbn [splits]. destruct s as [|d s].
    + split; [by intros ?%elem_of_nil|].
      intros (H & Hp & Hu). destruct p as [|e p]; [done|].
      cbn [String.append] in H. injection H as _ H.
      destruct p; [by destruct u|discriminate].
    + rewrite elem_of_cons. split.
      * intros [[= -> ->]|Hin]; [done|].
        apply list_elem_of_In, in_map_iff in Hin as ([p' u'] & [= <- <-] & Hin).
        apply list_elem_of_In, IH in Hin as (-> & Hp & Hu). done.
      * intros (H & Hp & Hu). destruct p as [|e p]; [done|].
        cbn [String.append] in H. injection H as <- H.
        destruct p as [|e p]; [left; cbn in H; by subst u|].
        right. apply list_elem_of_In, in_map_iff.
        exists (String e p, u). split; [done|].
        apply list_elem_of_In, IH. done.
Qed.

Lemma rebuilds_false (old new : string) :
  rebuilds old new = false →
  contains new old = false
  ∧ ∀ p u, old = p +:+ u → p ≠ "" → u ≠ "" →
           endswith new p = false ∧ startswith new u = false
           ∧ startswith u new = false.
Proof.
  unfold rebuilds. intros [Hc He]%orb_false_iff. split; [done|].
  intros p u H Hp Hu.
  assert ((p, u) ∈ splits old) as Hin by (by apply splits_spec).
  destruct (endswith new p || startswith new u || startswith u new) eqn:E.
  - assert (existsb (λ '(p, u), endswith new p || startswith new u
                                || startswith u new) (splits old) = true);
      [|congruence].
    apply existsb_exists. exists (p, u). split; [by apply list_elem_of_In|done].
  - apply orb_false_iff in E as [[? ?]%orb_false_iff ?]. done.
Qed.

Lemma rebuilds_true (old new : string) :
  rebuilds old new = true →
  contains new old = true
  ∨ ∃ p u, old = p +:+ u ∧ p ≠ "" ∧ u ≠ ""
           ∧ (endswith new p = true ∨ startswith new u = true
              ∨ startswith u new = true).
Proof.
  unfold rebuilds. intros [Hc|He]%orb_true_iff; [by left|]. right.
  apply existsb_exists in He as ([p u] & Hin & H).
  apply list_elem_of_In, splits_spec in Hin as (-> & Hp & Hu).
  exists p, u. do 3 (split; [done|]).
  apply orb_true_iff in H as [[?| ?]%orb_true_iff| ?]; auto.
Qed.

(** No match of [old] starts inside a copy of a [new] that does not
    rebuild it. *)
Lemma rebuilds_no_start (old new : string) :
  rebuilds old new = false →
  ∀ p q y, new = p +:+ q → q ≠ "" → startswith (q +:+ y) old = false.
Proof.
  intros [Hc Hs]%rebuilds_false p q y -> Hq.
  destruct (startswith (q +:+ y) old) eqn:E; [|done]. exfalso.
  apply startswith_spec in E as [t E].
  apply app_eq_app in E as [(x & -> & _) | (x & Hx & _)].
  - assert (contains (p +:+ old +:+ x) old = true); [|congruence].
    apply contains_spec. by exists p, x.
  - destruct x as [|c x].
    + rewrite append_nil_r in Hx. subst q.
      assert (contains (p +:+ old) old = true); [|congruence].
      apply contains_spec. exists p, "". by rewrite append_nil_r.
    + destruct (Hs q (String c x) Hx Hq ltac:(done)) as (He & _).
      assert (endswith (p +:+ q) q = true); [|congruence].
      apply endswith_spec. by exists p.
Qed.

(** A proper end of [old] does not begin a copy of a [new] that does not
    rebuild it. *)
Lemma rebuilds_no_suffix (old new : string) :
  rebuilds old new = false →
  ∀ p u y, old = p +:+ u → p ≠ "" → u ≠ "" →
           startswith (new +:+ y) u = false.
Proof.
  intros [_ Hs]%rebuilds_false p u y H Hp Hu.
  destruct (Hs p u H Hp Hu) as (_ & H1 & H2).
  destruct (startswith (new +:+ y) u) eqn:E; [|done]. exfalso.
  apply startswith_spec in E as [t E].
  apply app_eq_app in E as [(x & Hx & _) | (x & Hx & _)].
  - assert (startswith new u = true); [|congruence].
    apply startswith_spec. by exists x.
  - assert (startswith u new = true); [|congruence].
    apply startswith_spec. by exists x.
Qed.

End RebuildFacts.

Section SubstituteExact.
Import PyStr Builder.

Lemma rebuilds_vN (f : string) :
  rebuilds "vN" f = false →
  contains f "vN" = false ∧ endswith f "v" = false
  ∧ startswith f "N" = false ∧ f ≠ "".
Proof.
  intros [Hc Hs]%rebuilds_false.
  destruct (Hs "v" "N") as (H1 & H2 & H3); [done..|].
  do 3 (split; [done|]). intros ->. done.
Qed.

(** The third replacement keeps a script free of [vN] when the file name
    cannot supply one. *)
Lemma splice_keeps_vN (f : string) :
  rebuilds "vN" f = false →
  ∀ s, contains s "vN" = false →
       contains (replace s "CURRENT_AGENT" f) "vN" = false
       ∧ (startswith (replace s "CURRENT_AGENT" f) "N" = true →
          startswith s "N" = true).
Proof.
  intros (HvN & Hv & HN & Hne)%rebuilds_vN.
  refine (replace_ind "CURRENT_AGENT" (fun s => contains s "vN" = false → _)
            _ _ _ _); [done|..].
  - done.
  - intros r IH Hr. rewrite replace_match by done.
    destruct (IH (contains_app_false_r _ _ _ Hr)) as [IH1 IH2]. split.
    + destruct (contains (f +:+ replace r "CURRENT_AGENT" f) "vN") eqn:E;
        [|done].
      apply contains_app_cases in E as [E|(x & q & Hx & Hq & E)]; [congruence|].
      exfalso. apply startswith_spec in E as [t Ht].
      apply app_eq_app in Ht as [(t' & -> & _) | (t' & Ht1 & Ht2)].
      * assert (contains f "vN" = true); [|congruence].
        apply contains_spec. exists x, t'. by rewrite Hx.
      * destruct q as [|c1 [|c2 q]]; [done| |].
        -- simpl in Ht1. injection Ht1 as <- <-.
           assert (endswith f "v" = true); [|congruence].
           apply endswith_spec. by exists x.
        -- simpl in Ht1. injection Ht1 as <- <- Hq'.
           destruct q; [|discriminate].
           assert (contains f "vN" = true); [|congruence].
           apply contains_spec. exists x, "". by rewrite Hx.
    + intros H. exfalso. destruct f as [|h f']; [done|].
      cbn [String.append] in H. rewrite !startswith_cons in *.
      apply andb_true_iff in H as [H _].
      by rewrite H, startswith_nil in HN.
  - intros c r Hc IH Hs.
    destruct (IH (contains_cons_false _ _ _ Hs)) as [IH1 IH2].
    rewrite replace_pass by done. split.
    + cbn [contains]. rewrite IH1, orb_false_r.
      destruct (startswith (String c (replace r "CURRENT_AGENT" f))
                  "vN") eqn:E; [|done].
      rewrite startswith_cons in E. apply andb_true_iff in E as [E1 E2].
      apply IH2 in E2. cbn [contains] in Hs.
      apply orb_false_iff in Hs as [Hs _].
      by rewrite startswith_cons, E1, E2 in Hs.
    + rewrite !startswith_cons. intros [E _]%andb_true_iff.
      by rewrite E, startswith_nil.
Qed.

Lemma splice_removes_agent (f s : string) :
  rebuilds "CURRENT_AGENT" f = false →
  contains (replace s "CURRENT_AGENT" f) "CURRENT_AGENT" = false.
Proof.
  intros Hf. apply replace_removes_aux; [done|..].
  - by apply rebuilds_no_start.
  - by apply rebuilds_no_suffix.
Qed.

(** A clean file name leaves no token, whatever the script. *)
Lemma substitute_clean (script : string) (n : N) (f : string) :
  clean_filename f = true → has_token (substitute script n f) = false.
Proof.
  unfold clean_filename.
  intros [HT%negb_true_iff Hv%negb_true_iff]%andb_true_iff.
  unfold substitute.
  set (s2 := replace (replace script _ _) "vN" _).
  assert (contains s2 "vN" = false) as H2 by apply replace_vN_removes.
  destruct (splice_keeps_vN f Hv s2 H2) as [H3 _].
  unfold has_token, tokens. cbn [existsb].
  rewrite H3, (splice_removes_agent f s2 HT), !orb_false_r.
  destruct (contains (replace s2 "CURRENT_AGENT" f) "agent_vN.py") eqn:E;
    [|done].
  apply contains_artifact_vN in E. congruence.
Qed.

Lemma has_token_contains (s tok : string) :
  tok ∈ ["vN"; "CURRENT_AGENT"] → contains s tok = true → has_token s = true.
Proof.
  unfold has_token, tokens. cbn [existsb].
  intros [->|[->|[]%elem_of_nil]%elem_of_cons]%elem_of_cons ->;
    by rewrite ?orb_true_r.
Qed.

Lemma no_token_without (s : string) :
  string_mem "v" s = false → string_mem "C" s = false → has_token s = false.
Proof.
  intros Hv HC. unfold has_token, tokens. cbn [existsb].
  rewrite (contains_mem "v" s "agent_" "N.py" Hv
           : contains s "agent_vN.py" = false).
  rewrite (contains_mem "v" s "" "N" Hv : contains s "vN" = false).
  by rewrite (contains_mem "C" s "" "URRENT_AGENT" HC
              : contains s "CURRENT_AGENT" = false).
Qed.

Lemma plain_parts_spec (tok p u : string) :
  plain_parts tok = true → tok = p +:+ u → p ≠ "" → u ≠ "" →
  has_token p = false ∧ string_mem "v" u = false ∧ string_mem "C" u = false.
Proof.
  intros H Hpu Hp Hu. unfold plain_parts in H.
  rewrite forallb_forall in H.
  assert (In (p, u) (splits tok)) as Hin
    by (by apply list_elem_of_In, splits_spec).
  apply H in Hin. cbn beta iota in Hin.
  apply andb_true_iff in Hin as [[H1 H2]%andb_true_iff H3].
  by rewrite !negb_true_iff in *.
Qed.

(** The agent token between two plain texts. *)
Lemma substitute_spliced (p z : string) (n : N) (f : string) :
  has_token p = false → has_token z = false →
  substitute (p +:+ "CURRENT_AGENT" +:+ z) n f = p +:+ f +:+ z.
Proof.
  intros Hp Hz. by rewrite substitute_agent, !substitute_plain.
Qed.

(** A file name that rebuilds a token puts it into some script. *)
Lemma rebuilds_puts_token (tok f : string) :
  tok ∈ ["vN"; "CURRENT_AGENT"] → plain_parts tok = true →
  rebuilds tok f = true →
  ∃ script, ∀ n, has_token (substitute script n f) = true.
Proof.
  intros Htok Hpl [Hc|(p & u & Hpu & Hp & Hu & H)]%rebuilds_true.
  - exists ("" +:+ "CURRENT_AGENT" +:+ ""). intros n.
    rewrite substitute_spliced by done.
    apply (has_token_contains _ tok); [done|].
    cbn [String.append]. by rewrite append_nil_r.
  - destruct (plain_parts_spec tok p u Hpl Hpu Hp Hu) as (Tp & Uv & UC).
    assert (has_token u = false) as Tu by (by apply no_token_without).
    destruct H as [H|[H|H]].
    + apply endswith_spec in H as [r ->].
      exists ("" +:+ "CURRENT_AGENT" +:+ u). intros n.
      rewrite substitute_spliced by done.
      apply (has_token_contains _ tok); [done|].
      apply contains_spec. exists r, "".
      cbn [String.append]. by rewrite append_nil_r, Hpu, append_assoc.
    + apply startswith_spec in H as [r ->].
      exists (p +:+ "CURRENT_AGENT" +:+ ""). intros n.
      rewrite substitute_spliced by done.
      apply (has_token_contains _ tok); [done|].
      apply contains_spec. exists "", r.
      cbn [String.append]. by rewrite append_nil_r, Hpu, !append_assoc.
    + apply startswith_spec in H as [z Hz].
      assert (has_token z = false) as Tz.
      { rewrite Hz in Uv, UC.
        apply string_mem_app_false in Uv as [_ Uv].
        apply string_mem_app_false in UC as [_ UC].
        by apply no_token_without. }
      exists (p +:+ "CURRENT_AGENT" +:+ z). intros n.
      rewrite substitute_spliced by done.
      apply (has_token_contains _ tok); [done|].
      apply contains_spec. exists "", "".
      cbn [String.append]. by rewrite append_nil_r, Hpu, Hz.
Qed.

Lemma unclean_puts_token (f : string) :
  clean_filename f = false →
  ∃ script, ∀ n, has_token (substitute script n f) = true.
Proof.
  unfold clean_filename.
  intros [H%negb_false_iff|H%negb_false_iff]%andb_false_iff.
  - apply (rebuilds_puts_token "CURRENT_AGENT"); [|by vm_compute|done].
    apply elem_of_cons. right. by apply elem_of_cons; left.
  - apply (rebuilds_puts_token "vN"); [|by vm_compute|done].
    by apply elem_of_cons; left.
Qed.

End SubstituteExact.

Section CleanNames.
Import PyStr Builder.

Lemma endswith_mem (c : ascii) (s a b : string) :
  string_mem c s = false → endswith s (a +:+ String c b) = false.
Proof.
  intros Hs. apply not_true_is_false. intros [r ->]%endswith_spec.
  apply string_mem_app_false in Hs as [_ Hs].
  rewrite <- (append_nil_r (a +:+ String c b)), append_assoc in Hs.
  cbn [String.append] in Hs. by rewrite string_mem_app in Hs.
Qed.

(** The names that [safe_filename] passes are clean. *)
Lemma safe_filename_clean (f : string) :
  safe_filename f = true → clean_filename f = true.
Proof.
  unfold safe_filename.
  intros [[[Hh HC%negb_true_iff]%andb_true_iff HvN%negb_true_iff]%andb_true_iff
          Hv%negb_true_iff]%andb_true_iff.
  destruct f as [|h f']; [done|]. apply negb_true_iff in Hh.
  unfold clean_filename. apply andb_true_iff. split; apply negb_true_iff.
  - destruct (rebuilds "CURRENT_AGENT" (String h f')) eqn:E; [exfalso|done].
    apply rebuilds_true in E as [E|(p & u & Hpu & Hp & Hu & E)].
    + by rewrite (contains_mem "C" _ "" "URRENT_AGENT" HC
                  : contains _ "CURRENT_AGENT" = false) in E.
    + destruct p as [|e p]; [done|]. destruct u as [|d u]; [done|].
      cbn [String.append] in Hpu. injection Hpu as <- Hpu.
      assert (h ≠ d) as Hd.
      { intros ->. rewrite Hpu in Hh. by rewrite string_mem_app in Hh. }
      destruct E as [E|[E|E]].
      * by rewrite (endswith_mem "C" _ "" p HC
                      : endswith _ (String "C" p) = false) in E.
      * by rewrite startswith_head_ne in E.
      * by rewrite startswith_head_ne in E.
  - assert (h ≠ "N"%char) as HN by (intros ->; done).
    unfold rebuilds. cbn [splits List.map existsb].
    rewrite HvN, Hv, !startswith_head_ne by done. done.
Qed.

Lemma artifact_name_clean (n : N) :
  clean_filename (Registry.artifact_name n) = true.
Proof. apply safe_filename_clean, artifact_name_safe. Qed.

End CleanNames.


Section ExtractFacts.
Import PyStr Extract.

Lemma split_go_skip (sep x r : string) :
  split_go sep (String.length x) (x +:+ r) = split_go sep 0 r.
Proof. induction x; simpl; auto. Qed.

Lemma split_match (sep r : string) :
  sep ≠ "" → split (sep +:+ r) sep = "" :: split r sep.
Proof.
  intros Hne. unfold split. destruct sep as [|c sep]; [done|].
  change (String c sep +:+ r) with (String c (sep +:+ r)).
  cbn [split_go].
  change (String c (sep +:+ r)) with (String c sep +:+ r).
  rewrite startswith_app. f_equal.
  replace (String.length (String c sep) - 1) with (String.length sep)
    by (simpl; lia).
  apply split_go_skip.
Qed.

Lemma split_nonempty (s sep : string) : split s sep ≠ [].
Proof.
  unfold split. generalize 0. induction s as [|c s IH]; intros k; [done|].
  cbn [split_go]. destruct k; [|apply IH].
  destruct (startswith (String c s) sep); [done|].
  by destruct (split_go sep 0 s).
Qed.

Lemma split_pass (sep : string) (c : ascii) (r : string) :
  startswith (String c r) sep = false →
  ∃ p ps, split r sep = p :: ps ∧ split (String c r) sep = String c p :: ps.
Proof.
  intros H. unfold split. cbn [split_go]. rewrite H.
  pose proof (split_nonempty r sep) as Hn. unfold split in Hn.
  destruct (split_go sep 0 r) as [|p ps]; [done|]. eauto.
Qed.

(** [s.split(sep)[0]] *)
Lemma split_first (s sep : string) :
  sep ≠ "" → split s sep !! 0 = Some (before s sep).
Proof.
  intros Hne. induction s as [|c s IH].
  - by destruct sep.
  - cbn [before]. destruct (startswith (String c s) sep) eqn:E.
    + apply startswith_spec in E as [r ->]. by rewrite split_match.
    + destruct (split_pass sep c s E) as (p & ps & Hs & ->).
      rewrite Hs in IH. simpl in *. congruence.
Qed.

(** [s.split(sep)[1]] when [sep] occurs in [s] *)
Lemma split_second (s sep : string) :
  sep ≠ "" → contains s sep = true →
  ∃ a, after s sep = Some a ∧ split s sep !! 1 = Some (before a sep).
Proof.
  intros Hne. induction s as [|c s IH].
  - cbn [contains]. rewrite orb_false_r. by destruct sep.
  - cbn [contains after]. destruct (startswith (String c s) sep) eqn:E.
    + intros _. eexists; split; [done|].
      apply startswith_spec in E as [r E]. rewrite E, split_match by done.
      rewrite drop_app. simpl. by apply split_first.
    + simpl. intros H. destruct (IH H) as (a & Ha & Hs).
      exists a. split; [done|].
      destruct (split_pass sep c s E) as (p & ps & Hs' & ->).
      by rewrite Hs' in Hs.
Qed.

Lemma before_prefix (s sep : string) : ∃ r, s = before s sep +:+ r.
Proof.
  induction s as [|c s [r IH]]; [by exists ""|]. cbn [before].
  destruct (startswith (String c s) sep); [by eexists|].
  exists r. simpl. congruence.
Qed.

Lemma no_start_tail (sep : string) (c : ascii) (pre y : string) :
  no_start sep (String c pre) y → no_start sep pre y.
Proof. intros H p q -> ?. by apply (H (String c p) q). Qed.

Lemma before_app (sep pre y : string) :
  no_start sep pre y → before (pre +:+ y) sep = pre +:+ before y sep.
Proof.
  induction pre as [|c pre IH]; [done|]. intros H.
  simpl String.append. cbn [before].
  change (String c (pre +:+ y)) with (String c pre +:+ y).
  rewrite (H "" (String c pre)) by done.
  rewrite IH; [done|]. by eapply no_start_tail.
Qed.

Lemma after_app (sep pre y : string) :
  no_start sep pre y → after (pre +:+ y) sep = after y sep.
Proof.
  induction pre as [|c pre IH]; [done|]. intros H.
  simpl String.append. cbn [after].
  change (String c (pre +:+ y)) with (String c pre +:+ y).
  rewrite (H "" (String c pre)) by done.
  apply IH. by eapply no_start_tail.
Qed.

Lemma before_match (sep r : string) : sep ≠ "" → before (sep +:+ r) sep = "".
Proof.
  destruct sep as [|c sep]; [done|]. intros _. simpl String.append.
  cbn [before]. change (String c (sep +:+ r)) with (String c sep +:+ r).
  by rewrite startswith_app.
Qed.

Lemma after_match (sep r : string) : after (sep +:+ r) sep = Some r.
Proof.
  destruct sep as [|c sep]; [by destruct r|].
  simpl String.append. cbn [after].
  change (String c (sep +:+ r)) with (String c sep +:+ r).
  by rewrite startswith_app, drop_app.
Qed.

Lemma before_absent (s sep : string) :
  contains s sep = false → before s sep = s.
Proof.
  induction s as [|c s IH]; [done|]. cbn [contains before].
  intros [-> H]%orb_false_iff. by rewrite IH.
Qed.

(** A prefix no longer than [a] of [a +:+ b] is a prefix of [a]. *)
Lemma prefix_app_short (t a b r : string) :
  a +:+ b = t +:+ r → String.length t ≤ String.length a →
  ∃ a', a = t +:+ a'.
Proof.
  intros H Hl. apply app_eq_app in H as [(x & -> & _) | (x & -> & _)]; [eauto|].
  rewrite length_append in Hl. destruct x; [|simpl in Hl; lia].
  exists "". by rewrite !append_nil_r.
Qed.

Lemma app_snoc_inv (i : string) (l : ascii) (q t : string) :
  i +:+ String l "" = q +:+ t → t ≠ "" →
  ∃ t', t = t' +:+ String l "" ∧ i = q +:+ t'.
Proof.
  revert q; induction i as [|c i IH]; intros q H Ht.
  - destruct q as [|d q].
    + simpl in H. subst t. by exists "".
    + simpl in H. injection H as _ H. destruct q; [|discriminate].
      simpl in H. by subst t.
  - destruct q as [|d q].
    + simpl in H. subst t. exists (String c i). by simpl.
    + simpl in H. injection H as -> H.
      destruct (IH q H Ht) as (t' & -> & ->). by exists t'.
Qed.

(** When [sep] is absent from [pre] followed by all of [sep] but its
    last character, its first occurrence in [pre +:+ sep +:+ rest] is the
    one written. *)
Lemma no_start_first (sep i : string) (l : ascii) (pre rest : string) :
  sep = i +:+ String l "" →
  contains (pre +:+ i) sep = false →
  no_start sep pre (sep +:+ rest).
Proof.
  intros -> Hc p q -> Hq.
  destruct (startswith (q +:+ (i +:+ String l "") +:+ rest)
              (i +:+ String l "")) eqn:E; [|done].
  exfalso.
  assert (startswith (q +:+ i) (i +:+ String l "") = true) as Hs.
  { apply startswith_spec in E as [t E]. apply startswith_spec.
    apply app_eq_app in E as [(x & -> & _) | (x & Hx & Hr)].
    - exists (x +:+ i). by rewrite append_assoc.
    - destruct x as [|c x].
      + rewrite append_nil_r in Hx. subst q. by exists i.
      + pose proof Hx as Hx'.
        apply app_snoc_inv in Hx' as (t' & Ht' & ->); [|done].
        rewrite Ht' in Hr.
        destruct (prefix_app_short (t' +:+ String l "") (q +:+ t')
                    (String l "" +:+ rest) t) as [a' Ha'].
        * by rewrite <- Hr, !append_assoc.
        * rewrite !length_append. destruct q; [done|]. simpl. lia.
        * exists a'. rewrite Ha' at 1. by rewrite <- !append_assoc, Ha'. }
  assert (contains ((p +:+ q) +:+ i) (i +:+ String l "") = true);
    [|congruence].
  apply startswith_spec in Hs as [t Ht].
  apply contains_spec. exists p, t. by rewrite append_assoc, Ht.
Qed.

End ExtractFacts.


Section ExtractScript.
Import PyStr Extract.

Lemma fence_bash_starts (x : string) :
  startswith x fence_bash = true → startswith x fence = true.
Proof.
  rewrite !startswith_spec. intros [r ->]. by exists ("bash" +:+ r).
Qed.

Lemma contains_fence_bash (s : string) :
  contains s fence_bash = true → contains s fence = true.
Proof.
  rewrite !contains_spec. intros (a & b & ->). by exists a, ("bash" +:+ b).
Qed.

Lemma startswith_same (c : ascii) (s p : string) :
  startswith (String c s) (String c p) = startswith s p.
Proof. by rewrite startswith_cons, Ascii.eqb_refl. Qed.

(** Cutting at the next [```bash] and then at the next fence stops at the
    closing fence, provided no further backtick follows it. *)
Lemma before_closing_fence (body post : string) :
  no_start fence body (fence +:+ post) →
  startswith post "`" = false →
  before (before (body +:+ fence +:+ post) fence_bash) fence = body.
Proof.
  intros Hb Hp. induction body as [|c body IH].
  - unfold fence, fence_bash. destruct post as [|d post]; [done|].
    rewrite startswith_cons, startswith_nil, andb_true_r in Hp.
    cbn [String.append before].
    rewrite !startswith_same.
    destruct (startswith (String d post) "bash") eqn:E; [done|].
    cbn [before]. rewrite !startswith_same.
    rewrite (startswith_cons d "`"), Hp. simpl andb. cbn [before].
    rewrite !startswith_same.
    rewrite (startswith_cons d "`"), Hp. simpl andb. cbn [before].
    by rewrite !startswith_same, startswith_nil.
  - pose proof (Hb "" (String c body) eq_refl ltac:(done)) as H0.
    destruct (startswith (String c body +:+ fence +:+ post) fence_bash) eqn:E.
    { apply fence_bash_starts in E. congruence. }
    change (String c body +:+ fence +:+ post)
      with (String c (body +:+ fence +:+ post)) in *.
    cbn [before]. rewrite E. cbn [before].
    rewrite IH by (by eapply no_start_tail).
    destruct (startswith
                (String c (before (body +:+ fence +:+ post) fence_bash))
                fence) eqn:E'; [|done].
    destruct (before_prefix (body +:+ fence +:+ post) fence_bash) as [r Hr].
    apply (startswith_app_l _ _ r) in E'.
    change (String c ?x +:+ r) with (String c (x +:+ r)) in E'.
    rewrite <- Hr in E'. congruence.
Qed.

Lemma extract_bash_fence (pre body post : string) :
  contains (pre +:+ "```bas") fence_bash = false →
  contains (body +:+ "``") fence = false →
  startswith post "`" = false →
  extract_script (pre +:+ fence_bash +:+ body +:+ fence +:+ post)
  = Ok (strip body).
Proof.
  intros H1 H2 H3. unfold extract_script.
  assert (contains (pre +:+ fence_bash +:+ body +:+ fence +:+ post)
            fence_bash = true) as ->.
  { apply contains_spec. by eexists _, _. }
  unfold between.
  destruct (split_second (pre +:+ fence_bash +:+ body +:+ fence +:+ post)
              fence_bash) as (a & Ha & Hs); [done| |].
  { apply contains_spec. by eexists _, _. }
  rewrite after_app, after_match in Ha
    by (by apply (no_start_first fence_bash "```bas" "h")).
  assert (a = body +:+ fence +:+ post) as -> by congruence.
  unfold index. rewrite Hs.
  rewrite split_first by done.
  rewrite before_closing_fence; [done| |done].
  by apply (no_start_first fence "``" "`").
Qed.

Lemma extract_plain_fence (pre body post : string) :
  contains (pre +:+ fence +:+ body +:+ fence +:+ post) fence_bash = false →
  contains (pre +:+ "``") fence = false →
  contains (body +:+ "``") fence = false →
  extract_script (pre +:+ fence +:+ body +:+ fence +:+ post)
  = Ok (strip body).
Proof.
  intros H0 H1 H2. unfold extract_script. rewrite H0.
  assert (contains (pre +:+ fence +:+ body +:+ fence +:+ post) fence = true)
    as Hc by (apply contains_spec; by eexists _, _).
  rewrite Hc. unfold between.
  destruct (split_second _ fence ltac:(done) Hc) as (a & Ha & Hs).
  rewrite after_app, after_match in Ha
    by (by apply (no_start_first fence "``" "`")).
  assert (a = body +:+ fence +:+ post) as -> by congruence.
  unfold index. rewrite Hs.
  rewrite before_app, before_match, append_nil_r
    by (done || by apply (no_start_first fence "``" "`")).
  rewrite split_first by done.
  rewrite before_absent; [done|].
  by apply contains_app_false_l in H2.
Qed.

Lemma extract_raw (script : string) :
  contains script fence = false → extract_script script = Ok script.
Proof.
  intros H. unfold extract_script. rewrite H.
  destruct (contains script fence_bash) eqn:E; [|done].
  apply contains_fence_bash in E. congruence.
Qed.

Lemma between_total (script opening : string) :
  opening ≠ "" → contains script opening = true →
  ∃ r, between script opening = Ok r.
Proof.
  intros Hne Hc. unfold between, index.
  destruct (split_second script opening Hne Hc) as (a & _ & ->).
  rewrite split_first by done. eauto.
Qed.

Lemma extract_total (script : string) : ∃ r, extract_script script = Ok r.
Proof.
  unfold extract_script.
  destruct (contains script fence_bash) eqn:E1; [by apply between_total|].
  destruct (contains script fence) eqn:E2; [by apply between_total|eauto].
Qed.

End ExtractScript.


Section RegistryFacts.
Import PyStr Registry.

Lemma uint_of_digit (c : ascii) (d : Decimal.uint) :
  isdigit c = true → ∃ d', uint_of_char c (Some d) = Some d'.
Proof.
  destruct c as [[] [] [] [] [] [] [] []]; intros H;
    try (exfalso; vm_compute in H; discriminate); simpl; eauto.
Qed.

Lemma uint_of_digits (s : string) :
  string_forall isdigit s = true → ∃ d, NilEmpty.uint_of_string s = Some d.
Proof.
  induction s as [|c s IH]; [by eexists|].
  simpl. intros [Hc Hs]%andb_true_iff. destruct (IH Hs) as [d ->].
  by apply uint_of_digit.
Qed.

(** [int] accepts every non-empty string of digits. *)
Lemma int_digits (s : string) :
  s ≠ "" → string_forall isdigit s = true → ∃ n, int s = Some n.
Proof.
  intros Hne Hs. destruct (uint_of_digits s Hs) as [d Hd].
  unfold int. destruct s; [done|]. rewrite Hd. by eexists.
Qed.

(** [int(str(n)) == n] *)
Lemma int_str (n : N) : int (str n) = Some n.
Proof.
  destruct (str_shape n) as (d & ds & E & _).
  unfold int. rewrite E, <- E. unfold str.
  rewrite NilEmpty.usu. simpl. by rewrite DecimalN.Unsigned.of_to.
Qed.

Lemma span_digits_spec (s : string) :
  ∃ d r, span_digits s = (d, r) ∧ s = d +:+ r
         ∧ string_forall isdigit d = true.
Proof.
  induction s as [|c s (d & r & E & -> & Hd)]; [by exists "", ""|].
  simpl. destruct (isdigit c) eqn:Ec.
  - rewrite E. exists (String c d), r. simpl. by rewrite Ec.
  - by exists "", (String c (d +:+ r)).
Qed.

Lemma span_digits_app (d r : string) :
  string_forall isdigit d = true →
  (∀ c r', r = String c r' → isdigit c = false) →
  span_digits (d +:+ r) = (d, r).
Proof.
  intros Hd Hr. induction d as [|c d IH].
  - destruct r as [|c r']; [done|]. simpl. by rewrite (Hr c r').
  - simpl in *. apply andb_true_iff in Hd as [-> Hd]. by rewrite IH.
Qed.

(** The group of a match is a non-empty string of digits. *)
Lemma match_here_digits (s g : string) :
  match_here s = Some g → g ≠ "" ∧ string_forall isdigit g = true.
Proof.
  unfold match_here. destruct (startswith s "agent_v"); [|done].
  destruct (span_digits_spec (drop 7 s)) as (d & r & -> & _ & Hd).
  destruct d; [done|]. destruct (startswith r ".py"); [|done].
  by intros [= <-].
Qed.

Lemma re_search_digits (s g : string) :
  re_search s = Some g → g ≠ "" ∧ string_forall isdigit g = true.
Proof.
  induction s as [|c s IH]; cbn [re_search].
  - destruct (match_here "") eqn:E; [|done].
    intros [= <-]. by eapply match_here_digits.
  - destruct (match_here (String c s)) eqn:E; [|done].
    intros [= <-]. by eapply match_here_digits.
Qed.

Lemma re_search_int (s g : string) :
  re_search s = Some g → ∃ n, int g = Some n.
Proof. intros [? ?]%re_search_digits. by apply int_digits. Qed.

Lemma match_here_artifact (n : N) :
  match_here (artifact_name n) = Some (str n).
Proof.
  unfold match_here, artifact_name.
  rewrite startswith_app.
  change 7 with (String.length "agent_v"). rewrite drop_app.
  destruct (str_shape n) as (d & ds & E & Hd).
  rewrite span_digits_app.
  - by rewrite E.
  - by rewrite E.
  - by intros c r' [= <- _].
Qed.

(** The name built for version [n] carries version [n]. *)
Lemma embedded_version_artifact (n : N) :
  embedded_version (artifact_name n) = Some n.
Proof.
  unfold embedded_version.
  assert (startswith (artifact_name n) "agent_v" = true) as ->
    by apply startswith_app.
  assert (endswith (artifact_name n) ".py" = true) as ->.
  { apply endswith_spec. exists ("agent_v" +:+ str n).
    unfold artifact_name. by rewrite append_assoc. }
  simpl andb. cbv iota.
  assert (re_search (artifact_name n) = Some (str n)) as ->.
  { unfold artifact_name. simpl String.append. cbn [re_search].
    change (String "a" (String "g" (String "e" (String "n" (String "t"
              (String "_" (String "v" (str n +:+ ".py"))))))))
      with (artifact_name n).
    by rewrite match_here_artifact. }
  simpl. apply int_str.
Qed.

(** The versions the listing carries, in the order of the listing. *)
Lemma collect_spec (existing : list string) (acc : list N) :
  collect existing acc
  = Ok (acc ++ omap (λ f, g ← re_search f; int g) existing).
Proof.
  revert acc; induction existing as [|f l IH]; intros acc.
  - by rewrite app_nil_r.
  - cbn [collect omap list_omap]. destruct (re_search f) as [g|] eqn:E.
    + destruct (re_search_int f g E) as [n Hn]. simpl. rewrite Hn.
      rewrite IH. by rewrite <- app_assoc.
    + simpl. apply IH.
Qed.

Lemma omap_existing (listing : list string) :
  omap (λ f, g ← re_search f; int g) (existing_of listing)
  = omap embedded_version listing.
Proof.
  unfold existing_of, embedded_version.
  induction listing as [|f l IH]; [done|]. cbn [List.filter omap list_omap].
  destruct (startswith f "agent_v" && endswith f ".py"); [|done].
  cbn [omap list_omap]. by rewrite IH.
Qed.

Lemma existing_nil (listing : list string) :
  existing_of listing = [] → omap embedded_version listing = [].
Proof. intros H. by rewrite <- omap_existing, H. Qed.

Lemma py_max_ge (v : N) (vs : list N) (x : N) :
  x ∈ v :: vs → (x ≤ py_max v vs)%N.
Proof.
  unfold py_max. revert v x. induction vs as [|w vs IH]; intros v x Hx.
  - apply list_elem_of_singleton in Hx as ->. simpl. lia.
  - simpl. apply elem_of_cons in Hx as [->|Hx].
    + etrans; [|apply IH; left]. lia.
    + apply elem_of_cons in Hx as [->|Hx].
      * etrans; [|apply IH; left]. lia.
      * apply IH. by right.
Qed.

Lemma py_max_in (v : N) (vs : list N) : py_max v vs ∈ v :: vs.
Proof.
  unfold py_max. revert v. induction vs as [|w vs IH]; intros v.
  - left.
  - simpl. specialize (IH (N.max v w)).
    apply elem_of_cons in IH as [IH|IH].
    + rewrite IH. destruct (N.max_spec v w) as [[_ ->]|[_ ->]].
      * right; left.
      * left.
    + by do 2 right.
Qed.

(** [get_next_version] returns; its value is [1] when no name carries a
    version and one more than the largest version otherwise. *)
Lemma get_next_version_value (listing : list string) :
  Registry.get_next_version listing
  = Ok match omap embedded_version listing with
       | [] => 1%N
       | v :: vs => (py_max v vs + 1)%N
       end.
Proof.
  unfold Registry.get_next_version.
  destruct (existing_of listing) as [|f l] eqn:E.
  - by rewrite (existing_nil listing E).
  - rewrite <- E, collect_spec. simpl app. rewrite omap_existing.
    by destruct (omap embedded_version listing).
Qed.

End RegistryFacts.


(** * The retry controller *)

Ltac trace_norm :=
  cbn [trace add_events applied built fst snd];
  rewrite <- ?app_assoc; cbn [app].

Section AttemptFacts.

Context (cf : string).


Lemma generate_run (a : attempt_env) (task : string)
    (previous : option previous_attempt) (w : world) :
  generate_evolution_script a task previous w
  = (match generated a with Ok s => Ret s | Raise e => Exc e end,
     add_events [CallModel task previous] w).
Proof.
  unfold generate_evolution_script, generated, bind, emit, lift.
  destruct (llm a) as [reply|e]; [|done]. simpl.
  by destruct (Extract.extract_script reply).
Qed.

Lemma test_run (a : attempt_env) (path : string) (w : world) :
  test_new_version a path w
  = (Ret (exited_zero (test a)), add_events [RunTest path] w).
Proof.
  unfold test_new_version, try_except, bind, emit, raise, ret. simpl.
  by destruct (test a) as [rc err|e].
Qed.

(** The [try] block of an attempt, step by step. *)
Lemma attempt_try_run (a : attempt_env) (version n : N) (task : string)
    (attempt : nat) (previous : option previous_attempt) (w : world) :
  attempt_try cf a version n task attempt previous w
  = match generated a with
    | Raise e => (Exc e, add_events [CallModel task previous] w)
    | Ok script =>
        let w1 := built cf a script version
                    (add_events [CallModel task previous] w) in
        match bash a with
        | RunRaised e => (Exc e, w1)
        | Completed returncode stderr =>
            if (returncode =? 0)%Z then
              after_validation a version n task script attempt
                (exited_zero (test a))
                (add_events [RunTest (Registry.artifact_name version)] w1)
            else
              (Exc (mkExn PlainException
                      ("Evolution script failed: " +:+ stderr)), w1)
        end
    end.
Proof.
  unfold attempt_try. unfold bind at 1. rewrite generate_run.
  destruct (generated a) as [script|e]; [|done].
  unfold bind at 1. unfold set_evolution_script at 1.
  unfold bind at 1.
  unfold create_new_version, write_file, run_bash, emit, ret, raise.
  unfold bind at 1 2 3 4. simpl.
  assert (∀ l (e1 e2 e3 e4 : event),
            (((l ++ [e1]) ++ [e2]) ++ [e3]) ++ [e4]
            = (l ++ [e1]) ++ [e2; e3; e4]) as Hl
    by (intros; by rewrite <- !app_assoc).
  rewrite Hl.
  destruct (bash a) as [rc err|e]; [|done].
  destruct (rc =? 0)%Z; [|done].
  unfold bind at 1. rewrite test_run.
  unfold after_validation.
  by destruct (exited_zero (test a)).
Qed.

Lemma attempt_except_continue (a : attempt_env) (n : N) (attempt : nat)
    (error : exn) (w : world) :
  attempt ≠ max_retries →
  attempt_except a n attempt error w
  = (Ret (Continue,
          Some (mkPrev (default "N/A" (evolution_script w)) (exn_msg error))),
     w).
Proof.
  intros H%Nat.eqb_neq. unfold attempt_except, script_or_na, bind, ret.
  by rewrite H.
Qed.

(** A failing attempt that is not the last one hands its failure to the
    next attempt. *)
Lemma failing_attempt (a : attempt_env) (version n : N) (task : string)
    (attempt : nat) (previous : option previous_attempt) (w : world) :
  attempt ≠ max_retries → cycle_passes a = false →
  ∃ w' previous',
    try_except (attempt_try cf a version n task attempt previous)
      (attempt_except a n attempt) w
    = (Ret (Continue, Some previous'), w')
    ∧ extends_by (cycle_events cf a version task previous) w w'.
Proof.
  intros Hne Hf. unfold try_except. rewrite attempt_try_run.
  unfold cycle_passes in Hf. unfold cycle_events.
  destruct (generated a) as [script|e].
  - cbv zeta. destruct (bash a) as [rc err|e].
    + simpl in Hf. destruct (rc =? 0)%Z eqn:Hrc.
      * simpl in Hf. rewrite Hf. unfold after_validation.
        apply Nat.eqb_neq in Hne. rewrite Hne.
        eexists _, _. split; [done|]. split; [|done]. simpl.
        by rewrite Hrc, <- !app_assoc.
      * rewrite attempt_except_continue by done.
        eexists _, _. split; [done|]. split; [|done]. simpl.
        by rewrite Hrc, <- !app_assoc.
    + rewrite attempt_except_continue by done.
      eexists _, _. split; [done|]. split; [|done]. simpl.
      by rewrite <- !app_assoc.
  - rewrite attempt_except_continue by done. eexists _, _. by split.
Qed.

Lemma git_run (a : attempt_env) (k : nat) (args : list string) (w : world) :
  git a k args w
  = (match git_fails a k with Some e => Exc e | None => Ret tt end,
     add_events [Git args] w).
Proof. unfold git, bind, emit, fails_with. simpl. by destruct (git_fails a k). Qed.

Lemma github_api_run (f : option exn) (req : gh_request) (w : world) :
  github_api f req w
  = match f with
    | Some e => (Exc e, add_events [Api req] w)
    | None => (Ret tt, applied req (add_events [Api req] w))
    end.
Proof. unfold github_api, bind, emit, fails_with. simpl. by destruct f. Qed.

Lemma os_execv_run {A} (a : attempt_env) (path : string) (w : world) :
  os_execv (A:=A) a path w
  = (match execv_fails a with Some e => Exc e | None => Replaced path end,
     add_events [Execv path] w).
Proof. unfold os_execv, bind, emit. simpl. by destruct (execv_fails a). Qed.

Lemma bind_run {A B} (m : M A) (k : A → M B) (w : world) :
  bind m k w
  = match m w with
    | (Ret x, w') => k x w'
    | (Exc e, w') => (Exc e, w')
    | (Replaced p, w') => (Replaced p, w')
    end.
Proof. done. Qed.

Lemma bind_assoc {A B C} (m : M A) (k : A → M B) (k' : B → M C) (w : world) :
  bind (bind m k) k' w = bind m (λ x, bind (k x) k') w.
Proof. unfold bind. by destruct (m w) as [[] ?]. Qed.

Lemma git_ok {B} (a : attempt_env) (k : nat) (args : list string)
    (f : unit → M B) (w : world) :
  git_fails a k = None →
  bind (git a k args) f w = f tt (add_events [Git args] w).
Proof. intros H. by rewrite bind_run, git_run, H. Qed.

Lemma git_raises {B} (a : attempt_env) (k : nat) (args : list string)
    (f : unit → M B) (w : world) (e : exn) :
  git_fails a k = Some e →
  bind (git a k args) f w = (Exc e, add_events [Git args] w).
Proof. intros H. by rewrite bind_run, git_run, H. Qed.

Lemma api_ok {B} (req : gh_request) (f : unit → M B) (w : world) :
  bind (github_api None req) f w
  = f tt (applied req (add_events [Api req] w)).
Proof. by rewrite bind_run, github_api_run. Qed.

Lemma api_raises {B} (req : gh_request) (f : unit → M B) (w : world)
    (e : exn) :
  bind (github_api (Some e) req) f w = (Exc e, add_events [Api req] w).
Proof. by rewrite bind_run, github_api_run. Qed.

Lemma is_cycle_cycle_events (a : attempt_env) (version : N) (task : string)
    (previous : option previous_attempt) :
  is_cycle (cycle_events cf a version task previous) = true.
Proof.
  unfold cycle_events. destruct (generated a); [|done].
  by destruct (exited_zero (bash a)).
Qed.

Lemma cycle_passes_inv (a : attempt_env) :
  cycle_passes a = true →
  ∃ script returncode stderr,
    generated a = Ok script ∧ bash a = Completed returncode stderr
    ∧ (returncode =? 0)%Z = true ∧ exited_zero (test a) = true.
Proof.
  unfold cycle_passes. destruct (generated a) as [script|]; [|done].
  destruct (bash a) as [rc err|]; [|done]. simpl.
  intros [? ?]%andb_true_iff. by eexists _, _, _.
Qed.

(** A passing attempt whose publication goes through replaces the
    process. *)
Lemma passing_attempt (a : attempt_env) (version n : N) (task : string)
    (attempt : nat) (previous : option previous_attempt) (w : world) :
  cycle_passes a = true → publishes a = true →
  ∃ w',
    try_except (attempt_try cf a version n task attempt previous)
      (attempt_except a n attempt) w
    = (Replaced (Registry.artifact_name version), w')
    ∧ trace w' = trace w ++ cycle_events cf a version task previous
                          ++ publish_events version n task attempt.
Proof.
  intros (script & rc & err & Hg & Hb & Hrc & Ht)%cycle_passes_inv Hp.
  unfold try_except. rewrite attempt_try_run. unfold cycle_events.
  rewrite Hg, Hb. cbv zeta. simpl exited_zero. rewrite Hrc, Ht.
  unfold publishes, publish_failure in Hp. simpl in Hp.
  unfold after_validation, create_pull_request.
  repeat match type of Hp with
         | context [git_fails a ?k] =>
             destruct (git_fails a k) eqn:?; [done|]
         | context [api_fails a ?k] =>
             destruct (api_fails a k) eqn:?; [done|]
         | context [execv_fails a] =>
             destruct (execv_fails a) eqn:?; [done|]
         end.
  repeat (rewrite ?bind_assoc;
          first [rewrite git_ok by done | rewrite api_ok]).
  rewrite os_execv_run.
  match goal with H : execv_fails a = None |- _ => rewrite H end.
  eexists. split; [done|]. simpl. by rewrite <- !app_assoc.
Qed.

Lemma attempt_except_last (a : attempt_env) (n : N) (e : exn) (w : world) :
  attempt_except a n max_retries e w
  = let previous' :=
      Some (mkPrev (default "N/A" (evolution_script w)) (exn_msg e)) in
    let w1 := add_events [Api (PostComment n (handler_comment e))] w in
    match api_fails a SiteHandlerComment with
    | Some e' => (Exc e', w1)
    | None =>
        let w2 := add_events [Api (AddLabels n ["agent-failed"])]
                    (applied (PostComment n (handler_comment e)) w1) in
        match api_fails a SiteHandlerLabel with
        | Some e' => (Exc e', w2)
        | None =>
            (Ret (Break, previous'),
             applied (AddLabels n ["agent-failed"]) w2)
        end
    end.
Proof.
  unfold attempt_except, script_or_na. rewrite bind_run. cbv beta iota zeta.
  rewrite Nat.eqb_refl.
  destruct (api_fails a SiteHandlerComment); [by rewrite api_raises|].
  rewrite api_ok.
  destruct (api_fails a SiteHandlerLabel); [by rewrite api_raises|].
  by rewrite api_ok.
Qed.

Lemma after_validation_failed_last (a : attempt_env) (version n : N)
    (task script : string) (w : world) :
  after_validation a version n task script max_retries false w
  = let previous' := Some (mkPrev script test_failed_error) in
    let w1 := add_events [Api (PostComment n giveup_comment)] w in
    match api_fails a SiteGiveUpComment with
    | Some e' => (Exc e', w1)
    | None =>
        let w2 := add_events [Api (AddLabels n ["agent-failed"])]
                    (applied (PostComment n giveup_comment) w1) in
        match api_fails a SiteGiveUpLabel with
        | Some e' => (Exc e', w2)
        | None =>
            (Ret (Break, previous'),
             applied (AddLabels n ["agent-failed"]) w2)
        end
    end.
Proof.
  unfold after_validation. rewrite Nat.eqb_refl. cbv zeta.
  destruct (api_fails a SiteGiveUpComment); [by rewrite api_raises|].
  rewrite api_ok.
  destruct (api_fails a SiteGiveUpLabel); [by rewrite api_raises|].
  by rewrite api_ok.
Qed.

(** The last attempt, when it fails, enters the give-up path: the next
    call is one of the two give-up comments, and no attempt follows. *)
Lemma last_attempt_fails (a : attempt_env) (version n : N) (task : string)
    (previous : option previous_attempt) (w : world) :
  cycle_passes a = false →
  ∃ o w' c tail,
    try_except (attempt_try cf a version n task max_retries previous)
      (attempt_except a n max_retries) w = (o, w')
    ∧ trace w' = trace w ++ cycle_events cf a version task previous
                          ++ Api (PostComment n c) :: tail
    ∧ is_giveup_comment c
    ∧ attempts_begun tail = 0
    ∧ (∀ p, o ≠ Replaced p)
    ∧ (api_fails a SiteGiveUpComment = None →
       api_fails a SiteGiveUpLabel = None →
       api_fails a SiteHandlerComment = None →
       api_fails a SiteHandlerLabel = None →
       (∃ previous', o = Ret (Break, previous'))
       ∧ tail = [Api (AddLabels n ["agent-failed"])]).
Proof.
  intros Hf. unfold try_except. rewrite attempt_try_run.
  unfold cycle_passes in Hf. unfold cycle_events.
  assert (∀ e w0 evs,
            trace w0 = trace w ++ evs → attempts_begun [] = 0 →
            ∃ o w' c tail,
              attempt_except a n max_retries e w0 = (o, w')
              ∧ trace w' = trace w ++ evs ++ Api (PostComment n c) :: tail
              ∧ is_giveup_comment c ∧ attempts_begun tail = 0
              ∧ (∀ p, o ≠ Replaced p)
              ∧ (api_fails a SiteHandlerComment = None →
                 api_fails a SiteHandlerLabel = None →
                 (∃ previous', o = Ret (Break, previous'))
                 ∧ tail = [Api (AddLabels n ["agent-failed"])])) as Hh.
  { intros e w0 evs Hw0 _. rewrite attempt_except_last. cbv zeta.
    destruct (api_fails a SiteHandlerComment) as [e1|];
      [|destruct (api_fails a SiteHandlerLabel) as [e2|]];
      eexists _, _, (handler_comment e), _;
      (split; [reflexivity|]); trace_norm; rewrite Hw0;
      rewrite <- ?app_assoc;
      (split; [reflexivity|]);
      (split; [right; by eexists|]);
      (split; [reflexivity|]); (split; [done|]); intros; try done.
    split; [by eexists|done]. }
  destruct (generated a) as [script|e].
  - cbv zeta. destruct (bash a) as [rc err|e].
    + simpl in Hf. destruct (rc =? 0)%Z eqn:Hrc.
      * simpl in Hf. rewrite Hf, after_validation_failed_last. cbv zeta.
        destruct (api_fails a SiteGiveUpComment) as [e1|] eqn:E1.
        { edestruct (Hh e1) as (o & w' & c & tail & -> & Ht & Hc & Hn & Ho & _);
            [trace_norm; reflexivity|done|].
          eexists o, w', giveup_comment, _.
          split; [done|]. split; [|split; [by left|]].
          - rewrite Ht. simpl. rewrite ?Hrc. by rewrite <- ?app_assoc.
          - split; [|split; [done|intros; done]].
            unfold attempts_begun in *. simpl. done. }
        destruct (api_fails a SiteGiveUpLabel) as [e2|] eqn:E2.
        { edestruct (Hh e2) as (o & w' & c & tail & -> & Ht & Hc & Hn & Ho & _);
            [trace_norm; reflexivity|done|].
          eexists o, w', giveup_comment, _.
          split; [done|]. split; [|split; [by left|]].
          - rewrite Ht. simpl. rewrite ?Hrc. by rewrite <- ?app_assoc.
          - split; [|split; [done|intros; done]].
            unfold attempts_begun in *. simpl. done. }
        eexists _, _, giveup_comment, _. split; [done|].
        split; [trace_norm; simpl; by rewrite Hrc|].
        split; [by left|]. split; [done|]. split; [done|].
        intros. split; [by eexists|done].
      * edestruct (Hh (mkExn PlainException
                         ("Evolution script failed: " +:+ err)))
          as (o & w' & c & tail & -> & Ht & Hc & Hn & Ho & Hok);
          [trace_norm; reflexivity|done|].
        eexists o, w', c, tail. split; [done|]. split.
        { rewrite Ht. simpl. rewrite ?Hrc. by rewrite <- ?app_assoc. }
        split; [done|]. split; [done|]. split; [done|]. intros; by apply Hok.
    + edestruct (Hh e) as (o & w' & c & tail & -> & Ht & Hc & Hn & Ho & Hok);
        [trace_norm; reflexivity|done|].
      eexists o, w', c, tail. split; [done|]. split.
      { rewrite Ht. simpl. by rewrite <- ?app_assoc. }
      split; [done|]. split; [done|]. split; [done|]. intros; by apply Hok.
  - edestruct (Hh e) as (o & w' & c & tail & -> & Ht & Hc & Hn & Ho & Hok);
      [trace_norm; reflexivity|done|].
    eexists o, w', c, tail. split; [done|]. split.
    { rewrite Ht. simpl. by rewrite <- ?app_assoc. }
    split; [done|]. split; [done|]. split; [done|]. intros; by apply Hok.
Qed.

End AttemptFacts.


(** * Invariants of the task loop *)

Section Preserves.

Context (cf : string) (version : N).
Context (R : world → world → Prop) `{!PreOrder R}.
Context (ok_req : gh_request → Prop).

Hypothesis R_emit :
  ∀ e w, uses_version version e → R w (add_events [e] w).
Hypothesis R_api :
  ∀ f req w, ok_req req → R w (github_api f req w).2.
Hypothesis R_local :
  ∀ w f s, R w (mkWorld f (tracker w) (trace w) s).

Lemma preserves_ret {A} (x : A) : preserves R (ret x).
Proof. intros w. reflexivity. Qed.

Lemma preserves_raise {A} (e : exn) : preserves R (raise (A:=A) e).
Proof. intros w. reflexivity. Qed.

Lemma preserves_bind {A B} (m : M A) (k : A → M B) :
  preserves R m → (∀ x, preserves R (k x)) → preserves R (bind m k).
Proof.
  intros Hm Hk w. unfold bind. specialize (Hm w).
  destruct (m w) as [[x|e|p] w']; simpl in *; [|done|done].
  etrans; [done|]. apply Hk.
Qed.

Lemma preserves_try {A} (m : M A) (h : exn → M A) :
  preserves R m → (∀ e, preserves R (h e)) → preserves R (try_except m h).
Proof.
  intros Hm Hh w. unfold try_except. specialize (Hm w).
  destruct (m w) as [[x|e|p] w']; simpl in *; [done| |done].
  etrans; [done|]. apply Hh.
Qed.

Lemma preserves_lift {A} (r : result A) : preserves R (lift r).
Proof. destruct r; [apply preserves_ret|apply preserves_raise]. Qed.

Lemma preserves_fails_with (f : option exn) : preserves R (fails_with f).
Proof. destruct f; [apply preserves_raise|apply preserves_ret]. Qed.

Lemma preserves_emit (e : event) :
  uses_version version e → preserves R (emit e).
Proof. intros He w. by apply R_emit. Qed.

Lemma preserves_api (f : option exn) (req : gh_request) :
  ok_req req → preserves R (github_api f req).
Proof. intros Hr w. by apply R_api. Qed.

Lemma preserves_bind_post {A B} (P : A → Prop) (m : M A) (k : A → M B) :
  preserves R m → (∀ w x, (m w).1 = Ret x → P x) →
  (∀ x, P x → preserves R (k x)) → preserves R (bind m k).
Proof.
  intros Hm HP Hk w. unfold bind. specialize (Hm w). specialize (HP w).
  destruct (m w) as [[x|e|p] w']; simpl in *; [|done|done].
  etrans; [done|]. by apply Hk, HP.
Qed.

Create HintDb preserves.

Hint Resolve preserves_ret preserves_raise preserves_lift
  preserves_fails_with preserves_emit preserves_api : preserves.

Ltac preserves_step :=
  lazymatch goal with
  | |- preserves _ (bind _ _) => apply preserves_bind; [|intros]
  | |- preserves _ (try_except _ _) => apply preserves_try; [|intros]
  | |- preserves _ (if ?b then _ else _) => destruct b
  | |- preserves _ (match ?x with _ => _ end) => destruct x
  | |- preserves _ (emit _) => apply preserves_emit; done
  | |- preserves _ (github_api _ _) => apply preserves_api
  | |- preserves _ _ => solve [eauto with preserves]
  end.

Lemma preserves_generate (a : attempt_env) (task : string)
    (previous : option previous_attempt) :
  preserves R (generate_evolution_script a task previous).
Proof. unfold generate_evolution_script. repeat preserves_step. Qed.

Lemma preserves_create (a : attempt_env) (script : string) :
  preserves R (create_new_version cf a script version).
Proof.
  unfold create_new_version, write_file, run_bash.
  repeat preserves_step; try (intros w; apply R_local).
Qed.

Lemma preserves_test (a : attempt_env) :
  preserves R (test_new_version a (Registry.artifact_name version)).
Proof. unfold test_new_version. repeat preserves_step. Qed.

Lemma preserves_git (a : attempt_env) (k : nat) (args : list string) :
  preserves R (git a k args).
Proof. unfold git. repeat preserves_step. Qed.

Lemma preserves_execv {A} (a : attempt_env) :
  preserves R (os_execv (A:=A) a (Registry.artifact_name version)).
Proof.
  unfold os_execv. repeat preserves_step. intros w. reflexivity.
Qed.

Lemma preserves_pull_request (a : attempt_env) (task branch : string) :
  (∀ t b h base, ok_req (CreatePull t b h base)) →
  preserves R (create_pull_request a version task branch).
Proof.
  intros Hr. unfold create_pull_request.
  repeat first [apply preserves_git | preserves_step]. apply Hr.
Qed.

Lemma create_returns (a : attempt_env) (script : string) (w : world)
    (path : string) :
  (create_new_version cf a script version w).1 = Ret path →
  path = Registry.artifact_name version.
Proof.
  unfold create_new_version, write_file, run_bash, bind, emit, ret, raise.
  simpl. destruct (bash a) as [rc err|e]; [|done].
  destruct (rc =? 0)%Z; [|done]. by intros [= <-].
Qed.

Lemma preserves_attempt_try (a : attempt_env) (n : N) (task : string)
    (attempt : nat) (previous : option previous_attempt) :
  (∀ req, loop_request n req → ok_req req) →
  preserves R (attempt_try cf a version n task attempt previous).
Proof.
  intros Hr. unfold attempt_try.
  apply preserves_bind; [apply preserves_generate|intros script].
  apply preserves_bind; [intros w; apply R_local|intros _].
  apply (preserves_bind_post (λ path, path = Registry.artifact_name version));
    [apply preserves_create|apply create_returns|intros path ->].
  apply preserves_bind; [apply preserves_test|intros passed].
  destruct passed.
  - apply preserves_bind;
      [apply preserves_pull_request; intros; by apply Hr|intros _].
    apply preserves_bind; [apply preserves_api; by apply Hr|intros _].
    apply preserves_bind; [apply preserves_api; by apply Hr|intros _].
    apply preserves_execv.
  - destruct (attempt =? max_retries)%nat; [|apply preserves_ret].
    apply preserves_bind; [apply preserves_api; by apply Hr|intros _].
    apply preserves_bind; [apply preserves_api; by apply Hr|intros _].
    apply preserves_ret.
Qed.

Lemma preserves_after_validation (a : attempt_env) (n : N)
    (task script : string) (attempt : nat) (passed : bool) :
  (∀ req, loop_request n req → ok_req req) →
  preserves R (after_validation a version n task script attempt passed).
Proof.
  intros Hr. unfold after_validation. destruct passed.
  - apply preserves_bind;
      [apply preserves_pull_request; intros; by apply Hr|intros _].
    apply preserves_bind; [apply preserves_api; by apply Hr|intros _].
    apply preserves_bind; [apply preserves_api; by apply Hr|intros _].
    apply preserves_execv.
  - destruct (attempt =? max_retries)%nat; [|apply preserves_ret].
    apply preserves_bind; [apply preserves_api; by apply Hr|intros _].
    apply preserves_bind; [apply preserves_api; by apply Hr|intros _].
    apply preserves_ret.
Qed.

Lemma preserves_attempt_except (a : attempt_env) (n : N) (attempt : nat)
    (error : exn) :
  (∀ req, loop_request n req → ok_req req) →
  preserves R (attempt_except a n attempt error).
Proof.
  intros Hr. unfold attempt_except, script_or_na.
  apply preserves_bind; [intros w; reflexivity|intros script].
  destruct (attempt =? max_retries)%nat; [|apply preserves_ret].
  apply preserves_bind; [apply preserves_api; by apply Hr|intros _].
  apply preserves_bind; [apply preserves_api; by apply Hr|intros _].
  apply preserves_ret.
Qed.

Lemma preserves_attempt_loop (ie : issue_env) (n : N) (task : string)
    (todo : list nat) (previous : option previous_attempt) :
  (∀ req, loop_request n req → ok_req req) →
  preserves R (attempt_loop cf ie version n task todo previous).
Proof.
  intros Hr. revert previous.
  induction todo as [|attempt rest IH]; intros previous;
    [apply preserves_ret|].
  cbn [attempt_loop]. apply preserves_bind.
  - apply preserves_try; [by apply preserves_attempt_try|].
    intros e. by apply preserves_attempt_except.
  - intros [[] previous']; [apply preserves_ret|apply IH].
Qed.

Lemma preserves_process_issue (ie : issue_env) (i : issue) :
  (∀ req, ok_req req) →
  preserves R (process_issue cf ie version i).
Proof.
  intros Hr. unfold process_issue.
  destruct (_ && _); [apply preserves_ret|].
  apply preserves_bind.
  - destruct (bool_decide _); [|apply preserves_ret].
    apply preserves_bind; [by apply preserves_api|intros _].
    by apply preserves_api.
  - intros _. by apply preserves_attempt_loop.
Qed.

Lemma preserves_for_issues (se : scan_env) (idx : nat) (issues : list issue) :
  (∀ req, ok_req req) →
  preserves R (for_issues cf se version idx issues).
Proof.
  intros Hr. revert idx. induction issues as [|i rest IH]; intros idx;
    [apply preserves_ret|].
  cbn [for_issues]. apply preserves_bind;
    [by apply preserves_process_issue|intros _; apply IH].
Qed.

End Preserves.


Section Invariants.

Context (cf : string).

Lemma labels_step_preorder (n : N) : PreOrder (labels_step n).
Proof.
  split.
  - intros w. exists []. split; [by rewrite app_nil_r|].
    intros ls' H. exists ls'. split; [done|]. split; [set_solver|by left].
  - intros w1 w2 w3 (evs1 & Ht1 & H1) (evs2 & Ht2 & H2).
    exists (evs1 ++ evs2). split; [by rewrite Ht2, Ht1, app_assoc|].
    intros ls3 H3. destruct (H2 ls3 H3) as (ls2 & Hl2 & Hs2 & Hf2).
    destruct (H1 ls2 Hl2) as (ls1 & Hl1 & Hs1 & Hf1).
    exists ls1. split; [done|]. split.
    { intros x Hx. apply Hs2 in Hx. apply elem_of_union in Hx as [Hx|Hx];
        [by apply Hs1|by apply elem_of_union_r]. }
    intros Hin. rewrite elem_of_app.
    destruct (Hf2 Hin) as [Hin2|?]; [|tauto].
    destruct (Hf1 Hin2); tauto.
Qed.

Lemma version_step_preorder (v : N) : PreOrder (version_step v).
Proof.
  split.
  - intros w. exists []. by rewrite app_nil_r.
  - intros w1 w2 w3 (evs1 & Ht1 & H1) (evs2 & Ht2 & H2).
    exists (evs1 ++ evs2). split; [by rewrite Ht2, Ht1, app_assoc|].
    by apply Forall_app.
Qed.

#[global] Existing Instances labels_step_preorder version_step_preorder.

Lemma labels_of_alter (n m : N) (f : issue_state → issue_state)
    (g : gset string → gset string) (t : gmap N issue_state) :
  (∀ i, st_labels (f i) = g (st_labels i)) →
  st_labels <$> alter f m t !! n
  = if decide (m = n) then g <$> (st_labels <$> t !! n)
    else st_labels <$> t !! n.
Proof.
  intros Hf. rewrite lookup_alter. destruct (decide (m = n)) as [->|]; [|done].
  destruct (t !! n); simpl; [|done]. by rewrite Hf.
Qed.

Lemma labels_step_emit (n : N) (e : event) (w : world) :
  labels_step n w (add_events [e] w).
Proof.
  exists [e]. split; [done|]. intros ls' H. exists ls'.
  split; [done|]. split; [set_solver|by left].
Qed.

Lemma labels_step_local (n : N) (w : world) (f : gmap string string)
    (s : option string) :
  labels_step n w (mkWorld f (tracker w) (trace w) s).
Proof.
  exists []. split; [by rewrite app_nil_r|]. intros ls' H. exists ls'.
  split; [done|]. split; [set_solver|by left].
Qed.

Lemma labels_step_api (n : N) (f : option exn) (req : gh_request) (w : world) :
  loop_request n req → labels_step n w (github_api f req w).2.
Proof.
  intros Hr. rewrite github_api_run. destruct f as [e|];
    [apply labels_step_emit|].
  exists [Api req]. split; [done|]. unfold labels_of.
  cbn [snd tracker applied add_events].
  destruct req as [|m l|m body|m ls|m|t b h base]; simpl in Hr; try done.
  - subst m. cbn [apply_request].
    rewrite (labels_of_alter n n _ id) by done.
    rewrite decide_True by done. intros ls'. rewrite option_fmap_id.
    intros H. exists ls'. split; [done|]. split; [set_solver|by left].
  - destruct Hr as [-> ->]. cbn [apply_request].
    rewrite (labels_of_alter n n _ (λ x, x ∪ list_to_set ["agent-failed"]))
      by done.
    rewrite decide_True by done. intros ls'.
    destruct (tracker w !! n) as [i|]; simpl; [|done].
    intros [= <-]. exists (st_labels i). split; [done|].
    split; [set_solver|]. intros _. right. by left.
  - subst m. cbn [apply_request].
    rewrite (labels_of_alter n n _ id) by done.
    rewrite decide_True by done. intros ls'. rewrite option_fmap_id.
    intros H. exists ls'. split; [done|]. split; [set_solver|by left].
  - cbn [apply_request]. intros ls' H. exists ls'.
    split; [done|]. split; [set_solver|by left].
Qed.

(** The attempts of an issue change its labels at most by the recorded
    addition of the failure label. *)
Lemma attempt_loop_labels (ie : issue_env) (version n : N) (task : string)
    (todo : list nat) (previous : option previous_attempt) (w : world) :
  labels_step n w (attempt_loop cf ie version n task todo previous w).2.
Proof.
  apply (preserves_attempt_loop cf version (labels_step n) (loop_request n));
    try done.
  - intros e w' _. apply labels_step_emit.
  - intros f req w'. apply labels_step_api.
  - intros w' f s. apply labels_step_local.
Qed.

Lemma version_step_emit (v : N) (e : event) (w : world) :
  uses_version v e → version_step v w (add_events [e] w).
Proof. intros He. exists [e]. split; [done|]. by apply Forall_singleton. Qed.

Lemma version_step_local (v : N) (w : world) (f : gmap string string)
    (s : option string) :
  version_step v w (mkWorld f (tracker w) (trace w) s).
Proof. exists []. by rewrite app_nil_r. Qed.

Lemma version_step_api (v : N) (f : option exn) (req : gh_request)
    (w : world) :
  version_step v w (github_api f req w).2.
Proof.
  rewrite github_api_run. exists [Api req].
  split; [by destruct f|]. by apply Forall_singleton.
Qed.

(** Every call of an attempt loop uses the version it was given. *)
Lemma attempt_loop_version (ie : issue_env) (version n : N) (task : string)
    (todo : list nat) (previous : option previous_attempt) (w : world) :
  version_step version w
    (attempt_loop cf ie version n task todo previous w).2.
Proof.
  apply (preserves_attempt_loop cf version (version_step version)
           (λ _, True)); try done.
  - intros e w'. apply version_step_emit.
  - intros f req w' _. apply version_step_api.
  - intros w' f s. apply version_step_local.
Qed.

Lemma attempt_except_version (a : attempt_env) (version n : N)
    (attempt : nat) (e : exn) (w : world) :
  version_step version w (attempt_except a n attempt e w).2.
Proof.
  apply (preserves_attempt_except (version_step version) (λ _, True)
           (λ f req w _, version_step_api version f req w)).
  done.
Qed.

Lemma after_validation_version (a : attempt_env) (version n : N)
    (task script : string) (attempt : nat) (passed : bool) (w : world) :
  version_step version w
    (after_validation a version n task script attempt passed w).2.
Proof.
  apply (preserves_after_validation version (version_step version)
           (λ _, True) (version_step_emit version)
           (λ f req w _, version_step_api version f req w)).
  done.
Qed.

Lemma for_issues_version (se : scan_env) (version : N) (idx : nat)
    (issues : list issue) (w : world) :
  version_step version w (for_issues cf se version idx issues w).2.
Proof.
  apply (preserves_for_issues cf version (version_step version)
           (λ _, True)); try done.
  - intros e w'. apply version_step_emit.
  - intros f req w' _. apply version_step_api.
  - intros w' f s. apply version_step_local.
Qed.

End Invariants.


Section LoopFacts.

Context (cf : string).

Lemma attempt_loop_cons (ie : issue_env) (version n : N) (task : string)
    (attempt : nat) (rest : list nat) (previous : option previous_attempt)
    (w : world) :
  attempt_loop cf ie version n task (attempt :: rest) previous w
  = match try_except
            (attempt_try cf (attempts ie attempt) version n task attempt
               previous)
            (attempt_except (attempts ie attempt) n attempt) w with
    | (Ret (Break, _), w') => (Ret tt, w')
    | (Ret (Continue, previous'), w') =>
        attempt_loop cf ie version n task rest previous' w'
    | (Exc e, w') => (Exc e, w')
    | (Replaced p, w') => (Replaced p, w')
    end.
Proof.
  cbn [attempt_loop]. rewrite bind_run.
  by destruct (try_except _ _ w) as [[[[] ?]| |] ?].
Qed.

(** The loop after a failing attempt that is not the last. *)
Lemma attempt_loop_fail (ie : issue_env) (version n : N) (task : string)
    (attempt : nat) (rest : list nat) (previous : option previous_attempt)
    (w : world) :
  attempt ≠ max_retries → cycle_passes (attempts ie attempt) = false →
  ∃ w' previous',
    attempt_loop cf ie version n task (attempt :: rest) previous w
    = attempt_loop cf ie version n task rest (Some previous') w'
    ∧ extends_by
        (cycle_events cf (attempts ie attempt) version task previous) w w'.
Proof.
  intros Hne Hf.
  destruct (failing_attempt cf (attempts ie attempt) version n task attempt
              previous w Hne Hf) as (w' & p' & E & Hx).
  exists w', p'. by rewrite attempt_loop_cons, E.
Qed.

(** The loop at a passing attempt whose publication goes through. *)
Lemma attempt_loop_pass (ie : issue_env) (version n : N) (task : string)
    (attempt : nat) (rest : list nat) (previous : option previous_attempt)
    (w : world) :
  cycle_passes (attempts ie attempt) = true →
  publishes (attempts ie attempt) = true →
  ∃ w',
    attempt_loop cf ie version n task (attempt :: rest) previous w
    = (Replaced (Registry.artifact_name version), w')
    ∧ trace w' = trace w
        ++ cycle_events cf (attempts ie attempt) version task previous
        ++ publish_events version n task attempt.
Proof.
  intros Hc Hp.
  destruct (passing_attempt cf (attempts ie attempt) version n task attempt
              previous w Hc Hp) as (w' & E & Ht).
  exists w'. by rewrite attempt_loop_cons, E.
Qed.

(** The loop at a failing last attempt. *)
Lemma attempt_loop_giveup (ie : issue_env) (version n : N) (task : string)
    (rest : list nat) (previous : option previous_attempt) (w : world) :
  cycle_passes (attempts ie max_retries) = false →
  ∃ o w' c tail,
    attempt_loop cf ie version n task [max_retries] previous w = (o, w')
    ∧ trace w' = trace w
        ++ cycle_events cf (attempts ie max_retries) version task previous
        ++ Api (PostComment n c) :: tail
    ∧ is_giveup_comment c
    ∧ attempts_begun tail = 0
    ∧ (∀ p, o ≠ Replaced p).
Proof.
  intros Hf.
  destruct (last_attempt_fails cf (attempts ie max_retries) version n task
              previous w Hf) as (o & w' & c & tail & E & Ht & Hc & Hn & Ho & _).
  rewrite attempt_loop_cons, E.
  destruct o as [[[] p']|e|p].
  - by exists (Ret tt), w', c, tail.
  - by exists (Ret tt), w', c, tail.
  - by exists (Exc e), w', c, tail.
  - by destruct (Ho p).
Qed.

End LoopFacts.


Section PublishFailure.

Context (cf : string).

Lemma labels_of_applied_comment (n m : N) (c : string) (w : world) :
  labels_of n (applied (PostComment m c) w) = labels_of n w.
Proof.
  unfold labels_of. cbn [tracker applied apply_request].
  rewrite (labels_of_alter n m _ id) by done.
  destruct (decide (m = n)); [|done]. apply option_fmap_id.
Qed.

Lemma is_open_applied_comment (n m : N) (c : string) (w : world) :
  is_open n (applied (PostComment m c) w) = is_open n w.
Proof.
  unfold is_open. cbn [tracker applied apply_request].
  rewrite lookup_alter. destruct (decide (m = n)) as [->|]; [|done].
  by destruct (tracker w !! n).
Qed.

Lemma labels_of_add_events (n : N) (evs : list event) (w : world) :
  labels_of n (add_events evs w) = labels_of n w.
Proof. done. Qed.

Lemma is_open_add_events (n : N) (evs : list event) (w : world) :
  is_open n (add_events evs w) = is_open n w.
Proof. done. Qed.

Lemma labels_of_built (n : N) (a : attempt_env) (script : string)
    (version : N) (w : world) :
  labels_of n (built cf a script version w) = labels_of n w.
Proof. done. Qed.

Lemma is_open_built (n : N) (a : attempt_env) (script : string)
    (version : N) (w : world) :
  is_open n (built cf a script version w) = is_open n w.
Proof. done. Qed.

Lemma labels_of_applied_pull (n : N) (t b h base : string) (w : world) :
  labels_of n (applied (CreatePull t b h base) w) = labels_of n w.
Proof. done. Qed.

Lemma is_open_applied_pull (n : N) (t b h base : string) (w : world) :
  is_open n (applied (CreatePull t b h base) w) = is_open n w.
Proof. done. Qed.

Lemma labels_of_applied_add (n : N) (ls : list string) (w : world) :
  labels_of n (applied (AddLabels n ls) w)
  = (λ x, x ∪ list_to_set ls) <$> labels_of n w.
Proof.
  unfold labels_of. cbn [tracker applied apply_request].
  rewrite (labels_of_alter n n _ (λ x, x ∪ list_to_set ls)) by done.
  by rewrite decide_True.
Qed.

Lemma is_open_applied_add (n m : N) (ls : list string) (w : world) :
  is_open n (applied (AddLabels m ls) w) = is_open n w.
Proof.
  unfold is_open. cbn [tracker applied apply_request].
  rewrite lookup_alter. destruct (decide (m = n)) as [->|]; [|done].
  by destruct (tracker w !! n).
Qed.

Lemma labels_of_applied_delete (n : N) (l : string) (w : world) :
  labels_of n (applied (DeleteLabel n l) w)
  = (λ x, x ∖ {[l]}) <$> labels_of n w.
Proof.
  unfold labels_of. cbn [tracker applied apply_request].
  rewrite (labels_of_alter n n _ (λ x, x ∖ {[l]})) by done.
  by rewrite decide_True.
Qed.

Ltac finish_publish :=
  eexists _, _; split; [reflexivity|]; split; [reflexivity|];
  split;
  [ trace_norm; reflexivity
  | split; [by eexists|];
    split; [reflexivity|];
    repeat rewrite ?is_open_add_events, ?labels_of_add_events,
      ?is_open_built, ?labels_of_built, ?is_open_applied_pull,
      ?labels_of_applied_pull, ?is_open_applied_comment,
      ?labels_of_applied_comment;
    split; reflexivity ].
Ltac publish_step Hp f :=
  rewrite ?bind_assoc;
  destruct f as [e'|] eqn:?;
  [ injection Hp as ->;
    first [erewrite git_raises by eassumption | rewrite api_raises];
    finish_publish
  | first [rewrite git_ok by done | rewrite api_ok] ].

(** A publish step that raises hands the exception to the handler of the
    attempt; until then only publish calls were made, and neither the
    labels nor the state of the issue changed. *)
Lemma publish_fails_attempt (a : attempt_env) (version n : N) (task : string)
    (attempt : nat) (previous : option previous_attempt) (w : world)
    (e : exn) :
  cycle_passes a = true → publish_failure a = Some e →
  ∃ script w2 evs,
    generated a = Ok script
    ∧ try_except (attempt_try cf a version n task attempt previous)
        (attempt_except a n attempt) w
      = attempt_except a n attempt e w2
    ∧ trace w2 = trace w ++ cycle_events cf a version task previous ++ evs
    ∧ evs `prefix_of` publish_events version n task attempt
    ∧ evolution_script w2 = Some script
    ∧ is_open n w2 = is_open n w
    ∧ labels_of n w2 = labels_of n w.
Proof.
  intros (script & rc & err & Hg & Hb & Hrc & Ht)%cycle_passes_inv Hp.
  unfold try_except. rewrite attempt_try_run. unfold cycle_events.
  rewrite Hg, Hb. cbv zeta. simpl exited_zero. rewrite Hrc, Ht.
  unfold publish_failure in Hp. cbn [foldr] in Hp.
  unfold after_validation, create_pull_request.
  exists script.
  publish_step Hp (git_fails a 0).
  publish_step Hp (git_fails a 1).
  publish_step Hp (git_fails a 2).
  publish_step Hp (git_fails a 3).
  publish_step Hp (git_fails a 4).
  publish_step Hp (git_fails a 5).
  publish_step Hp (api_fails a SitePull).
  publish_step Hp (git_fails a 6).
  publish_step Hp (api_fails a SiteSuccessComment).
  publish_step Hp (api_fails a SiteClose).
  done.
Qed.

End PublishFailure.


Section TraceOrder.

Context (cf : string).

Lemma version_step_grows (v : N) (w w' : world) :
  version_step v w w' → ∃ evs, trace w' = trace w ++ evs.
Proof. intros (evs & H & _). eauto. Qed.

(** Whatever an attempt does, its first call is the model call with the
    failure context it was given. *)
Lemma attempt_starts (a : attempt_env) (version n : N) (task : string)
    (attempt : nat) (previous : option previous_attempt) (w : world) :
  ∃ evs,
    trace (try_except (attempt_try cf a version n task attempt previous)
             (attempt_except a n attempt) w).2
    = trace w ++ CallModel task previous :: evs.
Proof.
  assert (∀ e w0, ∃ evs, trace (attempt_except a n attempt e w0).2
                         = trace w0 ++ evs) as Hh.
  { intros e w0. apply (version_step_grows version).
    apply attempt_except_version. }
  unfold try_except. rewrite attempt_try_run.
  destruct (generated a) as [script|e].
  - cbv zeta. destruct (bash a) as [rc err|e].
    + destruct (rc =? 0)%Z.
      * set (w1 := add_events _ (built _ _ _ _ _)).
        destruct (version_step_grows version w1
                    (after_validation a version n task script attempt
                       (exited_zero (test a)) w1).2) as [evs1 H1].
        { apply after_validation_version. }
        destruct (after_validation _ _ _ _ _ _ _ w1) as [[x|e|p] w2];
          simpl in H1.
        -- eexists. simpl. rewrite H1. subst w1. trace_norm. reflexivity.
        -- destruct (Hh e w2) as [evs2 H2]. eexists. rewrite H2, H1.
           subst w1. trace_norm. reflexivity.
        -- eexists. simpl. rewrite H1. subst w1. trace_norm. reflexivity.
      * destruct (Hh (mkExn PlainException
                        ("Evolution script failed: " +:+ err))
                    (built cf a script version
                       (add_events [CallModel task previous] w)))
          as [evs2 H2].
        eexists. rewrite H2. trace_norm. reflexivity.
    + destruct (Hh e (built cf a script version
                        (add_events [CallModel task previous] w)))
        as [evs2 H2].
      eexists. rewrite H2. trace_norm. reflexivity.
  - destruct (Hh e (add_events [CallModel task previous] w)) as [evs2 H2].
    eexists. rewrite H2. trace_norm. reflexivity.
Qed.

Lemma attempt_loop_starts (ie : issue_env) (version n : N) (task : string)
    (attempt : nat) (rest : list nat) (previous : option previous_attempt)
    (w : world) :
  ∃ evs,
    trace (attempt_loop cf ie version n task (attempt :: rest) previous w).2
    = trace w ++ CallModel task previous :: evs.
Proof.
  rewrite attempt_loop_cons.
  destruct (attempt_starts (attempts ie attempt) version n task attempt
              previous w) as [evs H].
  destruct (try_except _ _ w) as [[[[] p']|e|p] w1]; simpl in H; eauto.
  destruct (version_step_grows version w1
              (attempt_loop cf ie version n task rest p' w1).2) as [evs2 H2];
    [apply attempt_loop_version|].
  eexists. rewrite H2, H. by rewrite <- app_assoc.
Qed.

End TraceOrder.


(** * The claims *)

(** C2.  Version registry.  In every state of the working directory
    [get_next_version] returns, leaves the state as it is and gives the
    same value when called again; the value is greater than every version
    carried by an artifact name of the listing, it is one more than such a
    version when there is one, and it is 1 when there is none.  The name
    [agent_v<n>.py] carries version [n]. *)
Theorem next_version_is_max_plus_one (w : world) :
  ∃ v : N,
    get_next_version w = (Ret v, w)
    ∧ (get_next_version ;; get_next_version) w = (Ret v, w)
    ∧ (∀ f n, f ∈ listdir w → Registry.embedded_version f = Some n →
              (n < v)%N)
    ∧ ((∀ f, f ∈ listdir w → Registry.embedded_version f = None) →
       v = 1%N)
    ∧ ((∃ f, f ∈ listdir w ∧ is_Some (Registry.embedded_version f)) →
       ∃ f, f ∈ listdir w
            ∧ Registry.embedded_version f = Some (v - 1)%N ∧ (0 < v)%N)
    ∧ ∀ n, Registry.embedded_version (Registry.artifact_name n) = Some n.
Proof.
  set (vs := omap Registry.embedded_version (listdir w)).
  assert (∀ n, n ∈ vs ↔
               ∃ f, f ∈ listdir w ∧ Registry.embedded_version f = Some n)
    as Hvs by (intros n; apply list_elem_of_omap).
  assert (get_next_version w
          = (Ret match vs with
                 | [] => 1%N
                 | v :: vs' => (Registry.py_max v vs' + 1)%N
                 end, w)) as Hrun.
  { unfold get_next_version. by rewrite get_next_version_value. }
  eexists. split; [exact Hrun|].
  split; [by rewrite bind_run, Hrun|].
  split; [|split; [|split; [|apply embedded_version_artifact]]].
  - intros f n Hf Hn.
    assert (n ∈ vs) as Hin by (apply Hvs; eauto).
    destruct vs as [|v vs']; [by apply elem_of_nil in Hin|].
    pose proof (py_max_ge v vs' n Hin). lia.
  - intros Hnone. destruct vs as [|v vs']; [done|].
    assert (v ∈ v :: vs') as Hin by left.
    apply Hvs in Hin as (f & Hf & Hv). rewrite Hnone in Hv; done.
  - intros (f & Hf & n & Hn).
    assert (n ∈ vs) as Hin by (apply Hvs; eauto).
    destruct vs as [|v vs']; [by apply elem_of_nil in Hin|].
    pose proof (py_max_in v vs') as Hmax.
    apply Hvs in Hmax as (g & Hg & Hgv). exists g.
    split; [done|]. split; [|lia].
    rewrite Hgv. f_equal. lia.
Qed.

(** C3.  Validator.  [test_new_version] always returns a boolean, having
    made the one call that runs the artifact with [--test]; the boolean is
    true exactly when the child ended with return code 0, and a non-zero
    return code, a timeout and any other raised error give false. *)
Theorem validator_reduces_to_bool (a : attempt_env) (agent_path : string)
    (w : world) :
  ∃ b : bool,
    test_new_version a agent_path w
    = (Ret b, add_events [RunTest agent_path] w)
    ∧ (b = true ↔ ∃ stderr, test a = Completed 0 stderr)
    ∧ (∀ returncode stderr,
         test a = Completed returncode stderr → returncode ≠ 0%Z → b = false)
    ∧ (∀ e, test a = RunRaised e → b = false).
Proof.
  exists (exited_zero (test a)). split; [apply test_run|].
  destruct (test a) as [rc err|e]; simpl.
  - split; [|split; [|done]].
    + split.
      * intros ->%Z.eqb_eq. by exists err.
      * by intros [stderr [= ->]].
    + intros rc' err' H Hne. injection H as <- <-. by apply Z.eqb_neq.
  - split; [|done]. split; [done|]. by intros [stderr ?].
Qed.

(** C8, as the specification states it, fails: the module runs
    [load_environment()] (line 53) before [main] reads the flag, and a
    line of [.env] with an empty name ends the program with a traceback,
    in self-check mode too. *)
Lemma self_check_traceback :
  "--test" ∈ ["agent.py"; "--test"]
  ∧ Env.run_script_from ["agent.py"; "--test"] (Env.Yields ["=x"] None) ∅
    = Env.Traceback (mkExn OSError "[Errno 22] Invalid argument")
  ∧ Env.run_script ["agent.py"; "--test"] (Some ["=x"]) ∅
    = Env.Traceback (mkExn OSError "[Errno 22] Invalid argument").
Proof.
  split; [|by vm_compute].
  apply elem_of_cons. right. by apply elem_of_cons; left.
Qed.

(** C8, amended.  Start of the program.  When the module-level
    [load_environment()] raises, the program ends with the traceback of
    that exception, whatever its arguments are.  When it returns, as it
    does when there is no [.env]: with [--test] among the arguments the
    program prints [OK] and exits with code 0 whatever the configuration
    is; without it, a missing (unset or empty) required value makes it
    print the hint and exit with code 1, and a complete configuration
    lets it go on to monitor. *)
Theorem self_check_first (argv : list string) (file : Env.dotenv_file)
    (environ environ' : gmap string string) (e : exn) :
  (Env.load_environment_from file environ = Raise e →
   Env.run_script_from argv file environ = Env.Traceback e)
  ∧ Env.load_environment_from Env.Missing environ = Ok environ
  ∧ (Env.load_environment_from file environ = Ok environ' →
     let c := Env.module_config environ' in
     ("--test" ∈ argv →
      Env.run_script_from argv file environ = Env.Started (Exits 0 ["OK"]))
     ∧ ("--test" ∉ argv →
        truthy (API_KEY c) = false ∨ truthy (GITHUB_TOKEN c) = false
        ∨ truthy (REPO c) = false →
        Env.run_script_from argv file environ
        = Env.Started (Exits 1 missing_env_hint))
     ∧ ("--test" ∉ argv →
        truthy (API_KEY c) = true → truthy (GITHUB_TOKEN c) = true →
        truthy (REPO c) = true →
        ∃ printed,
          Env.run_script_from argv file environ
          = Env.Started (Monitors printed))).
Proof.
  unfold Env.run_script_from. split; [by intros ->|]. split; [done|].
  intros Hl. rewrite Hl. unfold main_startup. split; [|split].
  - intros H. by rewrite bool_decide_eq_true_2.
  - intros H Hm. rewrite bool_decide_eq_false_2 by done. cbn [forallb].
    destruct Hm as [Hm | [Hm | Hm]]; by rewrite Hm, ?andb_false_r.
  - intros H H1 H2 H3. rewrite bool_decide_eq_false_2 by done.
    cbn [forallb]. rewrite H1, H2, H3. by eexists.
Qed.

Lemma self_check_first_witness :
  Env.run_script_from ["agent.py"; "--test"] Env.Missing ∅
  = Env.Started (Exits 0 ["OK"])
  ∧ Env.run_script_from ["agent.py"] Env.Missing ∅
    = Env.Started (Exits 1 missing_env_hint).
Proof.
  destruct (self_check_first ["agent.py"; "--test"] Env.Missing ∅ ∅
              (mkExn OSError "")) as (_ & _ & H).
  destruct (self_check_first ["agent.py"] Env.Missing ∅ ∅
              (mkExn OSError "")) as (_ & _ & H').
  split.
  - apply (H eq_refl).
    apply elem_of_cons. right. by apply elem_of_cons; left.
  - apply (H' eq_refl); [by intros ?%list_elem_of_singleton|].
    by left.
Defined.

(** C9.  Script extraction.  The extraction always returns a script.  A
    reply whose first [```bash] fence is closed by a fence of three
    backticks gives the text between them, stripped; a reply without
    [```bash] whose first fence is closed by a second one gives the text
    between them, stripped; a reply without any fence is returned as it
    is. *)
Theorem extract_script_spec (script pre body post : string) :
  (∃ r, Extract.extract_script script = Ok r)
  ∧ (script = pre +:+ "```bash" +:+ body +:+ "```" +:+ post →
     PyStr.contains (pre +:+ "```bas") "```bash" = false →
     PyStr.contains (body +:+ "``") "```" = false →
     PyStr.startswith post "`" = false →
     Extract.extract_script script = Ok (PyStr.strip body))
  ∧ (script = pre +:+ "```" +:+ body +:+ "```" +:+ post →
     PyStr.contains script "```bash" = false →
     PyStr.contains (pre +:+ "``") "```" = false →
     PyStr.contains (body +:+ "``") "```" = false →
     Extract.extract_script script = Ok (PyStr.strip body))
  ∧ (PyStr.contains script "```" = false →
     Extract.extract_script script = Ok script).
Proof.
  split; [apply extract_total|]. split; [|split].
  - intros ->. apply extract_bash_fence.
  - intros -> H. by apply extract_plain_fence.
  - apply extract_raw.
Qed.


(** C6, as the specification states it, fails: a running program whose
    file name contains a placeholder token puts the token back. *)
Lemma substitute_leaves_token :
  PyStr.contains "cp CURRENT_AGENT agent_vN.py" "agent_vN.py" = true
  ∧ PyStr.contains "cp CURRENT_AGENT agent_vN.py" "CURRENT_AGENT" = true
  ∧ Builder.substitute "cp CURRENT_AGENT agent_vN.py" 2 "CURRENT_AGENT.py"
    = "cp CURRENT_AGENT.py agent_v2.py"
  ∧ Builder.has_token
      (Builder.substitute "cp CURRENT_AGENT agent_vN.py" 2 "CURRENT_AGENT.py")
    = true.
Proof. by vm_compute. Qed.

(** C6, amended.  Placeholder substitution.  Every occurrence of a
    token is rewritten in its place, whatever surrounds it and whatever
    the file name of the running program is: the artifact token becomes
    [agent_v<N>.py], the version token [v<N>], the agent token the file
    name; a script without tokens is left as it is.  Whether a token is
    left depends on the file name alone.  With a clean name
    ([clean_filename]: it holds neither [CURRENT_AGENT] nor [vN], ends
    with no beginning and begins with no end of either token, and is not
    the beginning of an end of either, as the empty name is) the
    finalized script holds none of the tokens [agent_vN.py], [vN],
    [CURRENT_AGENT], whatever the script; with any other name some script
    is finalized with a token in it, whatever the version.  [agent.py]
    and the artifact names [agent_v<K>.py] are clean. *)
Theorem substitute_correct (script a b : string) (n : N) (f : string) :
  Builder.substitute (a +:+ "agent_vN.py" +:+ b) n f
  = Builder.substitute a n f +:+ ("agent_v" +:+ PyStr.str n +:+ ".py")
      +:+ Builder.substitute b n f
  ∧ Builder.substitute (a +:+ "vN" +:+ b) n f
    = Builder.substitute a n f +:+ ("v" +:+ PyStr.str n)
        +:+ Builder.substitute b n f
  ∧ Builder.substitute (a +:+ "CURRENT_AGENT" +:+ b) n f
    = Builder.substitute a n f +:+ f +:+ Builder.substitute b n f
  ∧ (Builder.has_token script = false → Builder.substitute script n f = script)
  ∧ (Builder.clean_filename f = true →
     Builder.has_token (Builder.substitute script n f) = false)
  ∧ (Builder.clean_filename f = false →
     ∃ s, ∀ k, Builder.has_token (Builder.substitute s k f) = true)
  ∧ Builder.clean_filename "agent.py" = true
  ∧ Builder.clean_filename (Registry.artifact_name n) = true.
Proof.
  split; [apply substitute_artifact|].
  split; [apply substitute_version|].
  split; [apply substitute_agent|].
  split; [apply substitute_plain|].
  split; [apply substitute_clean|].
  split; [apply unclean_puts_token|].
  split; [by vm_compute|apply artifact_name_clean].
Qed.

Lemma substitute_correct_witness :
  Builder.clean_filename "Copy.py" = true
  ∧ Builder.has_token
      (Builder.substitute "cp CURRENT_AGENT agent_vN.py; echo vN" 12 "Copy.py")
    = false
  ∧ Builder.clean_filename "rev" = false
  ∧ ∃ s, ∀ k, Builder.has_token (Builder.substitute s k "rev") = true.
Proof.
  destruct (substitute_correct "cp CURRENT_AGENT agent_vN.py; echo vN" "" ""
              12 "Copy.py") as (_ & _ & _ & _ & H & _).
  destruct (substitute_correct "" "" "" 12 "rev")
    as (_ & _ & _ & _ & _ & H' & _).
  split; [reflexivity|]. split; [exact (H eq_refl)|].
  split; [reflexivity|exact (H' eq_refl)].
Defined.

Section Controller.

Context (cf : string).

(** C1, as the specification states it, fails: the sequence succeeds on
    the first attempt, the push raises, and the controller runs all three
    cycles and reports no success. *)
Lemma retry_after_publish_failure :
  cycle_passes (attempts Sample.push_always_fails 1) = true
  ∧ attempts_begun
      (trace (attempt_loop "agent.py" Sample.push_always_fails 1 42
                "Add logging" (seq 1 max_retries) None Sample.start).2) = 3
  ∧ (attempt_loop "agent.py" Sample.push_always_fails 1 42 "Add logging"
       (seq 1 max_retries) None Sample.start).1 = Ret tt.
Proof. by vm_compute. Qed.

(** C1, amended.  Retry controller.  Let the generate/build/validate
    sequence fail on the first [k] attempts.  If [k < max_retries] and
    attempt [k+1] passes and no step of its publication raises, the trace
    of the controller is exactly [k+1] cycles, one after the other,
    followed by the publication that posts the success comment of attempt
    [k+1], and the process is replaced by the new artifact.  If
    [k = max_retries], the trace is exactly [max_retries] cycles followed
    by a give-up comment, no further attempt begins and the process is
    not replaced. *)
Theorem retry_controller_cycles (ie : issue_env) (version n : N)
    (task : string) (w : world) (k : nat) :
  k ≤ max_retries →
  (∀ i, 1 ≤ i ≤ k → cycle_passes (attempts ie i) = false) →
  (k < max_retries →
   cycle_passes (attempts ie (S k)) = true →
   publishes (attempts ie (S k)) = true →
   (attempt_loop cf ie version n task (seq 1 max_retries) None w).1
   = Replaced (Registry.artifact_name version)
   ∧ ∃ cycles,
       length cycles = S k
       ∧ Forall (λ c, is_cycle c = true) cycles
       ∧ trace (attempt_loop cf ie version n task (seq 1 max_retries)
                  None w).2
         = trace w ++ concat cycles
             ++ publish_events version n task (S k))
  ∧ (k = max_retries →
     (∀ p, (attempt_loop cf ie version n task (seq 1 max_retries) None w).1
           ≠ Replaced p)
     ∧ ∃ cycles c tail,
         length cycles = max_retries
         ∧ Forall (λ c, is_cycle c = true) cycles
         ∧ trace (attempt_loop cf ie version n task (seq 1 max_retries)
                    None w).2
           = trace w ++ concat cycles ++ Api (PostComment n c) :: tail
         ∧ is_giveup_comment c
         ∧ attempts_begun tail = 0).
Proof.
  intros Hk Hfail.
  change (seq 1 max_retries) with [1; 2; 3]. unfold max_retries in *.
  assert (∀ i rest previous w0, 1 ≤ i ≤ k → i ≠ 3 →
            ∃ w' previous',
              attempt_loop cf ie version n task (i :: rest) previous w0
              = attempt_loop cf ie version n task rest (Some previous') w'
              ∧ trace w' = trace w0
                  ++ cycle_events cf (attempts ie i) version task previous)
    as Hstep.
  { intros i rest previous w0 Hi Hne.
    destruct (attempt_loop_fail cf ie version n task i rest previous w0)
      as (w' & p' & E & Ht & _); [done|by apply Hfail|]. eauto. }
  pose proof (is_cycle_cycle_events cf) as Hcyc.
  split.
  - intros Hlt Hpass Hpub.
    destruct k as [|[|[|k]]]; [| | |lia].
    + destruct (attempt_loop_pass cf ie version n task 1 [2; 3] None w)
        as (w' & -> & Ht); [done..|].
      split; [done|]. eexists [_]. split; [done|].
      split; [by repeat constructor|].
      cbn [snd concat]. by rewrite Ht, app_nil_r.
    + destruct (Hstep 1 [2; 3] None w) as (w1 & p1 & -> & Ht1); [lia..|].
      destruct (attempt_loop_pass cf ie version n task 2 [3] (Some p1) w1)
        as (w' & -> & Ht); [done..|].
      split; [done|]. eexists [_; _]. split; [done|].
      split; [by repeat constructor|].
      cbn [snd concat]. rewrite Ht, Ht1, app_nil_r.
      by rewrite <- !app_assoc.
    + destruct (Hstep 1 [2; 3] None w) as (w1 & p1 & -> & Ht1); [lia..|].
      destruct (Hstep 2 [3] (Some p1) w1) as (w2 & p2 & -> & Ht2); [lia..|].
      destruct (attempt_loop_pass cf ie version n task 3 [] (Some p2) w2)
        as (w' & -> & Ht); [done..|].
      split; [done|]. eexists [_; _; _]. split; [done|].
      split; [by repeat constructor|].
      cbn [snd concat]. rewrite Ht, Ht2, Ht1, app_nil_r.
      by rewrite <- !app_assoc.
  - intros ->.
    destruct (Hstep 1 [2; 3] None w) as (w1 & p1 & -> & Ht1); [lia..|].
    destruct (Hstep 2 [3] (Some p1) w1) as (w2 & p2 & -> & Ht2); [lia..|].
    destruct (attempt_loop_giveup cf ie version n task [] (Some p2) w2)
      as (o & w' & c & tail & E & Ht & Hc & Hn & Ho);
      [apply Hfail; unfold max_retries; lia|].
    unfold max_retries in E. rewrite E. split; [done|].
    eexists [_; _; _], c, tail. split; [done|].
    split; [by repeat constructor|].
    split; [|done]. cbn [snd concat]. rewrite Ht, Ht2, Ht1, app_nil_r.
    by rewrite <- !app_assoc.
Qed.

End Controller.

Lemma retry_controller_cycles_witness :
  1 ≤ max_retries
  ∧ (∀ i, 1 ≤ i ≤ 1 → cycle_passes (attempts Sample.second_passes i) = false)
  ∧ (attempt_loop "agent.py" Sample.second_passes 1 42 "Add logging"
       (seq 1 max_retries) None Sample.start).1
    = Replaced (Registry.artifact_name 1).
Proof.
  split; [unfold max_retries; lia|].
  split.
  - intros i Hi. assert (i = 1) as -> by lia. reflexivity.
  - apply (retry_controller_cycles "agent.py" Sample.second_passes 1 42
             "Add logging" Sample.start 1).
    + unfold max_retries; lia.
    + intros i Hi. assert (i = 1) as -> by lia. reflexivity.
    + unfold max_retries; lia.
    + reflexivity.
    + reflexivity.
Defined.


(** C4, as the specification states it, fails: [git push] raises after a
    successful validation; the task is attempted three times within the
    same scan, the failure label is added, and the scan ends with the
    30-second sleep, not with the 60-second backoff. *)
Lemma publish_failure_is_retried :
  cycle_passes (attempts Sample.push_always_fails 1) = true
  ∧ publish_failure (attempts Sample.push_always_fails 1)
    = Some (mkExn CalledProcessError "git push failed")
  ∧ attempts_begun (trace (scan "agent.py" Sample.scan_push_fails
                             Sample.start).2) = 3
  ∧ Api (AddLabels 42 ["agent-failed"])
    ∈ trace (scan "agent.py" Sample.scan_push_fails Sample.start).2
  ∧ last (trace (scan "agent.py" Sample.scan_push_fails Sample.start).2)
    = Some (Sleep 30)
  ∧ labels_of 42 (scan "agent.py" Sample.scan_push_fails Sample.start).2
    = Some {["agent-task"; "agent-failed"]}.
Proof.
  split; [reflexivity|]. split; [reflexivity|]. split; [reflexivity|].
  split; [|split; [reflexivity|]].
  - apply list_elem_of_In. vm_compute. tauto.
  - by vm_compute.
Qed.

(** C5, as the specification states it, fails: after a clean validation
    failure the next model call carries another fixed string. *)
Lemma clean_failure_summary_differs :
  fails_cleanly (attempts Sample.test_always_fails 1) = true
  ∧ trace (attempt_loop "agent.py" Sample.test_always_fails 1 42
             "Add logging" (seq 1 max_retries) None Sample.start).2 !! 5
    = Some (CallModel "Add logging"
              (Some (mkPrev "cp CURRENT_AGENT agent_vN.py"
                       "New version failed --test flag (exit code non-zero)")))
  ∧ "New version failed --test flag (exit code non-zero)"
    ≠ "artifact failed self-check.".
Proof. split; [reflexivity|]. split; [reflexivity|done]. Qed.

Section Failures.

Context (cf : string).

(** C4, amended.  Publish error.  When a publish step raises after a
    successful validation, only calls of the publication were made until
    then and the issue is as open and as labelled as before.  The
    exception goes to the handler of the attempt: while attempts remain
    the next attempt follows in the same cycle, with the message of the
    exception as its error summary; at the last attempt the give-up path
    posts its comment and, when its two calls return, adds the failure
    label, leaves the issue as open as it was and ends the task without
    an exception. *)
Theorem publish_failure_handled (ie : issue_env) (version n : N)
    (task : string) (attempt : nat) (rest : list nat)
    (previous : option previous_attempt) (w : world) (e : exn) :
  cycle_passes (attempts ie attempt) = true →
  publish_failure (attempts ie attempt) = Some e →
  ∃ script w2 evs,
    generated (attempts ie attempt) = Ok script
    ∧ trace w2 = trace w
        ++ cycle_events cf (attempts ie attempt) version task previous ++ evs
    ∧ evs `prefix_of` publish_events version n task attempt
    ∧ is_open n w2 = is_open n w
    ∧ labels_of n w2 = labels_of n w
    ∧ (attempt ≠ max_retries →
       attempt_loop cf ie version n task (attempt :: rest) previous w
       = attempt_loop cf ie version n task rest
           (Some (mkPrev script (exn_msg e))) w2)
    ∧ (attempt = max_retries →
       ∃ tail,
         trace (attempt_loop cf ie version n task (attempt :: rest)
                  previous w).2
         = trace w2 ++ Api (PostComment n (handler_comment e)) :: tail
         ∧ (api_fails (attempts ie attempt) SiteHandlerComment = None →
            api_fails (attempts ie attempt) SiteHandlerLabel = None →
            (attempt_loop cf ie version n task (attempt :: rest) previous w).1
            = Ret tt
            ∧ tail = [Api (AddLabels n ["agent-failed"])]
            ∧ labels_of n
                (attempt_loop cf ie version n task (attempt :: rest)
                   previous w).2
              = ((λ ls, ls ∪ {["agent-failed"]}) <$> labels_of n w)
            ∧ is_open n
                (attempt_loop cf ie version n task (attempt :: rest)
                   previous w).2
              = is_open n w)).
Proof.
  intros Hc Hp.
  destruct (publish_fails_attempt cf (attempts ie attempt) version n task
              attempt previous w e Hc Hp)
    as (script & w2 & evs & Hg & E & Ht & Hpre & Hs & Ho & Hl).
  exists script, w2, evs. do 5 (split; [done|]). split.
  - intros Hne. rewrite attempt_loop_cons, E.
    rewrite attempt_except_continue by done. by rewrite Hs.
  - intros ->. rewrite attempt_loop_cons, E, attempt_except_last. cbv zeta.
    destruct (api_fails (attempts ie max_retries) SiteHandlerComment).
    { eexists. split; [by trace_norm|]. done. }
    destruct (api_fails (attempts ie max_retries) SiteHandlerLabel).
    { eexists. split; [by trace_norm|]. done. }
    eexists. split; [by trace_norm|]. intros _ _.
    split; [done|]. split; [done|]. cbn [snd]. split.
    + rewrite labels_of_applied_add, labels_of_add_events.
      rewrite labels_of_applied_comment, labels_of_add_events, Hl.
      destruct (labels_of n w); [|done]. simpl. by f_equal.
    + rewrite is_open_applied_add, is_open_add_events.
      by rewrite is_open_applied_comment, is_open_add_events.
Qed.

(** C5, amended.  Error summary of a clean validation failure.  When the
    validator returns false with no exception in the attempt and attempts
    remain, the next call after the cycle is the model call of the next
    attempt, and its failure context is the script of the failed attempt
    with the fixed string
    ["New version failed --test flag (exit code non-zero)"]. *)
Theorem clean_failure_summary (ie : issue_env) (version n : N)
    (task : string) (attempt next : nat) (rest : list nat)
    (previous : option previous_attempt) (w : world) :
  fails_cleanly (attempts ie attempt) = true →
  attempt ≠ max_retries →
  ∃ script evs,
    generated (attempts ie attempt) = Ok script
    ∧ trace (attempt_loop cf ie version n task (attempt :: next :: rest)
               previous w).2
      = trace w
          ++ cycle_events cf (attempts ie attempt) version task previous
          ++ CallModel task
               (Some (mkPrev script
                        "New version failed --test flag (exit code non-zero)"))
             :: evs.
Proof.
  intros Hf Hne. unfold fails_cleanly in Hf.
  destruct (generated (attempts ie attempt)) as [script|] eqn:Hg; [|done].
  destruct (bash (attempts ie attempt)) as [rc err|] eqn:Hb; [|done].
  simpl in Hf. apply andb_true_iff in Hf as [Hrc Ht].
  apply negb_true_iff in Ht.
  rewrite attempt_loop_cons. unfold try_except. rewrite attempt_try_run.
  rewrite Hg, Hb. cbv zeta. rewrite Hrc, Ht. unfold after_validation.
  apply Nat.eqb_neq in Hne. rewrite Hne. unfold ret.
  match goal with
  | |- context [attempt_loop cf ie version n task (next :: rest) ?p ?w1] =>
      destruct (attempt_loop_starts cf ie version n task next rest p w1)
        as [evs Hev]
  end.
  exists script, evs. split; [done|]. rewrite Hev.
  unfold cycle_events. rewrite Hg, Hb. simpl exited_zero. rewrite Hrc.
  trace_norm. reflexivity.
Qed.

End Failures.

Lemma publish_failure_handled_witness :
  cycle_passes (attempts Sample.push_always_fails 1) = true
  ∧ publish_failure (attempts Sample.push_always_fails 1)
    = Some (mkExn CalledProcessError "git push failed")
  ∧ ∃ script w2 evs,
      generated (attempts Sample.push_always_fails 1) = Ok script
      ∧ trace w2 = trace Sample.start
          ++ cycle_events "agent.py" (attempts Sample.push_always_fails 1)
               1 "Add logging" None ++ evs
      ∧ evs `prefix_of` publish_events 1 42 "Add logging" 1
      ∧ is_open 42 w2 = is_open 42 Sample.start
      ∧ labels_of 42 w2 = labels_of 42 Sample.start.
Proof.
  split; [reflexivity|]. split; [reflexivity|].
  destruct (publish_failure_handled "agent.py" Sample.push_always_fails 1 42
              "Add logging" 1 [2; 3] None Sample.start
              (mkExn CalledProcessError "git push failed")
              eq_refl eq_refl)
    as (script & w2 & evs & H1 & H2 & H3 & H4 & H5 & _).
  by exists script, w2, evs.
Defined.

Lemma clean_failure_summary_witness :
  fails_cleanly (attempts Sample.test_always_fails 1) = true
  ∧ 1 ≠ max_retries
  ∧ ∃ script evs,
      generated (attempts Sample.test_always_fails 1) = Ok script
      ∧ trace (attempt_loop "agent.py" Sample.test_always_fails 1 42
                 "Add logging" [1; 2; 3] None Sample.start).2
        = trace Sample.start
            ++ cycle_events "agent.py" (attempts Sample.test_always_fails 1)
                 1 "Add logging" None
            ++ CallModel "Add logging"
                 (Some (mkPrev script
                          "New version failed --test flag (exit code non-zero)"))
               :: evs.
Proof.
  split; [reflexivity|]. split; [unfold max_retries; lia|].
  apply (clean_failure_summary "agent.py" Sample.test_always_fails 1 42
           "Add logging" 1 2 [3] None Sample.start).
  - reflexivity.
  - unfold max_retries; lia.
Defined.


Section TaskLoop.

Context (cf : string).

(** C7.  Label filtering.  A task labelled ["agent-failed"] and not
    ["agent-retry"] is skipped: nothing is called and nothing changes.
    For a task labelled ["agent-retry"], either one of the two DELETE
    requests raises and no attempt is made, or both requests come first
    and remove both labels, the attempts run from there, and at the end
    ["agent-retry"] is absent and ["agent-failed"] is present only when a
    give-up path has added it. *)
Theorem label_filtering (ie : issue_env) (version : N) (i : issue)
    (w : world) :
  ("agent-failed" ∈ labels i → "agent-retry" ∉ labels i →
   process_issue cf ie version i w = (Ret tt, w))
  ∧ ("agent-retry" ∈ labels i →
     ((∃ e, (process_issue cf ie version i w).1 = Exc e)
      ∧ (delete_failed_fails ie ≠ None ∨ delete_retry_fails ie ≠ None)
      ∧ ∃ evs, trace (process_issue cf ie version i w).2 = trace w ++ evs
               ∧ attempts_begun evs = 0)
     ∨ (∃ w1 evs,
          trace w1 = trace w
            ++ [ Api (DeleteLabel (number i) "agent-failed");
                 Api (DeleteLabel (number i) "agent-retry") ]
          ∧ labels_of (number i) w1
            = ((λ ls, ls ∖ {["agent-failed"]} ∖ {["agent-retry"]})
                 <$> labels_of (number i) w)
          ∧ process_issue cf ie version i w
            = attempt_loop cf ie version (number i) (title i)
                (seq 1 max_retries) None w1
          ∧ trace (process_issue cf ie version i w).2 = trace w1 ++ evs
          ∧ ∀ ls', labels_of (number i) (process_issue cf ie version i w).2
                   = Some ls' →
                   ("agent-retry" ∉ ls')
                   ∧ ("agent-failed" ∈ ls' →
                      Api (AddLabels (number i) ["agent-failed"]) ∈ evs))).
Proof.
  unfold process_issue. split.
  - intros Hf Hr.
    by rewrite (bool_decide_eq_true_2 _ Hf), (bool_decide_eq_false_2 _ Hr).
  - intros Hr. rewrite (bool_decide_eq_true_2 _ Hr), andb_false_r.
    rewrite bind_assoc.
    destruct (delete_failed_fails ie) as [e1|] eqn:E1.
    { left. rewrite api_raises. split; [by eexists|]. split; [by left|].
      by eexists. }
    rewrite api_ok.
    destruct (delete_retry_fails ie) as [e2|] eqn:E2.
    { left. rewrite api_raises. split; [by eexists|]. split; [by right|].
      eexists. trace_norm. split; [reflexivity|done]. }
    right. rewrite api_ok.
    set (w1 := applied (DeleteLabel (number i) "agent-retry") _).
    destruct (attempt_loop_labels cf ie version (number i) (title i)
                (seq 1 max_retries) None w1) as (evs & Ht & Hl).
    exists w1, evs. split; [subst w1; by trace_norm|].
    assert (labels_of (number i) w1
            = ((λ ls, ls ∖ {["agent-failed"]} ∖ {["agent-retry"]})
                 <$> labels_of (number i) w)) as Hw1.
    { subst w1. rewrite labels_of_applied_delete, labels_of_add_events.
      rewrite labels_of_applied_delete, labels_of_add_events.
      by destruct (labels_of (number i) w). }
    split; [done|]. split; [done|]. split; [done|].
    intros ls' Hls'. destruct (Hl ls' Hls') as (ls & Hls & Hsub & Hadd).
    rewrite Hw1 in Hls.
    destruct (labels_of (number i) w) as [ls0|]; [|done].
    injection Hls as <-. split.
    + intros Hin. apply Hsub in Hin.
      apply elem_of_union in Hin as [Hin|Hin].
      * apply elem_of_difference in Hin as [_ Hin]. apply Hin.
        by apply elem_of_singleton.
      * by apply elem_of_singleton in Hin.
    + intros Hin. destruct (Hadd Hin) as [Hin'|]; [|done].
      apply elem_of_difference in Hin' as [Hin' _].
      apply elem_of_difference in Hin' as [_ Hin']. exfalso. apply Hin'.
      by apply elem_of_singleton.
Qed.

Lemma get_next_version_run (w : world) :
  ∃ v, Registry.get_next_version (listdir w) = Ok v
       ∧ get_next_version w = (Ret v, w).
Proof.
  unfold get_next_version. rewrite get_next_version_value. by eexists.
Qed.

(** C10.  One version per scan.  The version is the value of
    [get_next_version] in the state in which the scan starts, and every
    call of the scan, for every task and every attempt, uses it: the
    script file written and run is [evolve_v<N>.sh], the artifact tested
    and executed is [agent_v<N>.py], whatever the scripts did to the
    directory in between. *)
Theorem scan_uses_one_version (se : scan_env) (w : world) :
  ∃ v evs,
    Registry.get_next_version (listdir w) = Ok v
    ∧ trace (scan cf se w).2 = trace w ++ evs
    ∧ Forall (uses_version v) evs.
Proof.
  destruct (get_next_version_run w) as (v & Hv & Hrun).
  exists v. 
  assert (version_step v w (scan cf se w).2) as (evs & Ht & Hu);
    [|by exists evs].
  unfold scan, try_except. rewrite bind_run, Hrun.
  set (body := bind (emit (Api ListOpenTasks)) _).
  assert (preserves (version_step v) body) as Hbody.
  { subst body.
    apply preserves_bind; [apply _| |intros _].
    { intros w0. by apply version_step_emit. }
    apply preserves_bind; [apply _| |intros issues].
    { destruct (issues_response se); intros w0; reflexivity. }
    apply preserves_bind; [apply _| |intros _].
    { intros w0. apply for_issues_version. }
    intros w0. by apply version_step_emit. }
  specialize (Hbody w). destruct (body w) as [[x|e|p] w1]; simpl in *; try done.
  etrans; [done|]. by apply version_step_emit.
Qed.

End TaskLoop.

(** * Loading [.env] *)

Section EnvFacts.
Import PyStr Extract Env.

Lemma string_mem_cons (c d : ascii) (s : string) :
  string_mem c (String d s) = Ascii.eqb d c || string_mem c s.
Proof.
  unfold string_mem. cbn [string_forall].
  by rewrite negb_andb, negb_involutive.
Qed.

Lemma string_mem_contains (c : ascii) (s : string) :
  string_mem c s = contains s (String c "").
Proof.
  induction s as [|d s IH]; [done|].
  rewrite string_mem_cons, IH. cbn [contains].
  rewrite startswith_cons, startswith_nil, andb_true_r.
  by rewrite (Ascii.eqb_sym c d).
Qed.

Lemma after_is_some (s sep : string) :
  is_Some (after s sep) ↔ contains s sep = true.
Proof.
  induction s as [|c s IH]; cbn [after contains].
  - destruct (startswith "" sep); [by split; eauto|].
    split; [by intros [? ?]|done].
  - destruct (startswith (String c s) sep); [by split; eauto|]. apply IH.
Qed.

Lemma after_none (s sep : string) :
  after s sep = None ↔ contains s sep = false.
Proof.
  rewrite eq_None_not_Some, after_is_some. by destruct (contains s sep).
Qed.

(** A string is cut at the first occurrence of [sep] into what is before
    it and what is after it. *)
Lemma before_after (s sep r : string) :
  after s sep = Some r → s = before s sep +:+ sep +:+ r.
Proof.
  induction s as [|c s IH]; cbn [after before].
  - destruct (startswith "" sep) eqn:E; [|done].
    intros [= <-]. apply startswith_spec in E as [x E].
    by destruct sep.
  - destruct (startswith (String c s) sep) eqn:E.
    + intros [= <-]. apply startswith_spec in E as [x E].
      rewrite E at 1. by rewrite E, drop_app.
    + intros H. cbn [String.append]. f_equal. by apply IH.
Qed.

(** No occurrence of [sep] lies before its first occurrence. *)
Lemma before_no_sep (s sep : string) :
  sep ≠ "" → contains (before s sep) sep = false.
Proof.
  intros Hne. induction s as [|c s IH]; [by destruct sep|].
  cbn [before]. destruct (startswith (String c s) sep) eqn:E;
    [by destruct sep|].
  cbn [contains]. rewrite IH, orb_false_r.
  destruct (startswith (String c (before s sep)) sep) eqn:E'; [|done].
  destruct (before_prefix s sep) as [r Hr].
  apply (startswith_app_l _ _ r) in E'.
  change (String c ?x +:+ r) with (String c (x +:+ r)) in E'.
  rewrite <- Hr in E'. congruence.
Qed.

Lemma split_max_go_rest (sep x r : string) :
  split_max_go sep 0 (String.length x) (x +:+ r) = [r].
Proof. induction x as [|c x IH]; [by destruct r|done]. Qed.

(** [s.split(sep, 1)] *)
Lemma split_max_once (s sep : string) :
  sep ≠ "" →
  split_max s sep 1
  = match after s sep with
    | Some r => [before s sep; r]
    | None => [s]
    end.
Proof.
  intros Hne. unfold split_max. induction s as [|c s IH].
  - cbn [after]. by destruct sep.
  - cbn [split_max_go after before].
    destruct (startswith (String c s) sep) eqn:E.
    + apply startswith_spec in E as [r E]. rewrite E, drop_app.
      destruct sep as [|d sep]; [done|].
      cbn [String.append] in E. injection E as _ ->.
      replace (String.length (String d sep) - 1) with (String.length sep)
        by (simpl; lia).
      by rewrite split_max_go_rest.
    + rewrite IH. by destruct (after s sep).
Qed.

(** [load_line] carries out the assignment of the line, when there is
    one. *)
Lemma load_line_assignment (line : string) (environ : gmap string string) :
  load_line line environ
  = match assignment line with
    | Some (key, value) => environ_set key value environ
    | None => Ok environ
    end.
Proof.
  unfold load_line, assignment. cbv zeta.
  destruct (negb (strip line =? "")%string && negb (startswith (strip line) "#"));
    [|done].
  cbn [andb]. rewrite split_max_once by done.
  destruct (after (strip line) "=") as [r|] eqn:E.
  - assert (contains (strip line) "=" = true) as ->
      by (apply after_is_some; by rewrite E).
    done.
  - apply after_none in E. by rewrite E.
Qed.

Lemma assignment_cut (line key value : string) :
  assignment line = Some (key, value) →
  strip line = key +:+ "=" +:+ value ∧ string_mem "=" key = false
  ∧ strip line ≠ "" ∧ startswith (strip line) "#" = false.
Proof.
  unfold assignment. cbv zeta.
  destruct (strip line =? "")%string eqn:E1; [done|].
  destruct (startswith (strip line) "#") eqn:E2; [done|]. cbn [negb andb].
  destruct (after (strip line) "=") as [r|] eqn:E; [|done].
  cbn. intros [= <- <-]. split; [exact (before_after _ "=" _ E)|].
  split; [rewrite string_mem_contains; by apply before_no_sep|].
  split; [by apply String.eqb_neq|done].
Qed.

Lemma assignment_none (line : string) :
  assignment line = None ↔
  strip line = "" ∨ startswith (strip line) "#" = true
  ∨ contains (strip line) "=" = false.
Proof.
  unfold assignment. cbv zeta.
  destruct (strip line =? "")%string eqn:E1.
  { apply String.eqb_eq in E1. split; [by left|done]. }
  apply String.eqb_neq in E1.
  destruct (startswith (strip line) "#") eqn:E2.
  { split; [by right; left|done]. }
  cbn [negb andb]. destruct (after (strip line) "=") as [r|] eqn:E.
  - assert (contains (strip line) "=" = true) as Hc
      by (apply after_is_some; by rewrite E).
    split; [done|]. intros [?|[?|?]]; congruence.
  - apply after_none in E. split; [by right; right|done].
Qed.

Lemma environ_set_value (key value : string) (environ : gmap string string) :
  string_mem "=" key = false →
  environ_set key value environ
  = if refused (key, value)
    then Raise (if string_mem NUL key || string_mem NUL value
                then mkExn ValueError "embedded null byte"
                else mkExn OSError "[Errno 22] Invalid argument")
    else Ok (<[key := value]> environ).
Proof.
  intros H. unfold environ_set, refused. cbn [fst snd]. rewrite H.
  destruct (string_mem NUL key || string_mem NUL value); [done|].
  cbn [orb]. by destruct (key =? "")%string.
Qed.

Lemma load_line_value (line key value : string)
    (environ : gmap string string) :
  assignment line = Some (key, value) →
  load_line line environ
  = if refused (key, value)
    then Raise (if string_mem NUL key || string_mem NUL value
                then mkExn ValueError "embedded null byte"
                else mkExn OSError "[Errno 22] Invalid argument")
    else Ok (<[key := value]> environ).
Proof.
  intros H. rewrite load_line_assignment, H.
  apply environ_set_value. by apply assignment_cut in H as (_ & ? & _).
Qed.

Lemma lstrip_length (s : string) : String.length (lstrip s) ≤ String.length s.
Proof.
  induction s as [|c s IH]; [done|]. cbn [lstrip].
  destruct (isspace c); simpl; lia.
Qed.

Lemma lstrip_fixed_head (c : ascii) (s : string) :
  lstrip (String c s) = String c s → isspace c = false.
Proof.
  cbn [lstrip]. destruct (isspace c); [|done]. intros H.
  pose proof (lstrip_length s) as Hl. rewrite H in Hl. simpl in Hl. lia.
Qed.

Lemma lstrip_fixed_app (k x : string) :
  k ≠ "" → lstrip k = k → lstrip (k +:+ x) = k +:+ x.
Proof.
  destruct k as [|c k]; [done|]. intros _ H%lstrip_fixed_head.
  cbn [String.append lstrip]. by rewrite H.
Qed.

Lemma rstrip_snoc_space (x : string) (c : ascii) :
  isspace c = true → rstrip (x +:+ String c "") = rstrip x.
Proof.
  intros Hc. induction x as [|d x IH].
  - cbn [String.append rstrip]. by rewrite Hc.
  - cbn [String.append rstrip]. by rewrite IH.
Qed.

Lemma rstrip_fixed_app (a b : string) :
  b ≠ "" → rstrip b = b → rstrip (a +:+ b) = a +:+ b.
Proof.
  intros Hne Hb. induction a as [|d a IH]; [done|].
  cbn [String.append rstrip]. rewrite IH.
  destruct (a +:+ b) eqn:E; [|done].
  destruct a; [|done]. by destruct b.
Qed.

Lemma rstrip_fixed_cons (c : ascii) (v : string) :
  isspace c = false → rstrip v = v → rstrip (String c v) = String c v.
Proof. intros Hc Hv. cbn [rstrip]. rewrite Hv, Hc. by destruct v. Qed.

(** The stripped form of a well-formed line, with or without the line
    end. *)
Lemma strip_assignment_line (key value : string) :
  key ≠ "" → lstrip key = key → rstrip value = value →
  strip (key +:+ "=" +:+ value) = key +:+ "=" +:+ value
  ∧ strip (key +:+ "=" +:+ value +:+ nl) = key +:+ "=" +:+ value.
Proof.
  intros Hne Hk Hv.
  assert (rstrip (key +:+ "=" +:+ value) = key +:+ "=" +:+ value) as Hr.
  { apply rstrip_fixed_app; [done|]. by apply rstrip_fixed_cons. }
  unfold strip. rewrite !lstrip_fixed_app by done. split; [done|].
  etrans; [|exact Hr].
  replace (key +:+ "=" +:+ value +:+ nl)
    with ((key +:+ "=" +:+ value) +:+ String "010" "")
    by (by rewrite !append_assoc).
  by apply rstrip_snoc_space.
Qed.

Lemma assignment_of_cut (line key value : string) :
  strip line = key +:+ "=" +:+ value →
  key ≠ "" → startswith key "#" = false → string_mem "=" key = false →
  assignment line = Some (key, value).
Proof.
  intros Hs Hne Hc He. unfold assignment. cbv zeta. rewrite Hs.
  assert (no_start "=" key ("=" +:+ value)) as Hn.
  { apply (no_start_first "=" "" "="); [done|].
    by rewrite append_nil_r, <- string_mem_contains. }
  assert (after (key +:+ "=" +:+ value) "=" = Some value) as ->
    by (by rewrite after_app, after_match).
  assert (before (key +:+ "=" +:+ value) "=" = key) as ->
    by (by rewrite before_app, before_match, append_nil_r).
  destruct key as [|c key]; [done|].
  cbn [String.append String.eqb negb andb].
  rewrite startswith_cons, startswith_nil, andb_true_r.
  rewrite startswith_cons, startswith_nil, andb_true_r in Hc.
  by rewrite Hc.
Qed.

Lemma last_assigned_cons (line : string) (lines : list string)
    (key : string) :
  last_assigned (line :: lines) key
  = match last_assigned lines key with
    | Some v => Some v
    | None =>
        match assignment line with
        | Some (k, v) => if (k =? key)%string then Some v else None
        | None => None
        end
    end.
Proof.
  unfold last_assigned. cbn [omap list_omap].
  destruct (assignment line) as [[k v]|]; [|by destruct (last _)].
  cbn [List.filter fst]. destruct (k =? key)%string; [|by destruct (last _)].
  rewrite last_cons. by destruct (last _).
Qed.

(** After loading, a variable has the value of the last assignment to
    it, and the value it had when no line assigns it. *)
Lemma load_lines_lookup (lines : list string)
    (environ environ' : gmap string string) (key : string) :
  load_lines lines environ = Ok environ' →
  environ' !! key
  = match last_assigned lines key with
    | Some v => Some v
    | None => environ !! key
    end.
Proof.
  revert environ. induction lines as [|l lines IH]; intros environ.
  - by intros [= <-].
  - cbn [load_lines]. destruct (load_line l environ) as [e1|] eqn:E; [|done].
    intros H. rewrite (IH _ H), last_assigned_cons.
    destruct (last_assigned lines key); [done|].
    destruct (assignment l) as [[k v]|] eqn:Ea.
    + rewrite (load_line_value _ _ _ _ Ea) in E.
      destruct (refused (k, v)); [done|]. injection E as <-.
      destruct (k =? key)%string eqn:Ek.
      * apply String.eqb_eq in Ek as ->. by rewrite lookup_insert_eq.
      * apply String.eqb_neq in Ek. by rewrite lookup_insert_ne.
    + rewrite load_line_assignment, Ea in E. by injection E as <-.
Qed.

Lemma load_lines_raises (lines : list string) (environ : gmap string string) :
  (∃ e, load_lines lines environ = Raise e) ↔
  ∃ line kv, line ∈ lines ∧ assignment line = Some kv ∧ refused kv = true.
Proof.
  revert environ. induction lines as [|l lines IH]; intros environ.
  - split; [by intros [? ?]|]. by intros (? & ? & ?%elem_of_nil & _).
  - cbn [load_lines]. destruct (assignment l) as [[k v]|] eqn:Ea.
    + rewrite (load_line_value _ _ _ _ Ea).
      destruct (refused (k, v)) eqn:Er.
      * split; [|by eauto]. intros _. exists l, (k, v). split; [left|done].
      * rewrite IH. split.
        -- intros (line & kv & Hin & H). exists line, kv.
           split; [by right|done].
        -- intros (line & kv & Hin & Hl & Hr).
           apply elem_of_cons in Hin as [->|Hin]; [congruence|eauto].
    + rewrite load_line_assignment, Ea, IH. split.
      * intros (line & kv & Hin & H). exists line, kv.
        split; [by right|done].
      * intros (line & kv & Hin & Hl & Hr).
        apply elem_of_cons in Hin as [->|Hin]; [congruence|eauto].
Qed.

End EnvFacts.

(** * More on the script extraction *)

Section ExtractMore.
Import PyStr Extract.

Lemma lstrip_suffix (s : string) : ∃ a, s = a +:+ lstrip s.
Proof.
  induction s as [|c s [a IH]]; [by exists ""|]. cbn [lstrip].
  destruct (isspace c); [|by exists ""].
  exists (String c a). cbn [String.append]. by f_equal.
Qed.

Lemma rstrip_prefix (s : string) : ∃ b, s = rstrip s +:+ b.
Proof.
  induction s as [|c s [b IH]]; [by exists ""|]. cbn [rstrip].
  destruct (rstrip s) as [|d r].
  - destruct (isspace c); [by eexists|]. exists s. done.
  - exists b. cbn [String.append] in *. by f_equal.
Qed.

Lemma contains_strip_false (x p : string) :
  contains x p = false → contains (strip x) p = false.
Proof.
  intros H. unfold strip.
  destruct (lstrip_suffix x) as [a Ha].
  destruct (rstrip_prefix (lstrip x)) as [b Hb].
  rewrite Ha in H. apply contains_app_false_r in H.
  rewrite Hb in H. by apply contains_app_false_l in H.
Qed.

Lemma lstrip_idem (s : string) : lstrip (lstrip s) = lstrip s.
Proof.
  induction s as [|c s IH]; [done|]. cbn [lstrip].
  destruct (isspace c) eqn:E; [done|]. cbn [lstrip]. by rewrite E.
Qed.

Lemma rstrip_idem (s : string) : rstrip (rstrip s) = rstrip s.
Proof.
  induction s as [|c s IH]; [done|]. cbn [rstrip].
  destruct (rstrip s) as [|d r] eqn:E.
  - destruct (isspace c) eqn:Ec; [done|]. cbn [rstrip]. by rewrite Ec.
  - cbn [rstrip] in *. by rewrite IH.
Qed.

Lemma lstrip_rstrip (s : string) :
  lstrip s = s → lstrip (rstrip s) = rstrip s.
Proof.
  destruct s as [|c s]; [done|]. intros H%lstrip_fixed_head.
  cbn [rstrip]. destruct (rstrip s); rewrite ?H; cbn [lstrip]; by rewrite H.
Qed.

Lemma strip_idem (s : string) : strip (strip s) = strip s.
Proof.
  unfold strip. rewrite lstrip_rstrip by apply lstrip_idem.
  apply rstrip_idem.
Qed.

(** [script.split(opening)[1].split("```")[0].strip()] when [opening]
    occurs: the text after the first [opening], up to the next [opening]
    and then up to the first fence, stripped. *)
Lemma between_value (script opening : string) :
  opening ≠ "" → contains script opening = true →
  ∃ a, after script opening = Some a
       ∧ between script opening
         = Ok (strip (before (before a opening) fence)).
Proof.
  intros Hne Hc. unfold between, index.
  destruct (split_second script opening Hne Hc) as (a & Ha & ->).
  rewrite split_first by done. eauto.
Qed.

Lemma extract_fenced (script : string) :
  contains script fence = true →
  ∃ x, extract_script script = Ok (strip (before x fence)).
Proof.
  intros Hc. unfold extract_script.
  destruct (contains script fence_bash) eqn:E.
  - destruct (between_value script fence_bash) as (a & _ & ->); eauto.
  - rewrite Hc. destruct (between_value script fence) as (a & _ & ->); eauto.
Qed.

End ExtractMore.

(** * More on the version registry *)

Section RegistryMore.
Import PyStr Registry.

Lemma get_next_version_is_next (listing : list string) :
  ∃ v, Registry.get_next_version listing = Ok v ∧ is_next_version listing v.
Proof.
  rewrite get_next_version_value.
  set (vs := omap embedded_version listing).
  assert (∀ n, n ∈ vs ↔ ∃ f, f ∈ listing ∧ embedded_version f = Some n)
    as Hvs by (intros n; apply list_elem_of_omap).
  eexists. split; [done|]. split; [|split].
  - intros f n Hf Hn.
    assert (n ∈ vs) as Hin by (apply Hvs; eauto).
    destruct vs as [|v vs']; [by apply elem_of_nil in Hin|].
    pose proof (py_max_ge v vs' n Hin). lia.
  - intros Hnone. destruct vs as [|v vs']; [done|].
    assert (v ∈ v :: vs') as Hin by left.
    apply Hvs in Hin as (f & Hf & Hv). rewrite Hnone in Hv; done.
  - intros (f & Hf & n & Hn).
    assert (n ∈ vs) as Hin by (apply Hvs; eauto).
    destruct vs as [|v vs']; [by apply elem_of_nil in Hin|].
    pose proof (py_max_in v vs') as Hmax.
    apply Hvs in Hmax as (g & Hg & Hgv). exists g.
    split; [done|]. split; [|lia].
    rewrite Hgv. f_equal. lia.
Qed.

Lemma is_next_version_unique (listing : list string) (v v' : N) :
  is_next_version listing v → is_next_version listing v' → v = v'.
Proof.
  intros (Hu & Hn & Ha) (Hu' & Hn' & Ha').
  destruct (omap embedded_version listing) as [|n ns] eqn:E.
  - assert (∀ f, f ∈ listing → embedded_version f = None) as Hnone.
    { intros f Hf. destruct (embedded_version f) as [n|] eqn:En; [|done].
      assert (n ∈ omap embedded_version listing) as Hin
        by (apply list_elem_of_omap; eauto).
      rewrite E in Hin. by apply elem_of_nil in Hin. }
    by rewrite (Hn Hnone), (Hn' Hnone).
  - assert (∃ f, f ∈ listing ∧ is_Some (embedded_version f)) as Hsome.
    { assert (n ∈ omap embedded_version listing) as Hin
        by (rewrite E; left).
      apply list_elem_of_omap in Hin as (f & Hf & Hv). exists f.
      split; [done|]. by rewrite Hv. }
    destruct (Ha Hsome) as (f & Hf & Hv & Hp).
    destruct (Ha' Hsome) as (f' & Hf' & Hv' & Hp').
    pose proof (Hu f' _ Hf' Hv'). pose proof (Hu' f _ Hf Hv). lia.
Qed.

Lemma is_next_version_run (listing : list string) (v : N) :
  Registry.get_next_version listing = Ok v ↔ is_next_version listing v.
Proof.
  destruct (get_next_version_is_next listing) as (v0 & E & H0).
  rewrite E. split.
  - by intros [= <-].
  - intros H. f_equal. by eapply is_next_version_unique.
Qed.

End RegistryMore.

(** * Counting the calls of the task loop *)

Ltac quiet_req :=
  cbn [task_request String.eqb orb];
  rewrite ?N.eqb_refl, ?bool_decide_eq_true_2 by done; done.

Section Counting.

Context (f : event → bool).

Lemma count_app (evs1 evs2 : list event) :
  count f (evs1 ++ evs2) = count f evs1 + count f evs2.
Proof. unfold count. by rewrite List.filter_app, length_app. Qed.

Lemma count_zero (evs : list event) :
  count f evs = 0 ↔ Forall (λ e, f e = false) evs.
Proof.
  unfold count. induction evs as [|e evs IH]; [by split|].
  cbn [List.filter]. destruct (f e) eqn:E.
  - split; [done|]. intros H. apply Forall_cons in H as [? _]. congruence.
  - rewrite IH. split; [by constructor|]. by intros [_ ?]%Forall_cons.
Qed.

Lemma count_le_weaken {A} (k k' : nat) (m : M A) :
  count_le f k m → k ≤ k' → count_le f k' m.
Proof.
  intros H Hk w. destruct (H w) as (evs & Ht & Hc). exists evs.
  split; [done|lia].
Qed.

Lemma count_le_ret {A} (x : A) : count_le f 0 (ret x).
Proof. intros w. exists []. by rewrite app_nil_r. Qed.

Lemma count_le_raise {A} (e : exn) : count_le f 0 (raise (A:=A) e).
Proof. intros w. exists []. by rewrite app_nil_r. Qed.

Lemma count_le_lift {A} (r : result A) : count_le f 0 (lift r).
Proof. destruct r; [apply count_le_ret|apply count_le_raise]. Qed.

Lemma count_le_fails_with (o : option exn) : count_le f 0 (fails_with o).
Proof. destruct o; [apply count_le_raise|apply count_le_ret]. Qed.

(** A step that leaves the trace alone. *)
Lemma count_le_silent {A} (x : A) (g : world → world) :
  (∀ w, trace (g w) = trace w) → count_le f 0 (λ w, (Ret x, g w)).
Proof. intros H w. exists []. cbn [snd]. by rewrite app_nil_r, H. Qed.

Lemma count_le_bind {A B} (k1 k2 : nat) (m : M A) (k : A → M B) :
  count_le f k1 m → (∀ x, count_le f k2 (k x)) →
  count_le f (k1 + k2) (bind m k).
Proof.
  intros Hm Hk w. unfold bind. destruct (Hm w) as (evs1 & H1 & Hc1).
  destruct (m w) as [[x|e|p] w']; simpl in H1.
  - destruct (Hk x w') as (evs2 & H2 & Hc2). exists (evs1 ++ evs2).
    rewrite H2, H1, app_assoc, count_app. split; [done|lia].
  - exists evs1. split; [done|lia].
  - exists evs1. split; [done|lia].
Qed.

Lemma count_le_try {A} (k1 k2 : nat) (m : M A) (h : exn → M A) :
  count_le f k1 m → (∀ e, count_le f k2 (h e)) →
  count_le f (k1 + k2) (try_except m h).
Proof.
  intros Hm Hh w. unfold try_except. destruct (Hm w) as (evs1 & H1 & Hc1).
  destruct (m w) as [[x|e|p] w']; simpl in H1.
  - exists evs1. split; [done|lia].
  - destruct (Hh e w') as (evs2 & H2 & Hc2). exists (evs1 ++ evs2).
    rewrite H2, H1, app_assoc, count_app. split; [done|lia].
  - exists evs1. split; [done|lia].
Qed.

Lemma count_le_bind0 {A B} (m : M A) (k : A → M B) :
  count_le f 0 m → (∀ x, count_le f 0 (k x)) → count_le f 0 (bind m k).
Proof. intros Hm Hk. by apply (count_le_bind 0 0). Qed.

Lemma count_le_emit (e : event) :
  count_le f (if f e then 1 else 0) (emit e).
Proof.
  intros w. exists [e]. split; [done|]. unfold count. cbn [List.filter].
  by destruct (f e).
Qed.

Lemma count_le_emit0 (e : event) : f e = false → count_le f 0 (emit e).
Proof. intros H. pose proof (count_le_emit e) as He. by rewrite H in He. Qed.

Lemma count_le_api0 (o : option exn) (req : gh_request) :
  f (Api req) = false → count_le f 0 (github_api o req).
Proof.
  intros H. unfold github_api.
  apply count_le_bind0; [by apply count_le_emit0|intros _].
  apply count_le_bind0; [apply count_le_fails_with|intros _].
  by apply count_le_silent.
Qed.

(** The task loop.  [f] may count model calls, at most [c] for each; it
    counts no other call that stays on the machine and no pull request. *)
Context (cf : string) (c : nat).

Hypothesis f_model :
  ∀ task previous, (if f (CallModel task previous) then 1 else 0) ≤ c.
Hypothesis f_local :
  ∀ e, match e with
       | CallModel _ _ | Api _ | Sleep _ => True
       | _ => f e = false
       end.
Hypothesis f_pull : ∀ t b h base, f (Api (CreatePull t b h base)) = false.

Lemma count_le_generate (a : attempt_env) (task : string)
    (previous : option previous_attempt) :
  count_le f c (generate_evolution_script a task previous).
Proof.
  unfold generate_evolution_script.
  eapply count_le_weaken.
  - apply count_le_bind; [apply count_le_emit|intros _].
    apply count_le_bind0; [apply count_le_lift|intros ?; apply count_le_lift].
  - pose proof (f_model task previous). lia.
Qed.

Lemma count_le_create (a : attempt_env) (script : string) (version : N) :
  count_le f 0 (create_new_version cf a script version).
Proof.
  unfold create_new_version, write_file, run_bash.
  apply count_le_bind0; [|intros _].
  { apply count_le_bind0; [apply count_le_emit0, (f_local (WriteFile _ _))|].
    intros _. by apply count_le_silent. }
  apply count_le_bind0; [apply count_le_emit0, (f_local (Chmod _))|intros _].
  apply count_le_bind0; [|intros r].
  { apply count_le_bind0; [apply count_le_emit0, (f_local (RunBash _))|].
    intros _. by apply count_le_silent. }
  destruct r as [rc err|e]; [|apply count_le_raise].
  destruct (rc =? 0)%Z; [apply count_le_ret|apply count_le_raise].
Qed.

Lemma count_le_test (a : attempt_env) (path : string) :
  count_le f 0 (test_new_version a path).
Proof.
  unfold test_new_version. apply (count_le_try 0 0); [|intros _; apply count_le_ret].
  apply count_le_bind0; [apply count_le_emit0, (f_local (RunTest _))|intros _].
  destruct (test a); [apply count_le_ret|apply count_le_raise].
Qed.

Lemma count_le_git (a : attempt_env) (k : nat) (args : list string) :
  count_le f 0 (git a k args).
Proof.
  unfold git. apply count_le_bind0; [apply count_le_emit0, (f_local (Git _))|].
  intros _. apply count_le_fails_with.
Qed.

Lemma count_le_pull_request (a : attempt_env) (version : N)
    (task branch : string) :
  count_le f 0 (create_pull_request a version task branch).
Proof.
  unfold create_pull_request.
  repeat (apply count_le_bind0; [apply count_le_git|intros _]).
  apply count_le_bind0; [by apply count_le_api0|intros _].
  apply count_le_git.
Qed.

Lemma count_le_execv {A} (a : attempt_env) (path : string) :
  count_le f 0 (os_execv (A:=A) a path).
Proof.
  unfold os_execv.
  apply count_le_bind0; [apply count_le_emit0, (f_local (Execv _))|intros _].
  destruct (execv_fails a); [apply count_le_raise|].
  intros w. exists []. by rewrite app_nil_r.
Qed.

Lemma count_le_attempt_try (a : attempt_env) (version n : N) (task : string)
    (attempt : nat) (previous : option previous_attempt) :
  quiet f n →
  count_le f c (attempt_try cf a version n task attempt previous).
Proof.
  intros Hn. unfold attempt_try.
  replace c with (c + 0) by lia.
  apply count_le_bind; [apply count_le_generate|intros script].
  apply count_le_bind0; [by apply count_le_silent|intros _].
  apply count_le_bind0; [apply count_le_create|intros path].
  apply count_le_bind0; [apply count_le_test|intros passed].
  destruct passed.
  - apply count_le_bind0; [apply count_le_pull_request|intros _].
    apply count_le_bind0; [apply count_le_api0, Hn; quiet_req|intros _].
    apply count_le_bind0; [apply count_le_api0, Hn; quiet_req|intros _].
    apply count_le_execv.
  - destruct (attempt =? max_retries)%nat; [|apply count_le_ret].
    apply count_le_bind0; [apply count_le_api0, Hn; quiet_req|intros _].
    apply count_le_bind0; [apply count_le_api0, Hn; quiet_req|intros _].
    apply count_le_ret.
Qed.

Lemma count_le_attempt_except (a : attempt_env) (n : N) (attempt : nat)
    (error : exn) :
  quiet f n → count_le f 0 (attempt_except a n attempt error).
Proof.
  intros Hn. unfold attempt_except, script_or_na.
  apply count_le_bind0; [|intros script].
  { intros w. exists []. by rewrite app_nil_r. }
  destruct (attempt =? max_retries)%nat; [|apply count_le_ret].
  apply count_le_bind0; [apply count_le_api0, Hn; quiet_req|intros _].
  apply count_le_bind0; [apply count_le_api0, Hn; quiet_req|intros _].
  apply count_le_ret.
Qed.

Lemma count_le_attempt_loop (ie : issue_env) (version n : N) (task : string)
    (todo : list nat) (previous : option previous_attempt) :
  quiet f n →
  count_le f (c * length todo)
    (attempt_loop cf ie version n task todo previous).
Proof.
  intros Hn. revert previous.
  induction todo as [|attempt rest IH]; intros previous.
  - eapply count_le_weaken; [apply count_le_ret|lia].
  - cbn [attempt_loop length].
    replace (c * S (length rest)) with ((c + 0) + c * length rest) by lia.
    apply count_le_bind.
    + apply count_le_try; [by apply count_le_attempt_try|].
      intros e. by apply count_le_attempt_except.
    + intros [[] previous']; [|apply IH].
      eapply count_le_weaken; [apply count_le_ret|lia].
Qed.

Lemma count_le_process_issue (ie : issue_env) (version : N) (i : issue) :
  quiet f (number i) →
  count_le f (c * max_retries) (process_issue cf ie version i).
Proof.
  intros Hn. unfold process_issue.
  destruct (_ && _).
  { eapply count_le_weaken; [apply count_le_ret|lia]. }
  replace (c * max_retries) with (0 + c * length (seq 1 max_retries))
    by (by rewrite length_seq).
  apply count_le_bind; [|intros _; by apply count_le_attempt_loop].
  destruct (bool_decide _); [|apply count_le_ret].
  apply count_le_bind0; [apply count_le_api0, Hn; quiet_req|intros _].
  apply count_le_api0, Hn; quiet_req.
Qed.

Lemma count_le_for_issues (se : scan_env) (version : N) (idx : nat)
    (issues : list issue) :
  (∀ i, i ∈ issues → quiet f (number i)) →
  count_le f (c * max_retries * length issues)
    (for_issues cf se version idx issues).
Proof.
  revert idx. induction issues as [|i rest IH]; intros idx Hq.
  - eapply count_le_weaken; [apply count_le_ret|lia].
  - cbn [for_issues length].
    replace (c * max_retries * S (length rest))
      with (c * max_retries + c * max_retries * length rest) by lia.
    apply count_le_bind.
    + apply count_le_process_issue, Hq. left.
    + intros _. apply IH. intros j Hj. apply Hq. by right.
Qed.

End Counting.

(** * Outcomes of the task loop *)

Section Outcomes.

Context (cf : string).

(** Every step only adds calls to the trace. *)
Lemma attempt_grows (a : attempt_env) (version n : N) (task : string)
    (attempt : nat) (previous : option previous_attempt) (w : world) :
  ∃ evs,
    trace (try_except (attempt_try cf a version n task attempt previous)
             (attempt_except a n attempt) w).2 = trace w ++ evs.
Proof.
  assert (count_le (λ _, false) 0
            (try_except (attempt_try cf a version n task attempt previous)
               (attempt_except a n attempt))) as H.
  { apply (count_le_try _ 0 0).
    - apply (count_le_attempt_try _ cf 0); [done|by intros []|done|done].
    - intros e. by apply count_le_attempt_except. }
  destruct (H w) as (evs & Ht & _). eauto.
Qed.

Lemma process_issue_grows (ie : issue_env) (version : N) (i : issue)
    (w : world) :
  ∃ evs, trace (process_issue cf ie version i w).2 = trace w ++ evs.
Proof.
  assert (count_le (λ _, false) (0 * max_retries)
            (process_issue cf ie version i)) as H
    by (apply count_le_process_issue; [done|by intros []|done|done]).
  destruct (H w) as (evs & Ht & _). eauto.
Qed.

(** What the [try] block does after a successful validation: the first
    publish step that raises decides, then [os.execv]. *)
Lemma after_validation_outcome (a : attempt_env) (version n : N)
    (task script : string) (attempt : nat) (w : world) :
  (after_validation a version n task script attempt true w).1
  = match publish_failure a with
    | Some e => Exc e
    | None =>
        match execv_fails a with
        | Some e => Exc e
        | None => Replaced (Registry.artifact_name version)
        end
    end.
Proof.
  unfold after_validation, create_pull_request, publish_failure.
  cbn [foldr].
  repeat (rewrite ?bind_assoc;
          match goal with
          | |- context [git_fails a ?k] =>
              destruct (git_fails a k) eqn:?;
              [by erewrite git_raises by eassumption
              |rewrite git_ok by done]
          | |- context [api_fails a ?s] =>
              destruct (api_fails a s) eqn:?;
              [by rewrite api_raises|rewrite api_ok]
          end).
  rewrite os_execv_run. by destruct (execv_fails a).
Qed.

Lemma attempt_except_outcome (a : attempt_env) (n : N) (attempt : nat)
    (e : exn) (w : world) (p : string) :
  (attempt_except a n attempt e w).1 ≠ Replaced p.
Proof.
  destruct (decide (attempt = max_retries)) as [->|Hne].
  - rewrite attempt_except_last. cbv zeta.
    destruct (api_fails a SiteHandlerComment); [done|].
    by destruct (api_fails a SiteHandlerLabel).
  - by rewrite attempt_except_continue.
Qed.

Lemma after_validation_failed_outcome (a : attempt_env) (version n : N)
    (task script : string) (attempt : nat) (w : world) :
  (∃ e w', after_validation a version n task script attempt false w
           = (Exc e, w'))
  ∨ (∃ r w', after_validation a version n task script attempt false w
             = (Ret r, w')).
Proof.
  destruct (decide (attempt = max_retries)) as [->|Hne].
  - rewrite after_validation_failed_last. cbv zeta.
    destruct (api_fails a SiteGiveUpComment); [left; by eexists _, _|].
    destruct (api_fails a SiteGiveUpLabel); [left; by eexists _, _|].
    right; by eexists _, _.
  - unfold after_validation. apply Nat.eqb_neq in Hne. rewrite Hne.
    right; by eexists _, _.
Qed.

(** Only a passing cycle whose publication goes through replaces the
    process. *)
Lemma attempt_replaced_inv (a : attempt_env) (version n : N) (task : string)
    (attempt : nat) (previous : option previous_attempt) (w : world)
    (p : string) :
  (try_except (attempt_try cf a version n task attempt previous)
     (attempt_except a n attempt) w).1 = Replaced p →
  cycle_passes a = true ∧ publishes a = true.
Proof.
  unfold try_except. rewrite attempt_try_run.
  unfold cycle_passes, publishes.
  destruct (generated a) as [script|e];
    [|intros H; by apply attempt_except_outcome in H].
  cbv zeta. destruct (bash a) as [rc err|e];
    [|intros H; by apply attempt_except_outcome in H].
  simpl exited_zero. destruct (rc =? 0)%Z;
    [|intros H; by apply attempt_except_outcome in H].
  set (w1 := add_events _ _).
  destruct (exited_zero (test a)).
  - pose proof (after_validation_outcome a version n task script attempt w1)
      as Ho.
    destruct (after_validation a version n task script attempt true w1)
      as [[r|e|q] w2]; simpl in Ho.
    + done.
    + intros H; by apply attempt_except_outcome in H.
    + intros _. destruct (publish_failure a); [done|].
      by destruct (execv_fails a).
  - destruct (after_validation_failed_outcome a version n task script
                attempt w1) as [(e & w' & ->)|(r & w' & ->)].
    + intros H; by apply attempt_except_outcome in H.
    + done.
Qed.

Lemma attempt_loop_replaced (ie : issue_env) (version n : N) (task : string)
    (todo : list nat) (previous : option previous_attempt) (w : world)
    (p : string) :
  (attempt_loop cf ie version n task todo previous w).1 = Replaced p →
  ∃ attempt previous' evs,
    attempt ∈ todo
    ∧ cycle_passes (attempts ie attempt) = true
    ∧ publishes (attempts ie attempt) = true
    ∧ p = Registry.artifact_name version
    ∧ trace (attempt_loop cf ie version n task todo previous w).2
      = trace w ++ evs
          ++ cycle_events cf (attempts ie attempt) version task previous'
          ++ publish_events version n task attempt.
Proof.
  revert previous w. induction todo as [|attempt rest IH]; intros previous w;
    [done|].
  rewrite attempt_loop_cons.
  destruct (attempt_grows (attempts ie attempt) version n task attempt
              previous w) as [evs0 Hg].
  destruct (try_except _ _ w) as [[[[] previous']|e|q] w1] eqn:E;
    [done| |done|].
  - intros H. destruct (IH previous' w1 H)
      as (att & p' & evs & Hin & Hc & Hp & -> & Ht).
    exists att, p', (evs0 ++ evs). split; [by right|].
    do 3 (split; [done|]). simpl in Hg. rewrite Ht, Hg.
    by rewrite <- !app_assoc.
  - cbn [fst snd]. intros [= ->].
    assert ((try_except
               (attempt_try cf (attempts ie attempt) version n task attempt
                  previous)
               (attempt_except (attempts ie attempt) n attempt) w).1
            = Replaced p) as Hr by (by rewrite E).
    apply attempt_replaced_inv in Hr as [Hc Hp].
    destruct (passing_attempt cf (attempts ie attempt) version n task attempt
                previous w Hc Hp) as (w' & E' & Ht).
    rewrite E in E'. injection E' as -> <-.
    exists attempt, previous, []. split; [left|]. by do 3 (split; [done|]).
Qed.

Lemma process_issue_replaced (ie : issue_env) (version : N) (i : issue)
    (w : world) (p : string) :
  (process_issue cf ie version i w).1 = Replaced p →
  ∃ attempt previous evs,
    1 ≤ attempt ≤ max_retries
    ∧ cycle_passes (attempts ie attempt) = true
    ∧ publishes (attempts ie attempt) = true
    ∧ p = Registry.artifact_name version
    ∧ trace (process_issue cf ie version i w).2
      = trace w ++ evs
          ++ cycle_events cf (attempts ie attempt) version (title i) previous
          ++ publish_events version (number i) (title i) attempt.
Proof.
  unfold process_issue. destruct (_ && _); [done|].
  rewrite bind_run.
  set (m := if bool_decide _ then _ else _).
  assert (∃ evs, trace (m w).2 = trace w ++ evs) as [evs0 Hg].
  { subst m. destruct (bool_decide _); [|exists []; by rewrite app_nil_r].
    rewrite bind_run, github_api_run.
    destruct (delete_failed_fails ie); [by eexists|].
    rewrite github_api_run.
    destruct (delete_retry_fails ie); eexists; trace_norm; reflexivity. }
  assert (∀ q, (m w).1 ≠ Replaced q) as Hm.
  { subst m. intros q. destruct (bool_decide _); [|done].
    rewrite bind_run, github_api_run.
    destruct (delete_failed_fails ie); [done|].
    rewrite github_api_run. by destruct (delete_retry_fails ie). }
  destruct (m w) as [[[]|e|q] w1]; [|done|by destruct (Hm q)].
  intros H. apply attempt_loop_replaced in H
    as (att & p' & evs & Hin & Hc & Hp & -> & Ht).
  exists att, p', (evs0 ++ evs).
  split; [apply elem_of_seq in Hin; unfold max_retries in *; lia|].
  do 3 (split; [done|]). simpl in Hg. rewrite Ht, Hg.
  by rewrite <- !app_assoc.
Qed.

Lemma for_issues_replaced (se : scan_env) (version : N) (idx : nat)
    (issues : list issue) (w : world) (p : string) :
  (for_issues cf se version idx issues w).1 = Replaced p →
  ∃ k i attempt previous evs,
    issues !! k = Some i
    ∧ 1 ≤ attempt ≤ max_retries
    ∧ cycle_passes (attempts (issue_envs se (idx + k)) attempt) = true
    ∧ publishes (attempts (issue_envs se (idx + k)) attempt) = true
    ∧ p = Registry.artifact_name version
    ∧ trace (for_issues cf se version idx issues w).2
      = trace w ++ evs
          ++ cycle_events cf (attempts (issue_envs se (idx + k)) attempt)
               version (title i) previous
          ++ publish_events version (number i) (title i) attempt.
Proof.
  revert idx w. induction issues as [|i rest IH]; intros idx w; [done|].
  cbn [for_issues]. rewrite bind_run.
  destruct (process_issue_grows (issue_envs se idx) version i w)
    as [evs0 Hg].
  destruct (process_issue cf (issue_envs se idx) version i w)
    as [[[]|e|q] w1] eqn:E; [| done |].
  - intros H. destruct (IH (S idx) w1 H)
      as (k & j & att & p' & evs & Hk & Ha & Hc & Hp & -> & Ht).
    exists (S k), j, att, p', (evs0 ++ evs). split; [done|].
    replace (idx + S k) with (S idx + k) by lia.
    do 4 (split; [done|]). simpl in Hg. rewrite Ht, Hg.
    by rewrite <- !app_assoc.
  - cbn [fst snd]. intros [= ->].
    assert ((process_issue cf (issue_envs se idx) version i w).1
            = Replaced p) as Hr by (by rewrite E).
    apply process_issue_replaced in Hr
      as (att & p' & evs & Ha & Hc & Hp & -> & Ht).
    rewrite E in Ht. exists 0, i, att, p', evs. split; [done|].
    replace (idx + 0) with idx by lia. by do 4 (split; [done|]).
Qed.

(** One iteration of the loop of [main], step by step. *)
Lemma scan_run (se : scan_env) (w : world) :
  ∃ version,
    Registry.get_next_version (listdir w) = Ok version
    ∧ scan cf se w
      = let w1 := add_events [Api ListOpenTasks] w in
        match issues_response se with
        | Raise e => (Ret tt, add_events [Sleep 60] w1)
        | Ok issues =>
            match for_issues cf se version 0 issues w1 with
            | (Ret _, w2) => (Ret tt, add_events [Sleep 30] w2)
            | (Exc _, w2) => (Ret tt, add_events [Sleep 60] w2)
            | (Replaced p, w2) => (Replaced p, w2)
            end
        end.
Proof.
  destruct (get_next_version_run w) as (v & Hv & Hrun).
  exists v. split; [done|].
  unfold scan, try_except. rewrite bind_run, Hrun.
  rewrite bind_run. cbn [emit]. rewrite bind_run. cbv zeta.
  destruct (issues_response se) as [issues|e]; [|done].
  cbn [lift ret]. rewrite bind_run.
  by destruct (for_issues cf se v 0 issues _) as [[[]|e|q] w2].
Qed.

End Outcomes.

(** * What a failed attempt hands on *)

Section Summaries.

Context (cf : string).

(** A failing attempt that is not the last leaves the script it generated
    bound to [evolution_script]. *)
Lemma failing_attempt_script (a : attempt_env) (version n : N)
    (task : string) (attempt : nat) (previous : option previous_attempt)
    (w : world) (script : string) :
  attempt ≠ max_retries → cycle_passes a = false →
  generated a = Ok script →
  ∃ w' previous',
    try_except (attempt_try cf a version n task attempt previous)
      (attempt_except a n attempt) w
    = (Ret (Continue, Some previous'), w')
    ∧ evolution_script w' = Some script
    ∧ trace w' = trace w ++ cycle_events cf a version task previous.
Proof.
  intros Hne Hf Hg. unfold try_except. rewrite attempt_try_run.
  unfold cycle_passes in Hf. unfold cycle_events. rewrite Hg in *.
  cbv zeta. destruct (bash a) as [rc err|e].
  - simpl in Hf. destruct (rc =? 0)%Z eqn:Hrc.
    + simpl in Hf. rewrite Hf. unfold after_validation.
      apply Nat.eqb_neq in Hne. rewrite Hne.
      eexists _, _. split; [done|]. split; [done|]. simpl.
      by rewrite Hrc, <- !app_assoc.
    + rewrite attempt_except_continue by done.
      eexists _, _. split; [done|]. split; [done|]. simpl.
      by rewrite Hrc, <- !app_assoc.
  - rewrite attempt_except_continue by done.
    eexists _, _. split; [done|]. split; [done|]. simpl.
    by rewrite <- !app_assoc.
Qed.

(** An attempt whose generation raises, when it is not the last. *)
Lemma generation_fails_attempt (a : attempt_env) (version n : N)
    (task : string) (attempt : nat) (previous : option previous_attempt)
    (w : world) (e : exn) :
  attempt ≠ max_retries → generated a = Raise e →
  try_except (attempt_try cf a version n task attempt previous)
    (attempt_except a n attempt) w
  = (Ret (Continue,
          Some (mkPrev (default "N/A" (evolution_script w)) (exn_msg e))),
     add_events [CallModel task previous] w).
Proof.
  intros Hne Hg. unfold try_except. rewrite attempt_try_run, Hg.
  by rewrite attempt_except_continue.
Qed.

End Summaries.

(** * The scan and the loop of [main] *)

Section ScanFacts.

Context (cf : string).

Lemma count_cons (f : event → bool) (e : event) (evs : list event) :
  count f (e :: evs) = (if f e then 1 else 0) + count f evs.
Proof. unfold count. cbn [List.filter]. by destruct (f e). Qed.

Lemma count_around (f : event → bool) (first final : event)
    (evs : list event) :
  count f (first :: evs ++ [final])
  = (if f first then 1 else 0) + count f evs + (if f final then 1 else 0).
Proof.
  rewrite count_cons, count_app, count_cons.
  change (count f []) with 0. lia.
Qed.

Lemma publish_events_snoc (version n : N) (task : string) (attempt : nat) :
  publish_events version n task attempt
  = (pull_request_events version task ("evolution-v" +:+ PyStr.str version)
       ++ [ Api (PostComment n (success_comment version attempt));
            Api (CloseIssue n) ])
      ++ [Execv (Registry.artifact_name version)].
Proof. done. Qed.

Lemma for_issues_calls (se : scan_env) (version : N) (idx : nat)
    (issues : list issue) :
  count_le is_call_model (max_retries * length issues)
    (for_issues cf se version idx issues).
Proof.
  eapply count_le_weaken.
  - apply (count_le_for_issues _ cf 1); [done|by intros []|done|].
    intros i _ req _. done.
  - lia.
Qed.

Lemma for_issues_no_sleep (se : scan_env) (version : N) (idx : nat)
    (issues : list issue) :
  count_le is_sleep 0 (for_issues cf se version idx issues).
Proof.
  eapply count_le_weaken.
  - apply (count_le_for_issues _ cf 0); [done|by intros []|done|].
    intros i _ req _. done.
  - lia.
Qed.

Lemma strays_task (issues : list issue) (i : issue) :
  i ∈ issues → quiet (strays issues) (number i).
Proof.
  intros Hi req Hreq. unfold strays.
  assert (existsb (λ j, task_request (number j) req) issues = true) as ->.
  { apply existsb_exists. exists i. split; [|done].
    by apply list_elem_of_In. }
  by destruct req.
Qed.

Lemma for_issues_no_stray (se : scan_env) (version : N) (idx : nat)
    (issues : list issue) :
  count_le (strays issues) 0 (for_issues cf se version idx issues).
Proof.
  eapply count_le_weaken.
  - apply (count_le_for_issues _ cf 0); [done|by intros []|done|].
    intros i Hi. by apply strays_task.
  - lia.
Qed.

(** What a request that does not stray is. *)
Lemma strays_false (issues : list issue) (req : gh_request) :
  strays issues (Api req) = false →
  req = ListOpenTasks ∨ (∃ t b h base, req = CreatePull t b h base)
  ∨ ∃ i, i ∈ issues ∧ task_request (number i) req = true.
Proof.
  unfold strays. destruct req; try (by left); try (right; left; by eauto 6);
    intros H%negb_false_iff%existsb_exists; destruct H as (i & Hi & Ht);
    right; right; exists i; (split; [by apply list_elem_of_In|done]).
Qed.

Lemma scan_sleeps (se : scan_env) (w : world) :
  (∀ e, (scan cf se w).1 ≠ Exc e)
  ∧ ((scan cf se w).1 = Ret tt →
     ∃ evs secs,
       trace (scan cf se w).2
       = trace w ++ Api ListOpenTasks :: evs ++ [Sleep secs]
       ∧ count is_sleep evs = 0 ∧ (secs = 30 ∨ secs = 60)
       ∧ (∀ e, issues_response se = Raise e → evs = [] ∧ secs = 60))
  ∧ (∀ p, (scan cf se w).1 = Replaced p →
     ∃ evs,
       trace (scan cf se w).2
       = trace w ++ Api ListOpenTasks :: evs ++ [Execv p]
       ∧ count is_sleep evs = 0).
Proof.
  destruct (scan_run cf se w) as (v & Hv & ->). cbv zeta.
  destruct (issues_response se) as [issues|e0].
  - set (w1 := add_events [Api ListOpenTasks] w).
    destruct (for_issues_no_sleep se v 0 issues w1) as (evs & Ht & Hc).
    pose proof (for_issues_replaced cf se v 0 issues w1) as Hr.
    destruct (for_issues cf se v 0 issues w1) as [[[]|e|q] w2];
      cbn [fst snd] in *.
    + split; [done|]. split; [|done]. intros _. exists evs, 30.
      split; [trace_norm; rewrite Ht; subst w1; by trace_norm|].
      split; [lia|]. split; [by left|done].
    + split; [done|]. split; [|done]. intros _. exists evs, 60.
      split; [trace_norm; rewrite Ht; subst w1; by trace_norm|].
      split; [lia|]. split; [by right|done].
    + split; [done|]. split; [done|]. intros p [= <-].
      destruct (Hr q eq_refl)
        as (k & i & att & prev & evs' & _ & _ & _ & _ & -> & Ht').
      rewrite Ht in Ht'. apply app_inv_head in Ht'.
      rewrite publish_events_snoc in Ht'.
      set (front := pull_request_events _ _ _ ++ _) in Ht'.
      exists (evs' ++ cycle_events cf (attempts (issue_envs se (0 + k)) att)
                        v (title i) prev ++ front).
      split.
      * rewrite Ht, Ht'. subst w1. by trace_norm.
      * rewrite Ht' in Hc. rewrite !app_assoc in Hc.
        rewrite count_app in Hc. rewrite <- !app_assoc in Hc. lia.
  - split; [done|]. split; [|done]. intros _. exists [], 60.
    split; [by trace_norm|]. split; [done|]. split; [by right|done].
Qed.

End ScanFacts.

(** * Failures after the validation *)

Section LateFailures.

Context (cf : string).

Lemma is_open_applied_close (n : N) (w : world) :
  is_open n (applied (CloseIssue n) w) = (λ _, false) <$> is_open n w.
Proof.
  unfold is_open. cbn [tracker applied apply_request].
  rewrite lookup_alter, decide_True by done.
  by destruct (tracker w !! n).
Qed.

(** An attempt that passes and whose publish steps all return: the whole
    publication is in the trace, the issue is closed, and [os.execv]
    decides the outcome. *)
Lemma published_attempt (a : attempt_env) (version n : N) (task : string)
    (attempt : nat) (previous : option previous_attempt) (w : world) :
  cycle_passes a = true → publish_failure a = None →
  ∃ script w',
    generated a = Ok script
    ∧ attempt_try cf a version n task attempt previous w
      = (match execv_fails a with
         | Some e => Exc e
         | None => Replaced (Registry.artifact_name version)
         end, w')
    ∧ trace w' = trace w ++ cycle_events cf a version task previous
                          ++ publish_events version n task attempt
    ∧ evolution_script w' = Some script
    ∧ is_open n w' = (λ _, false) <$> is_open n w.
Proof.
  intros (script & rc & err & Hg & Hb & Hrc & Ht)%cycle_passes_inv Hp.
  rewrite attempt_try_run. unfold cycle_events.
  rewrite Hg, Hb. cbv zeta. simpl exited_zero. rewrite Hrc, Ht.
  unfold publish_failure in Hp. cbn [foldr] in Hp.
  unfold after_validation, create_pull_request.
  repeat match type of Hp with
         | context [git_fails a ?k] =>
             destruct (git_fails a k) eqn:?; [done|]
         | context [api_fails a ?k] =>
             destruct (api_fails a k) eqn:?; [done|]
         end.
  repeat (rewrite ?bind_assoc;
          first [rewrite git_ok by done | rewrite api_ok]).
  rewrite os_execv_run.
  exists script. eexists. split; [done|]. split; [reflexivity|].
  split; [by trace_norm|]. split; [done|].
  rewrite is_open_add_events, is_open_applied_close.
  by rewrite is_open_add_events, is_open_applied_comment.
Qed.

End LateFailures.

(** * Further properties: the start-up environment *)

Section EnvProperties.
Import PyStr Env.

(** X1.  One line of [.env].  A line that is blank once stripped, that
    begins with [#], or that has no [=] changes nothing.  Any other line
    is cut at its first [=]: the name is all that precedes it, the value
    all that follows it, further [=] signs included, and neither is
    stripped or unquoted; the unpacking never fails.  The variable is set
    to the value unless the name is empty or a NUL occurs. *)
Theorem dotenv_line_spec (line : string) (environ : gmap string string) :
  (strip line = "" ∨ startswith (strip line) "#" = true
   ∨ contains (strip line) "=" = false →
   load_line line environ = Ok environ)
  ∧ (strip line ≠ "" → startswith (strip line) "#" = false →
     contains (strip line) "=" = true →
     ∃ key value,
       strip line = key +:+ "=" +:+ value
       ∧ contains key "=" = false
       ∧ load_line line environ = environ_set key value environ
       ∧ (key ≠ "" → string_mem NUL key = false →
          string_mem NUL value = false →
          load_line line environ = Ok (<[key := value]> environ))).
Proof.
  split.
  - intros H%assignment_none. by rewrite load_line_assignment, H.
  - intros H1 H2 H3.
    destruct (assignment line) as [[key value]|] eqn:E.
    + pose proof (assignment_cut _ _ _ E) as (Hs & Hk & _).
      exists key, value. split; [done|].
      split; [by rewrite <- string_mem_contains|].
      split; [by rewrite load_line_assignment, E|].
      intros Hne Hn1 Hn2. rewrite (load_line_value _ _ _ _ E).
      unfold refused. cbn [fst snd]. rewrite Hn1, Hn2.
      by apply String.eqb_neq in Hne as ->.
    + apply assignment_none in E as [?|[?|?]]; congruence.
Qed.

(** X2.  Round trip of a well-formed line.  For a name that is not
    empty, does not begin with white space or [#] and holds no [=], and a
    value that does not end with white space, neither holding a NUL, the
    line [name=value], with or without its line end, sets exactly that
    variable to exactly that value and leaves every other variable as it
    was. *)
Theorem dotenv_round_trip (key value : string)
    (environ : gmap string string) :
  key ≠ "" → lstrip key = key → startswith key "#" = false →
  string_mem "=" key = false → string_mem NUL key = false →
  string_mem NUL value = false → rstrip value = value →
  load_line (key +:+ "=" +:+ value +:+ nl) environ
  = Ok (<[key := value]> environ)
  ∧ load_line (key +:+ "=" +:+ value) environ
    = Ok (<[key := value]> environ)
  ∧ (<[key := value]> environ) !! key = Some value
  ∧ ∀ other, other ≠ key → (<[key := value]> environ) !! other = environ !! other.
Proof.
  intros Hne Hl Hc He Hn1 Hn2 Hr.
  destruct (strip_assignment_line key value Hne Hl Hr) as [Hs1 Hs2].
  assert (refused (key, value) = false) as Hok.
  { unfold refused. cbn [fst snd]. rewrite Hn1, Hn2.
    by apply String.eqb_neq in Hne as ->. }
  split; [|split; [|split]].
  - rewrite (load_line_value _ key value), Hok; [done|].
    by apply assignment_of_cut.
  - rewrite (load_line_value _ key value), Hok; [done|].
    by apply assignment_of_cut.
  - apply lookup_insert_eq.
  - intros other Ho. by apply lookup_insert_ne.
Qed.

(** X3.  The last assignment wins, and [.env] overrides what the process
    inherited.  When loading returns, every variable has the value of
    the last line of the file that assigns it, whatever it was before;
    a variable that no line assigns keeps its value. *)
Theorem dotenv_last_assignment_wins (lines : list string)
    (environ environ' : gmap string string) (key : string) :
  load_environment (Some lines) environ = Ok environ' →
  environ' !! key
  = match last_assigned lines key with
    | Some v => Some v
    | None => environ !! key
    end.
Proof. apply load_lines_lookup. Qed.

(** X4.  When loading fails.  [load_environment] raises exactly when
    [open] raises, or the iteration over the file raises, or one of the
    lines it yields asks for an assignment with an empty name (the
    stripped line begins with [=]) or with a NUL in the name or the
    value; a missing file never raises.  When the reading itself
    succeeds, this is [load_environment] over the lines of the file.
    (The file system encoding is taken to be UTF-8, so that every name
    and value read from the file can be passed to the system.) *)
Theorem load_environment_raises_iff (file : dotenv_file)
    (dotenv : option (list string)) (environ : gmap string string) :
  ((∃ e, load_environment_from file environ = Raise e) ↔
   (∃ e, file = OpenRaises e)
   ∨ ∃ lines failure,
       file = Yields lines failure
       ∧ (is_Some failure
          ∨ ∃ line key value,
              line ∈ lines ∧ assignment line = Some (key, value)
              ∧ (key = "" ∨ string_mem NUL key = true
                 ∨ string_mem NUL value = true)))
  ∧ load_environment_from Missing environ = Ok environ
  ∧ load_environment_from (read_ok dotenv) environ
    = load_environment dotenv environ.
Proof.
  split; [|split; [done|]].
  - destruct file as [|e0|lines failure]; cbn [load_environment_from].
    + split; [by intros [? ?]|].
      intros [[? ?]|(? & ? & ? & _)]; done.
    + split; [intros _; left; by exists e0|]. intros _. by exists e0.
    + split.
      * intros He. right. exists lines, failure. split; [done|].
        destruct (load_lines lines environ) as [environ'|e1] eqn:E.
        -- left. destruct failure; [done|]. by destruct He.
        -- right.
           destruct (proj1 (load_lines_raises lines environ))
             as (line & [key value] & Hin & Ha & Hr); [by exists e1|].
           exists line, key, value. do 2 (split; [done|]).
           unfold refused in Hr. cbn [fst snd] in Hr.
           apply orb_true_iff in Hr as [Hr|Hr];
             [|left; by apply String.eqb_eq].
           apply orb_true_iff in Hr as [Hr|Hr]; auto.
      * intros [[? ?]|(lines' & failure' & [= <- <-] & H)]; [done|].
        destruct (load_lines lines environ) as [environ'|e1] eqn:E;
          [|by exists e1].
        destruct H as [[e1 ->]|(line & key & value & Hin & Ha & Hr)];
          [by exists e1|].
        exfalso.
        destruct (proj2 (load_lines_raises lines environ)) as [e1 He1];
          [|congruence].
        exists line, (key, value). do 2 (split; [done|]).
        unfold refused. cbn [fst snd].
        destruct Hr as [->|[->| ->]]; [|done|by rewrite orb_true_r].
        by rewrite orb_true_r.
  - destruct dotenv as [lines|]; [|done].
    cbn [read_ok load_environment_from load_environment].
    by destruct (load_lines lines environ).
Qed.

(** X5.  From [.env] to the start of [main].  When loading returns and
    the program is not in self-check mode, each of the three settings is
    the value of the last line of [.env] that assigns it and the
    inherited value otherwise; the program monitors the repository so
    named when all three are non-empty, and prints the hint and exits
    with code 1 when one is unset or empty, an empty assignment in
    [.env] included. *)
Theorem dotenv_configures_startup (argv lines : list string)
    (environ environ' : gmap string string) :
  load_environment (Some lines) environ = Ok environ' →
  "--test" ∉ argv →
  let setting key :=
    match last_assigned lines key with
    | Some v => Some v
    | None => environ !! key
    end in
  run_script argv (Some lines) environ
  = Started
      (if truthy (setting "OPENAI_API_KEY") && truthy (setting "GITHUB_TOKEN")
          && truthy (setting "REPO")
       then Monitors
              [ "🤖 Agent monitoring " +:+ default "" (setting "REPO")
                  +:+ " for 'agent-task' issues...";
                "Press Ctrl+C to stop" +:+ nl ]
       else Exits 1 missing_env_hint).
Proof.
  intros Hload Ht setting. unfold run_script. rewrite Hload.
  unfold main_startup. rewrite bool_decide_eq_false_2 by done.
  unfold module_config. cbn [forallb API_KEY GITHUB_TOKEN REPO].
  rewrite !(load_lines_lookup lines environ environ') by done.
  fold (setting "OPENAI_API_KEY"). fold (setting "GITHUB_TOKEN").
  fold (setting "REPO"). rewrite andb_true_r, andb_assoc.
  by destruct (_ && _ && _).
Qed.

End EnvProperties.

Lemma dotenv_round_trip_witness :
  Env.load_line ("REPO" +:+ "=" +:+ "me/agent=x y" +:+ nl) ∅
  = Ok (<["REPO" := "me/agent=x y"]> ∅).
Proof.
  apply (dotenv_round_trip "REPO" "me/agent=x y" ∅); by vm_compute.
Defined.

Lemma dotenv_last_assignment_wins_witness :
  ∃ environ',
    Env.load_environment
      (Some ["REPO=a/b" +:+ nl; "# REPO=x/y" +:+ nl; "REPO=c/d" +:+ nl])
      {["REPO" := "inherited"]} = Ok environ'
    ∧ environ' !! "REPO" = Some "c/d".
Proof.
  eexists. split; [reflexivity|].
  by rewrite (dotenv_last_assignment_wins
                ["REPO=a/b" +:+ nl; "# REPO=x/y" +:+ nl; "REPO=c/d" +:+ nl]
                {["REPO" := "inherited"]} _ "REPO" eq_refl).
Defined.

Lemma dotenv_configures_startup_witness :
  Env.run_script ["agent.py"]
    (Some ["OPENAI_API_KEY=sk-1" +:+ nl; "GITHUB_TOKEN=ghp_1" +:+ nl;
           "REPO=" +:+ nl])
    {["REPO" := "me/agent"]}
  = Env.Started (Exits 1 missing_env_hint).
Proof.
  rewrite (dotenv_configures_startup ["agent.py"]
             [ "OPENAI_API_KEY=sk-1" +:+ nl; "GITHUB_TOKEN=ghp_1" +:+ nl;
               "REPO=" +:+ nl ]
             {["REPO" := "me/agent"]} _ eq_refl).
  - reflexivity.
  - by intros ?%list_elem_of_singleton.
Defined.

(** * Further properties: the script extraction *)

Section ExtractProperties.
Import PyStr Extract.

(** X6.  A reply that is cut off.  When the reply opens a fence and never
    closes it, the script is everything after the opening fence,
    stripped: after the first [```bash] when no fence follows it, and
    after the first fence when the reply has no [```bash]. *)
Theorem extract_unterminated_fence (pre rest : string) :
  contains rest "```" = false →
  (contains (pre +:+ "```bas") "```bash" = false →
   extract_script (pre +:+ "```bash" +:+ rest) = Ok (strip rest))
  ∧ (contains (pre +:+ "``") "```" = false →
     contains (pre +:+ "```" +:+ rest) "```bash" = false →
     extract_script (pre +:+ "```" +:+ rest) = Ok (strip rest)).
Proof.
  intros Hr. split.
  - intros Hp. unfold extract_script.
    assert (contains (pre +:+ fence_bash +:+ rest) fence_bash = true) as Hc
      by (apply contains_spec; by eexists _, _).
    fold fence_bash. rewrite Hc.
    destruct (between_value _ fence_bash ltac:(done) Hc) as (a & Ha & ->).
    rewrite after_app, after_match in Ha
      by (by apply (no_start_first fence_bash "```bas" "h")).
    injection Ha as <-.
    assert (contains rest fence_bash = false) as Hb.
    { destruct (contains rest fence_bash) eqn:E; [|done].
      apply contains_fence_bash in E. unfold fence in E. congruence. }
    by rewrite (before_absent rest fence_bash), (before_absent rest fence).
  - intros Hp Hb. unfold extract_script. fold fence_bash fence in *.
    rewrite Hb.
    assert (contains (pre +:+ fence +:+ rest) fence = true) as Hc
      by (apply contains_spec; by eexists _, _).
    rewrite Hc.
    destruct (between_value _ fence ltac:(done) Hc) as (a & Ha & ->).
    rewrite after_app, after_match in Ha
      by (by apply (no_start_first fence "``" "`")).
    injection Ha as <-.
    by rewrite !(before_absent rest fence).
Qed.

(** X7.  What a fenced reply yields.  Whenever the reply holds a fence,
    the extracted script holds no fence, has no white space at either
    end, and is left as it is when it is extracted again. *)
Theorem extracted_script_is_clean (reply : string) :
  contains reply "```" = true →
  ∃ r, extract_script reply = Ok r
       ∧ contains r "```" = false
       ∧ strip r = r
       ∧ extract_script r = Ok r.
Proof.
  intros [x Hx]%extract_fenced.
  assert (contains (strip (before x fence)) fence = false) as Hc
    by (apply contains_strip_false; by apply before_no_sep).
  eexists. split; [exact Hx|]. split; [exact Hc|].
  split; [apply strip_idem|by apply extract_raw].
Qed.

End ExtractProperties.

Lemma extract_unterminated_fence_witness :
  Extract.extract_script
    ("Here you go:" +:+ nl +:+ "```bash" +:+ nl +:+ "cp CURRENT_AGENT agent_vN.py"
       +:+ nl +:+ "echo done")
  = Ok ("cp CURRENT_AGENT agent_vN.py" +:+ nl +:+ "echo done").
Proof.
  apply (extract_unterminated_fence ("Here you go:" +:+ nl)
           (nl +:+ "cp CURRENT_AGENT agent_vN.py" +:+ nl +:+ "echo done"));
    reflexivity.
Defined.

Lemma extracted_script_is_clean_witness :
  ∃ r, Extract.extract_script ("```" +:+ nl +:+ " ls " +:+ nl +:+ "```") = Ok r
       ∧ PyStr.contains r "```" = false.
Proof.
  destruct (extracted_script_is_clean
              ("```" +:+ nl +:+ " ls " +:+ nl +:+ "```") eq_refl)
    as (r & H1 & H2 & _).
  by exists r.
Defined.

(** * Further properties: the version registry *)

Section RegistryProperties.
Import PyStr Registry.

(** X8.  The order of the listing does not matter.  [os.listdir] returns
    the names in an arbitrary order; two listings with the same names, in
    any order and with any repetition, give the same next version. *)
Theorem get_next_version_order (listing listing' : list string) :
  (∀ f, f ∈ listing ↔ f ∈ listing') →
  Registry.get_next_version listing = Registry.get_next_version listing'.
Proof.
  intros Hl.
  destruct (get_next_version_is_next listing) as (v & -> & Hu & Hn & Ha).
  symmetry. apply is_next_version_run. split; [|split].
  - intros f n Hf. apply Hu. by apply Hl.
  - intros H. apply Hn. intros f Hf. apply H. by apply Hl.
  - intros (f & Hf & Hs). destruct Ha as (g & Hg & ?).
    + exists f. split; [by apply Hl|done].
    + exists g. split; [by apply Hl|done].
Qed.

(** X9.  The registry advances with the artifacts.  Let [v] be the next
    version in one state of the directory and [v'] the next version in a
    later state.  If no file was removed, [v ≤ v'].  If the artifact
    [agent_v<v>.py] is there, [v < v']: a version whose artifact exists
    is never handed out again, whether or not it passed validation.  If
    besides the old files and that artifact the directory holds only
    names that carry no version, such as [evolve_v<v>.sh], then
    [v' = v + 1]. *)
Theorem registry_advances (w w' : world) (v v' : N) :
  Registry.get_next_version (listdir w) = Ok v →
  Registry.get_next_version (listdir w') = Ok v' →
  (dom (files w) ⊆ dom (files w') → (v ≤ v')%N)
  ∧ (artifact_name v ∈ dom (files w') → (v < v')%N)
  ∧ (artifact_name v ∈ dom (files w') →
     (∀ f, f ∈ dom (files w') →
           f ∈ dom (files w) ∨ f = artifact_name v
           ∨ embedded_version f = None) →
     v' = (v + 1)%N)
  ∧ embedded_version (Builder.script_filename v) = None.
Proof.
  intros (Hu & Hn & Ha)%is_next_version_run
         (Hu' & Hn' & Ha')%is_next_version_run.
  assert (∀ x, x ∈ listdir w ↔ x ∈ dom (files w)) as Hd
    by (intros x; unfold listdir; by rewrite elem_of_elements).
  assert (∀ x, x ∈ listdir w' ↔ x ∈ dom (files w')) as Hd'
    by (intros x; unfold listdir; by rewrite elem_of_elements).
  split; [|split; [|split; [|done]]].
  - intros Hsub.
    destruct (omap embedded_version (listdir w)) as [|n ns] eqn:E.
    + assert (v = 1%N) as ->.
      { apply Hn. intros f Hf.
        destruct (embedded_version f) as [n|] eqn:En; [|done].
        assert (n ∈ omap embedded_version (listdir w)) as Hin
          by (apply list_elem_of_omap; eauto).
        rewrite E in Hin. by apply elem_of_nil in Hin. }
      destruct (omap embedded_version (listdir w')) as [|n' ns'] eqn:E'.
      * assert (v' = 1%N) as ->; [|done].
        apply Hn'. intros f Hf.
        destruct (embedded_version f) as [n|] eqn:En; [|done].
        assert (n ∈ omap embedded_version (listdir w')) as Hin
          by (apply list_elem_of_omap; eauto).
        rewrite E' in Hin. by apply elem_of_nil in Hin.
      * assert (n' ∈ omap embedded_version (listdir w')) as Hin
          by (rewrite E'; left).
        apply list_elem_of_omap in Hin as (f & Hf & Hv).
        pose proof (Hu' f n' Hf Hv). lia.
    + assert (n ∈ omap embedded_version (listdir w)) as Hin
        by (rewrite E; left).
      apply list_elem_of_omap in Hin as (f & Hf & Hv).
      destruct Ha as (g & Hg & Hgv & Hp); [exists f; by rewrite Hv|].
      assert (g ∈ listdir w') as Hg' by (apply Hd', Hsub, Hd, Hg).
      pose proof (Hu' g _ Hg' Hgv). lia.
  - intros Hin%Hd'.
    apply (Hu' _ _ Hin), embedded_version_artifact.
  - intros Hin%Hd' Hall.
    destruct Ha' as (g & Hg & Hgv & Hp).
    { exists (artifact_name v). split; [done|].
      by rewrite embedded_version_artifact. }
    pose proof (Hu' _ _ Hin (embedded_version_artifact v)) as Hlt.
    destruct (Hall g) as [Hold|[->|Hnone]]; [by apply Hd'| | |congruence].
    + apply Hd in Hold. pose proof (Hu g _ Hold Hgv). lia.
    + rewrite embedded_version_artifact in Hgv. injection Hgv as Hv. lia.
Qed.

End RegistryProperties.

Lemma get_next_version_order_witness :
  Registry.get_next_version ["agent_v2.py"; "notes.txt"; "agent_v10.py"]
  = Registry.get_next_version
      ["agent_v10.py"; "agent_v2.py"; "agent_v2.py"; "notes.txt"].
Proof.
  apply get_next_version_order. intros f.
  rewrite !elem_of_cons, !elem_of_nil. tauto.
Defined.

Lemma registry_advances_witness :
  Registry.get_next_version (listdir Sample.start) = Ok 1%N
  ∧ Registry.get_next_version
      (listdir (mkWorld {["agent.py" := "source"; "agent_v1.py" := "code"]}
                  ∅ [] None)) = Ok 2%N
  ∧ (1 < 2)%N.
Proof.
  assert (Registry.get_next_version (listdir Sample.start) = Ok 1%N) as H1
    by (by vm_compute).
  assert (Registry.get_next_version
            (listdir (mkWorld
                        {["agent.py" := "source"; "agent_v1.py" := "code"]}
                        ∅ [] None)) = Ok 2%N) as H2
    by (by vm_compute).
  split; [exact H1|]. split; [exact H2|].
  apply (registry_advances _ _ 1 2 H1 H2).
  apply elem_of_dom. by exists "code".
Defined.

(** * Further properties: the builder and the retry controller *)

Section BuilderProperties.
Import PyStr.

(** X10.  The first replacement is redundant.  Replacing [agent_vN.py]
    before [vN] changes nothing: the finalized script is what the
    replacement of [vN] followed by that of [CURRENT_AGENT] gives on the
    script as it was generated. *)
Theorem artifact_replacement_redundant (script : string) (version : N)
    (current_filename : string) :
  Builder.substitute script version current_filename
  = replace (replace script "vN" ("v" +:+ str version))
      "CURRENT_AGENT" current_filename.
Proof. apply substitute_alt. Qed.

End BuilderProperties.

Section SummaryProperties.

Context (cf : string).

(** X11.  Error summary of a failed build.  When the evolution script of
    an attempt that is not the last ends with a non-zero return code, the
    artifact is not tested and nothing is published: the next call after
    the run of the script is the model call of the next attempt, and its
    failure context is the generated script with the text
    [Evolution script failed: ] followed by what the script wrote to its
    standard error.  When the run itself raises, as on the 60-second
    timeout, the context carries the message of that exception. *)
Theorem build_failure_summary (ie : issue_env) (version n : N)
    (task : string) (attempt next : nat) (rest : list nat)
    (previous : option previous_attempt) (w : world) (script : string) :
  generated (attempts ie attempt) = Ok script →
  attempt ≠ max_retries →
  (∀ returncode stderr,
     bash (attempts ie attempt) = Completed returncode stderr →
     returncode ≠ 0%Z →
     ∃ evs,
       trace (attempt_loop cf ie version n task (attempt :: next :: rest)
                previous w).2
       = trace w ++ CallModel task previous :: build_events cf script version
           ++ CallModel task
                (Some (mkPrev script
                         ("Evolution script failed: " +:+ stderr)))
              :: evs)
  ∧ (∀ e,
       bash (attempts ie attempt) = RunRaised e →
       ∃ evs,
         trace (attempt_loop cf ie version n task (attempt :: next :: rest)
                  previous w).2
         = trace w ++ CallModel task previous
             :: build_events cf script version
             ++ CallModel task (Some (mkPrev script (exn_msg e))) :: evs).
Proof.
  intros Hg Hne. split.
  - intros rc err Hb Hrc. apply Z.eqb_neq in Hrc.
    rewrite attempt_loop_cons. unfold try_except.
    rewrite attempt_try_run, Hg, Hb. cbv zeta. rewrite Hrc.
    cbv beta iota. rewrite attempt_except_continue by done.
    match goal with
    | |- context [attempt_loop cf ie version n task (next :: rest) ?p ?w1] =>
        destruct (attempt_loop_starts cf ie version n task next rest p w1)
          as [evs Hev]
    end.
    exists evs. rewrite Hev. by trace_norm.
  - intros e Hb.
    rewrite attempt_loop_cons. unfold try_except.
    rewrite attempt_try_run, Hg, Hb. cbv beta iota zeta.
    rewrite attempt_except_continue by done.
    match goal with
    | |- context [attempt_loop cf ie version n task (next :: rest) ?p ?w1] =>
        destruct (attempt_loop_starts cf ie version n task next rest p w1)
          as [evs Hev]
    end.
    exists evs. rewrite Hev. by trace_norm.
Qed.

(** X12.  Error summary of a failed generation.  When the call of the
    model, or the extraction of the script from its reply, raises in an
    attempt that is not the last, nothing is built: the next call is the
    model call of the next attempt.  Its failure context carries the
    message of the exception and, as the script, whatever
    [evolution_script] was bound to before the attempt: the script of an
    earlier attempt or task, and [N/A] only when no script has been
    generated since the program started. *)
Theorem generation_failure_summary (ie : issue_env) (version n : N)
    (task : string) (attempt next : nat) (rest : list nat)
    (previous : option previous_attempt) (w : world) (e : exn) :
  generated (attempts ie attempt) = Raise e →
  attempt ≠ max_retries →
  ∃ evs,
    trace (attempt_loop cf ie version n task (attempt :: next :: rest)
             previous w).2
    = trace w ++ CallModel task previous
        :: CallModel task
             (Some (mkPrev (default "N/A" (evolution_script w)) (exn_msg e)))
        :: evs.
Proof.
  intros Hg Hne. rewrite attempt_loop_cons.
  rewrite (generation_fails_attempt cf _ _ _ _ _ _ _ e) by done.
  match goal with
  | |- context [attempt_loop cf ie version n task (next :: rest) ?p ?w1] =>
      destruct (attempt_loop_starts cf ie version n task next rest p w1)
        as [evs Hev]
  end.
  exists evs. rewrite Hev. by trace_norm.
Qed.

(** X13.  A stale script in the failure context.  Let an attempt generate
    a script and fail, and let the generation of the next attempt raise.
    Then the attempt after that is given the script of the first of the
    three attempts together with the error of the second: the script in
    the failure context is not always the one that caused the error. *)
Theorem stale_script_reported (ie : issue_env) (version n : N)
    (task : string) (first second third : nat) (rest : list nat)
    (previous : option previous_attempt) (w : world) (script : string)
    (e : exn) :
  first ≠ max_retries → second ≠ max_retries →
  generated (attempts ie first) = Ok script →
  cycle_passes (attempts ie first) = false →
  generated (attempts ie second) = Raise e →
  ∃ previous' evs,
    trace (attempt_loop cf ie version n task
             (first :: second :: third :: rest) previous w).2
    = trace w
        ++ cycle_events cf (attempts ie first) version task previous
        ++ CallModel task (Some previous')
        :: CallModel task (Some (mkPrev script (exn_msg e))) :: evs.
Proof.
  intros Hn1 Hn2 Hg1 Hf1 Hg2.
  destruct (failing_attempt_script cf (attempts ie first) version n task
              first previous w script Hn1 Hf1 Hg1)
    as (w1 & p1 & E1 & Hs & Ht).
  rewrite attempt_loop_cons, E1, attempt_loop_cons.
  rewrite (generation_fails_attempt cf _ _ _ _ _ _ _ e) by done.
  match goal with
  | |- context [attempt_loop cf ie version n task (third :: rest) ?p ?w2] =>
      destruct (attempt_loop_starts cf ie version n task third rest p w2)
        as [evs Hev]
  end.
  exists p1, evs. rewrite Hev, Hs. trace_norm. rewrite Ht.
  by rewrite <- !app_assoc.
Qed.

End SummaryProperties.

Lemma build_failure_summary_witness :
  ∃ evs,
    trace (attempt_loop "agent.py" Sample.build_always_fails 1 42
             "Add logging" [1; 2; 3] None Sample.start).2
    = trace Sample.start ++ CallModel "Add logging" None
        :: build_events "agent.py" "cp CURRENT_AGENT agent_vN.py" 1
        ++ CallModel "Add logging"
             (Some (mkPrev "cp CURRENT_AGENT agent_vN.py"
                      "Evolution script failed: cp: cannot stat"))
           :: evs.
Proof.
  assert (1 ≠ max_retries) as Hne by (unfold max_retries; lia).
  destruct (build_failure_summary "agent.py" Sample.build_always_fails 1 42
              "Add logging" 1 2 [3] None Sample.start
              "cp CURRENT_AGENT agent_vN.py" eq_refl Hne) as [H _].
  apply (H 2%Z "cp: cannot stat" eq_refl). lia.
Defined.

Lemma generation_failure_summary_witness :
  ∃ evs,
    trace (attempt_loop "agent.py" Sample.generation_always_fails 1 42
             "Add logging" [1; 2; 3] None Sample.start).2
    = trace Sample.start ++ CallModel "Add logging" None
        :: CallModel "Add logging"
             (Some (mkPrev "N/A" "rate limit reached"))
        :: evs.
Proof.
  apply (generation_failure_summary "agent.py" Sample.generation_always_fails
           1 42 "Add logging" 1 2 [3] None Sample.start
           (mkExn PlainException "rate limit reached") eq_refl).
  unfold max_retries; lia.
Defined.

Lemma stale_script_reported_witness :
  ∃ previous' evs,
    trace (attempt_loop "agent.py" Sample.second_generation_fails 1 42
             "Add logging" [1; 2; 3] None Sample.start).2
    = trace Sample.start
        ++ cycle_events "agent.py" Sample.attempt_test_fails 1
             "Add logging" None
        ++ CallModel "Add logging" (Some previous')
        :: CallModel "Add logging"
             (Some (mkPrev "cp CURRENT_AGENT agent_vN.py"
                      "rate limit reached"))
        :: evs.
Proof.
  apply (stale_script_reported "agent.py" Sample.second_generation_fails 1 42
           "Add logging" 1 2 3 [] None Sample.start
           "cp CURRENT_AGENT agent_vN.py"
           (mkExn PlainException "rate limit reached"));
    first [reflexivity | unfold max_retries; lia].
Defined.

(** * Further properties: the scan and the loop of [main] *)

Section ScanProperties.

Context (cf : string).

(** X14.  The number of model calls is bounded.  Whatever the outside
    answers, a task costs at most [max_retries] calls of the model and a
    scan at most [max_retries] calls for each issue of the listing; a
    scan whose listing fails calls the model not at all. *)
Theorem model_calls_bounded (se : scan_env) (w : world) :
  (∀ ie version i w0,
     ∃ evs, trace (process_issue cf ie version i w0).2 = trace w0 ++ evs
            ∧ attempts_begun evs ≤ max_retries)
  ∧ ∃ evs, trace (scan cf se w).2 = trace w ++ evs
           ∧ attempts_begun evs
             ≤ max_retries * match issues_response se with
                             | Ok issues => length issues
                             | Raise _ => 0
                             end.
Proof.
  split.
  - intros ie version i w0.
    destruct (count_le_process_issue is_call_model cf 1) with
      (ie := ie) (version := version) (i := i) (w := w0) as (evs & Ht & Hc);
      [done|by intros []|done|by intros req _|].
    exists evs. split; [done|]. unfold attempts_begun. unfold count in Hc.
    lia.
  - destruct (scan_run cf se w) as (v & Hv & ->). cbv zeta.
    destruct (issues_response se) as [issues|e0].
    + set (w1 := add_events [Api ListOpenTasks] w).
      destruct (for_issues_calls cf se v 0 issues w1) as (evs & Ht & Hc).
      assert (∀ s, attempts_begun (Api ListOpenTasks :: evs ++ [Sleep s])
                   = count is_call_model evs) as Hs.
      { intros s. change (attempts_begun ?l) with (count is_call_model l).
        by rewrite count_around, Nat.add_0_r. }
      destruct (for_issues cf se v 0 issues w1) as [[[]|e|q] w2];
        cbn [fst snd] in *.
      * exists (Api ListOpenTasks :: evs ++ [Sleep 30]).
        split; [trace_norm; rewrite Ht; subst w1; by trace_norm|].
        rewrite Hs. lia.
      * exists (Api ListOpenTasks :: evs ++ [Sleep 60]).
        split; [trace_norm; rewrite Ht; subst w1; by trace_norm|].
        rewrite Hs. lia.
      * exists (Api ListOpenTasks :: evs).
        split; [rewrite Ht; subst w1; by trace_norm|].
        change (attempts_begun ?l) with (count is_call_model l).
        rewrite count_cons. cbn [is_call_model]. lia.
    + exists [Api ListOpenTasks; Sleep 60]. split; [by trace_norm|].
      cbn [attempts_begun List.filter is_call_model length]. lia.
Qed.

(** X15.  How a scan ends.  A scan never ends with an exception: every
    [Exception] that escapes a task is caught at the level of the loop.
    A scan that returns began with the listing request and ended with
    one sleep, of 30 seconds or, after an exception, of 60 seconds, and
    made no other sleep; when the listing request itself raises, nothing
    else is called before the 60-second sleep.  A scan that does not
    return ended with [os.execv], without any sleep. *)
Theorem scan_ends (se : scan_env) (w : world) :
  (∀ e, (scan cf se w).1 ≠ Exc e)
  ∧ ((scan cf se w).1 = Ret tt →
     ∃ evs secs,
       trace (scan cf se w).2
       = trace w ++ Api ListOpenTasks :: evs ++ [Sleep secs]
       ∧ count is_sleep evs = 0 ∧ (secs = 30 ∨ secs = 60)
       ∧ (∀ e, issues_response se = Raise e → evs = [] ∧ secs = 60))
  ∧ (∀ p, (scan cf se w).1 = Replaced p →
     ∃ evs,
       trace (scan cf se w).2
       = trace w ++ Api ListOpenTasks :: evs ++ [Execv p]
       ∧ count is_sleep evs = 0).
Proof. apply scan_sleeps. Qed.

(** X16.  A scan keeps to the tasks of the listing.  Every request of a
    scan is the listing itself, a pull request, or a request of the task
    of an issue that the listing returned.  So every issue addressed was
    listed, the only labels ever removed are [agent-failed] and
    [agent-retry], and the only label ever added is [agent-failed]. *)
Theorem scan_requests_listed_tasks (se : scan_env) (w : world) :
  let issues :=
    match issues_response se with Ok issues => issues | Raise _ => [] end in
  ∃ evs,
    trace (scan cf se w).2 = trace w ++ evs
    ∧ Forall (λ e, strays issues e = false) evs
    ∧ (∀ req n, Api req ∈ evs → request_issue req = Some n →
                ∃ i, i ∈ issues ∧ number i = n)
    ∧ (∀ n l, Api (DeleteLabel n l) ∈ evs →
              l = "agent-failed" ∨ l = "agent-retry")
    ∧ (∀ n ls, Api (AddLabels n ls) ∈ evs → ls = ["agent-failed"]).
Proof.
  intros issues.
  assert (∃ evs, trace (scan cf se w).2 = trace w ++ evs
                 ∧ Forall (λ e, strays issues e = false) evs)
    as (evs & Ht & Hf).
  { subst issues. destruct (scan_run cf se w) as (v & Hv & ->). cbv zeta.
    destruct (issues_response se) as [issues|e0].
    - set (w1 := add_events [Api ListOpenTasks] w).
      destruct (for_issues_no_stray cf se v 0 issues w1) as (evs & Ht & Hc).
      assert (Forall (λ e, strays issues e = false) evs) as Hf
        by (apply count_zero; lia).
      destruct (for_issues cf se v 0 issues w1) as [[[]|e|q] w2];
        cbn [fst snd] in *.
      + exists (Api ListOpenTasks :: evs ++ [Sleep 30]).
        split; [trace_norm; rewrite Ht; subst w1; by trace_norm|].
        constructor; [done|]. apply Forall_app. split; [done|].
        by constructor.
      + exists (Api ListOpenTasks :: evs ++ [Sleep 60]).
        split; [trace_norm; rewrite Ht; subst w1; by trace_norm|].
        constructor; [done|]. apply Forall_app. split; [done|].
        by constructor.
      + exists (Api ListOpenTasks :: evs).
        split; [rewrite Ht; subst w1; by trace_norm|].
        by constructor.
    - exists [Api ListOpenTasks; Sleep 60]. split; [by trace_norm|].
      by repeat constructor. }
  exists evs. split; [done|]. split; [done|].
  assert (∀ req, Api req ∈ evs →
            req = ListOpenTasks ∨ (∃ t b h base, req = CreatePull t b h base)
            ∨ ∃ i, i ∈ issues ∧ task_request (number i) req = true) as Hreq.
  { intros req Hin. apply strays_false.
    by apply (proj1 (Forall_forall _ _) Hf (Api req)). }
  split; [|split].
  - intros req n Hin Hn.
    destruct (Hreq req Hin) as [->|[(t & b & h & base & ->)|(i & Hi & Hr)]];
      [done|done|].
    exists i. split; [done|].
    destruct req; cbn in Hn, Hr; try done; injection Hn as <-.
    + apply andb_true_iff in Hr as [Hr _]. symmetry. by apply N.eqb_eq.
    + symmetry. by apply N.eqb_eq.
    + apply andb_true_iff in Hr as [Hr _]. symmetry. by apply N.eqb_eq.
    + symmetry. by apply N.eqb_eq.
  - intros n l Hin.
    destruct (Hreq _ Hin) as [?|[(t & b & h & base & ?)|(i & Hi & Hr)]];
      [done|done|].
    cbn in Hr. apply andb_true_iff in Hr as [_ Hr].
    apply orb_true_iff in Hr as [Hr|Hr]; apply String.eqb_eq in Hr; auto.
  - intros n ls Hin.
    destruct (Hreq _ Hin) as [?|[(t & b & h & base & ?)|(i & Hi & Hr)]];
      [done|done|].
    cbn in Hr. apply andb_true_iff in Hr as [_ Hr].
    by apply bool_decide_eq_true in Hr.
Qed.

(** X17.  The pace of the loop.  The loop of [main] never ends with an
    exception.  As long as the process is not replaced, every scan is
    followed by exactly one sleep, so that [n] scans make [n] sleeps;
    when the process is replaced, the last call is the [os.execv] and
    the scans that would follow are not run. *)
Theorem main_loop_paces (ses : list scan_env) (w : world) :
  (∀ e, (main_loop cf ses w).1 ≠ Exc e)
  ∧ ∃ evs,
      trace (main_loop cf ses w).2 = trace w ++ evs
      ∧ ((main_loop cf ses w).1 = Ret tt → count is_sleep evs = length ses)
      ∧ (∀ p, (main_loop cf ses w).1 = Replaced p →
              count is_sleep evs < length ses ∧ last evs = Some (Execv p)).
Proof.
  revert w. induction ses as [|se rest IH]; intros w.
  - split; [done|]. exists []. split; [by rewrite app_nil_r|]. by split.
  - cbn [main_loop]. rewrite bind_run.
    destruct (scan_sleeps cf se w) as (Hexc & Hret & Hrep).
    destruct (scan cf se w) as [[[]|e|q] w1]; cbn [fst snd] in *.
    + destruct (Hret eq_refl) as (evs1 & secs & Ht1 & Hc1 & Hs & _).
      destruct (IH w1) as (Hexc2 & evs2 & Ht2 & Hret2 & Hrep2).
      split; [done|].
      exists ((Api ListOpenTasks :: evs1 ++ [Sleep secs]) ++ evs2).
      split; [rewrite Ht2, Ht1; by rewrite <- !app_assoc|].
      assert (count is_sleep (Api ListOpenTasks :: evs1 ++ [Sleep secs]) = 1)
        as Hone by (rewrite count_around, Hc1; done).
      split.
      * intros H. rewrite count_app, Hone, (Hret2 H). done.
      * intros p H. destruct (Hrep2 p H) as [Hlt Hl].
        rewrite count_app, Hone. cbn [length]. split; [lia|].
        destruct evs2 as [|e2 evs2]; [done|].
        by rewrite last_app, Hl.
    + by destruct (Hexc e).
    + destruct (Hrep q eq_refl) as (evs1 & Ht1 & Hc1).
      split; [done|]. exists (Api ListOpenTasks :: evs1 ++ [Execv q]).
      split; [done|]. split; [done|]. intros p [= <-]. split.
      * rewrite count_around, Hc1. cbn [is_sleep length]. lia.
      * change (Api ListOpenTasks :: evs1 ++ [Execv q])
          with ((Api ListOpenTasks :: evs1) ++ [Execv q]).
        by rewrite last_snoc.
Qed.

(** X18.  The process is replaced by validated code only.  When a scan
    ends with [os.execv], the new program is the artifact
    [agent_v<N>.py] of the version computed at the start of the scan; it
    belongs to an attempt of a listed issue whose script was generated
    and exited with code 0 and whose artifact exited with code 0 under
    [--test]; the trace ends with the cycle of that attempt, whose last
    call is the test of this very artifact, followed by the complete
    publication: branch, commit, push, pull request, success comment and
    closing of the issue. *)
Theorem replaced_only_after_validation (se : scan_env) (w : world)
    (p : string) :
  (scan cf se w).1 = Replaced p →
  ∃ version issues k i attempt previous pre,
    Registry.get_next_version (listdir w) = Ok version
    ∧ p = Registry.artifact_name version
    ∧ issues_response se = Ok issues ∧ issues !! k = Some i
    ∧ 1 ≤ attempt ≤ max_retries
    ∧ cycle_passes (attempts (issue_envs se k) attempt) = true
    ∧ publishes (attempts (issue_envs se k) attempt) = true
    ∧ trace (scan cf se w).2
      = pre ++ cycle_events cf (attempts (issue_envs se k) attempt) version
                 (title i) previous
            ++ publish_events version (number i) (title i) attempt
    ∧ last (cycle_events cf (attempts (issue_envs se k) attempt) version
              (title i) previous) = Some (RunTest p).
Proof.
  destruct (scan_run cf se w) as (v & Hv & ->). cbv zeta.
  destruct (issues_response se) as [issues|e0]; [|done].
  set (w1 := add_events [Api ListOpenTasks] w).
  pose proof (for_issues_replaced cf se v 0 issues w1) as Hr.
  destruct (for_issues cf se v 0 issues w1) as [[[]|e|q] w2];
    cbn [fst snd] in *; [done|done|].
  intros [= <-].
  destruct (Hr q eq_refl)
    as (k & i & att & prev & evs & Hk & Ha & Hc & Hp & -> & Ht).
  cbn [Nat.add] in *.
  exists v, issues, k, i, att, prev, (trace w1 ++ evs).
  do 7 (split; [done|]). split; [by rewrite Ht, <- !app_assoc|].
  apply cycle_passes_inv in Hc as (script & rc & err & Hg & Hb & Hrc & _).
  unfold cycle_events. rewrite Hg, Hb. cbn [exited_zero]. by rewrite Hrc.
Qed.


End ScanProperties.

Lemma replaced_only_after_validation_witness :
  ∃ version issues k i attempt previous pre,
    Registry.get_next_version (listdir Sample.start) = Ok version
    ∧ "agent_v1.py" = Registry.artifact_name version
    ∧ issues_response Sample.scan_ok = Ok issues ∧ issues !! k = Some i
    ∧ 1 ≤ attempt ≤ max_retries
    ∧ cycle_passes (attempts (issue_envs Sample.scan_ok k) attempt) = true
    ∧ publishes (attempts (issue_envs Sample.scan_ok k) attempt) = true
    ∧ trace (scan "agent.py" Sample.scan_ok Sample.start).2
      = pre ++ cycle_events "agent.py"
                 (attempts (issue_envs Sample.scan_ok k) attempt) version
                 (title i) previous
            ++ publish_events version (number i) (title i) attempt
    ∧ last (cycle_events "agent.py"
              (attempts (issue_envs Sample.scan_ok k) attempt) version
              (title i) previous) = Some (RunTest "agent_v1.py").
Proof.
  apply (replaced_only_after_validation "agent.py" Sample.scan_ok
           Sample.start "agent_v1.py").
  by vm_compute.
Defined.

(** * Further properties: failures after the validation *)

Section LateFailureProperties.

Context (cf : string).

(** X20.  A failure inside the give-up path.  At the last attempt of a
    task whose artifact fails its test cleanly, the give-up comment is
    posted inside the [try] block.  When the request that adds the label
    then raises, the handler of the attempt runs the give-up path once
    more: provided its two requests return, the issue receives a second
    failure comment, this one quoting the error of the label request, the
    label is added, and the task ends without an exception. *)
Theorem giveup_failure_is_handled_again (ie : issue_env) (version n : N)
    (task : string) (previous : option previous_attempt) (w : world)
    (e : exn) :
  fails_cleanly (attempts ie max_retries) = true →
  api_fails (attempts ie max_retries) SiteGiveUpComment = None →
  api_fails (attempts ie max_retries) SiteGiveUpLabel = Some e →
  api_fails (attempts ie max_retries) SiteHandlerComment = None →
  api_fails (attempts ie max_retries) SiteHandlerLabel = None →
  (attempt_loop cf ie version n task [max_retries] previous w).1 = Ret tt
  ∧ trace (attempt_loop cf ie version n task [max_retries] previous w).2
    = trace w
        ++ cycle_events cf (attempts ie max_retries) version task previous
        ++ [ Api (PostComment n giveup_comment);
             Api (AddLabels n ["agent-failed"]);
             Api (PostComment n (handler_comment e));
             Api (AddLabels n ["agent-failed"]) ].
Proof.
  intros Hf H1 H2 H3 H4. unfold fails_cleanly in Hf.
  destruct (generated (attempts ie max_retries)) as [script|] eqn:Hg;
    [|done].
  destruct (bash (attempts ie max_retries)) as [rc err|] eqn:Hb; [|done].
  simpl in Hf. apply andb_true_iff in Hf as [Hrc Ht].
  apply negb_true_iff in Ht.
  rewrite attempt_loop_cons. unfold try_except. rewrite attempt_try_run.
  rewrite Hg, Hb. cbv zeta. rewrite Hrc, Ht.
  rewrite after_validation_failed_last. cbv zeta. rewrite H1, H2.
  rewrite attempt_except_last. cbv zeta. rewrite H3, H4.
  split; [done|]. unfold cycle_events. rewrite Hg, Hb.
  simpl exited_zero. rewrite Hrc. by trace_norm.
Qed.

(** X21.  A failure of [os.execv].  When an attempt passes, every
    publish step returns and [os.execv] raises, the pull request exists,
    the success comment is posted and the issue is closed; yet the
    handler of the attempt treats the exception like any other: while
    attempts remain, the next attempt is started for the closed issue,
    with the message of the exception as its error summary. *)
Theorem execv_failure_is_retried (ie : issue_env) (version n : N)
    (task : string) (attempt next : nat) (rest : list nat)
    (previous : option previous_attempt) (w : world) (e : exn) :
  cycle_passes (attempts ie attempt) = true →
  publish_failure (attempts ie attempt) = None →
  execv_fails (attempts ie attempt) = Some e →
  attempt ≠ max_retries →
  ∃ script w1 evs,
    generated (attempts ie attempt) = Ok script
    ∧ attempt_loop cf ie version n task (attempt :: next :: rest) previous w
      = attempt_loop cf ie version n task (next :: rest)
          (Some (mkPrev script (exn_msg e))) w1
    ∧ is_open n w1 = (λ _, false) <$> is_open n w
    ∧ trace (attempt_loop cf ie version n task (attempt :: next :: rest)
               previous w).2
      = trace w
          ++ cycle_events cf (attempts ie attempt) version task previous
          ++ publish_events version n task attempt
          ++ CallModel task (Some (mkPrev script (exn_msg e))) :: evs.
Proof.
  intros Hc Hp He Hne.
  destruct (published_attempt cf (attempts ie attempt) version n task attempt
              previous w Hc Hp) as (script & w1 & Hg & E & Ht & Hs & Ho).
  rewrite He in E.
  assert (attempt_loop cf ie version n task (attempt :: next :: rest)
            previous w
          = attempt_loop cf ie version n task (next :: rest)
              (Some (mkPrev script (exn_msg e))) w1) as Hl.
  { rewrite attempt_loop_cons. unfold try_except. rewrite E.
    rewrite attempt_except_continue by done. by rewrite Hs. }
  destruct (attempt_loop_starts cf ie version n task next rest
              (Some (mkPrev script (exn_msg e))) w1) as [evs Hev].
  exists script, w1, evs. split; [done|]. split; [done|]. split; [done|].
  rewrite Hl, Hev, Ht. by rewrite <- !app_assoc.
Qed.

End LateFailureProperties.

Lemma giveup_failure_is_handled_again_witness :
  (attempt_loop "agent.py" Sample.label_always_fails 1 42 "Add logging"
     [max_retries] None Sample.start).1 = Ret tt
  ∧ trace (attempt_loop "agent.py" Sample.label_always_fails 1 42
             "Add logging" [max_retries] None Sample.start).2
    = trace Sample.start
        ++ cycle_events "agent.py" (attempts Sample.label_always_fails
                                      max_retries) 1 "Add logging" None
        ++ [ Api (PostComment 42 giveup_comment);
             Api (AddLabels 42 ["agent-failed"]);
             Api (PostComment 42
                    (handler_comment
                       (mkExn RequestException "connection reset")));
             Api (AddLabels 42 ["agent-failed"]) ].
Proof.
  by apply (giveup_failure_is_handled_again "agent.py"
              Sample.label_always_fails 1 42 "Add logging" None Sample.start
              (mkExn RequestException "connection reset")).
Defined.

Lemma execv_failure_is_retried_witness :
  ∃ script w1 evs,
    generated (attempts Sample.execv_always_fails 1) = Ok script
    ∧ attempt_loop "agent.py" Sample.execv_always_fails 1 42 "Add logging"
        [1; 2; 3] None Sample.start
      = attempt_loop "agent.py" Sample.execv_always_fails 1 42 "Add logging"
          [2; 3]
          (Some (mkPrev script "[Errno 2] No such file or directory")) w1
    ∧ is_open 42 w1 = (λ _, false) <$> is_open 42 Sample.start
    ∧ trace (attempt_loop "agent.py" Sample.execv_always_fails 1 42
               "Add logging" [1; 2; 3] None Sample.start).2
      = trace Sample.start
          ++ cycle_events "agent.py" (attempts Sample.execv_always_fails 1)
               1 "Add logging" None
          ++ publish_events 1 42 "Add logging" 1
          ++ CallModel "Add logging"
               (Some (mkPrev script "[Errno 2] No such file or directory"))
             :: evs.
Proof.
  apply (execv_failure_is_retried "agent.py" Sample.execv_always_fails 1 42
           "Add logging" 1 2 [3] None Sample.start
           (mkExn OSError "[Errno 2] No such file or directory"));
    first [reflexivity | unfold max_retries; lia].
Defined.
